(** * Temporary RValue elimination (TempRValueElimination.cpp)

    A shallow embedding of the SIL pass [TempRValueOptPass]: the use
    collector [collectLoads], the modification checker
    [getLastUseWhileSourceIsNotModified], the scope extender
    [extendAccessScopes], the destroy-pattern validator
    [checkTempObjectDestroy], the two rewriters [tryOptimizeCopyIntoTemp] and
    [tryOptimizeStoreIntoTemp], and the driver [run].

    The IR is a list of basic blocks, each a list of instructions.  An
    instruction is identified by its [instId] (the C++ pointer identity);
    operands are values.  IR mutation is explicit state passing. *)

From Stdlib Require Import List Bool Arith Lia PeanoNat.
Import ListNotations.

(* ================================================================= *)
(** ** The IR data model *)

Definition InstId := nat.

Inductive OwnershipKind := OwnershipNone | Unowned | Owned | Guaranteed.

(** A value is a function argument (carrying its ownership kind), the
    result of an instruction, or the token result of a begin_apply. *)
Inductive SILValue :=
| FunctionArgument (index : nat) (ownership : OwnershipKind)
| InstResult (def : InstId)
| TokenResult (def : InstId).

Inductive SILAccessKind := AccessInit | AccessRead | AccessModify | AccessDeinit.
Inductive LoadOwnershipQualifier := LoadUnqualified | LoadTake | LoadCopy | LoadTrivial.
Inductive StoreOwnershipQualifier := StoreUnqualified | StoreInit | StoreAssign | StoreTrivial.

(** Modelled from the spec: the argument conventions of call-like
    instructions and yields ("Guaranteed, Owned, In-out, ..."); only the
    guaranteed test is used by the pass. *)
Inductive ParameterConvention := ConvGuaranteed | ConvOwned | ConvInout | ConvUnowned.

Definition isGuaranteed (c : ParameterConvention) : bool :=
  match c with ConvGuaranteed => true | _ => false end.

Definition ApplyArgs := list (SILValue * ParameterConvention).

(** The closed set of instruction kinds the pass distinguishes.  The callee
    operand of call-like instructions is not an address and is left out;
    [OtherInst] stands for every kind the pass sends to a default clause,
    with its ordinary and its type-dependent operands. *)
Inductive SILInstructionKind :=
| AllocStackInst (isLexical hasDynamicLifetime : bool)
| DeallocStackInst (operand : SILValue)
| DestroyAddrInst (operand : SILValue)
| CopyAddrInst (src dest : SILValue) (isTakeOfSrc isInitializationOfDest : bool)
| StoreInst (src dest : SILValue) (qualifier : StoreOwnershipQualifier)
| LoadInst (operand : SILValue) (qualifier : LoadOwnershipQualifier)
| LoadBorrowInst (operand : SILValue)
| EndBorrowInst (operand : SILValue)
| BeginAccessInst (source : SILValue) (accessKind : SILAccessKind)
| EndAccessInst (operand : SILValue)
| BeginUnpairedAccessInst (source buffer : SILValue)
| MarkDependenceInst (value base : SILValue) (dependenceKind : nat)
| ApplyInst (args : ApplyArgs)
| TryApplyInst (args : ApplyArgs)
| BeginApplyInst (args : ApplyArgs)
| PartialApplyInst (isOnStack : bool) (args : ApplyArgs)
| EndApplyInst (token : SILValue)
| AbortApplyInst (token : SILValue)
| YieldInst (args : ApplyArgs)
| OpenExistentialAddrInst (operand : SILValue) (immutableAccess : bool)
| UncheckedTakeEnumDataAddrInst (operand : SILValue) (operandIsOptional : bool)
| StructElementAddrInst (operand : SILValue)
| TupleElementAddrInst (operand : SILValue)
| UncheckedAddrCastInst (operand : SILValue)
| FixLifetimeInst (operand : SILValue)
| BranchInst (args : list SILValue)
| CopyValueInst (operand : SILValue)
| DestroyValueInst (operand : SILValue)
| OtherInst (isTerminator : bool) (operands typeDependentOperands : list SILValue).

Record SILInstruction := mkInst { instId : InstId; instKind : SILInstructionKind }.

Definition SILBasicBlock := list SILInstruction.

Record SILFunction := mkFunction {
  hasOwnership : bool;
  blocks : list SILBasicBlock
}.

(* ----------------------------------------------------------------- *)
(** *** Decidable equalities *)

Definition OwnershipKind_eqb (a b : OwnershipKind) : bool :=
  match a, b with
  | OwnershipNone, OwnershipNone | Unowned, Unowned
  | Owned, Owned | Guaranteed, Guaranteed => true
  | _, _ => false
  end.

Definition SILValue_eqb (a b : SILValue) : bool :=
  match a, b with
  | FunctionArgument i o, FunctionArgument j p => (i =? j) && OwnershipKind_eqb o p
  | InstResult i, InstResult j => i =? j
  | TokenResult i, TokenResult j => i =? j
  | _, _ => false
  end.

Definition SILAccessKind_eqb (a b : SILAccessKind) : bool :=
  match a, b with
  | AccessInit, AccessInit | AccessRead, AccessRead
  | AccessModify, AccessModify | AccessDeinit, AccessDeinit => true
  | _, _ => false
  end.

Definition LoadQualifier_eqb (a b : LoadOwnershipQualifier) : bool :=
  match a, b with
  | LoadUnqualified, LoadUnqualified | LoadTake, LoadTake
  | LoadCopy, LoadCopy | LoadTrivial, LoadTrivial => true
  | _, _ => false
  end.

Definition StoreQualifier_eqb (a b : StoreOwnershipQualifier) : bool :=
  match a, b with
  | StoreUnqualified, StoreUnqualified | StoreInit, StoreInit
  | StoreAssign, StoreAssign | StoreTrivial, StoreTrivial => true
  | _, _ => false
  end.

(* ----------------------------------------------------------------- *)
(** *** Kind tests ([isa<...>]) *)

Definition isDeallocStack (i : SILInstruction) : bool :=
  match instKind i with DeallocStackInst _ => true | _ => false end.
Definition isDestroyAddr (i : SILInstruction) : bool :=
  match instKind i with DestroyAddrInst _ => true | _ => false end.
Definition isEndAccess (i : SILInstruction) : bool :=
  match instKind i with EndAccessInst _ => true | _ => false end.
Definition isEndBorrow (i : SILInstruction) : bool :=
  match instKind i with EndBorrowInst _ => true | _ => false end.
Definition isBeginAccess (i : SILInstruction) : bool :=
  match instKind i with BeginAccessInst _ _ => true | _ => false end.
Definition isBeginUnpairedAccess (i : SILInstruction) : bool :=
  match instKind i with BeginUnpairedAccessInst _ _ => true | _ => false end.
Definition isYield (i : SILInstruction) : bool :=
  match instKind i with YieldInst _ => true | _ => false end.

(** [FullApplySite::isa]: apply, try_apply and begin_apply. *)
Definition isFullApplySite (i : SILInstruction) : bool :=
  match instKind i with
  | ApplyInst _ | TryApplyInst _ | BeginApplyInst _ => true
  | _ => false
  end.

(** [isa<TermInst>]. *)
Definition isTermInst (i : SILInstruction) : bool :=
  match instKind i with
  | TryApplyInst _ | YieldInst _ | BranchInst _ => true
  | OtherInst t _ _ => t
  | _ => false
  end.

(* ----------------------------------------------------------------- *)
(** *** Operands *)

Definition getAllOperands (k : SILInstructionKind) : list SILValue :=
  match k with
  | AllocStackInst _ _ => []
  | DeallocStackInst v | DestroyAddrInst v | LoadInst v _ | LoadBorrowInst v
  | EndBorrowInst v | BeginAccessInst v _ | EndAccessInst v
  | EndApplyInst v | AbortApplyInst v
  | OpenExistentialAddrInst v _ | UncheckedTakeEnumDataAddrInst v _
  | StructElementAddrInst v | TupleElementAddrInst v | UncheckedAddrCastInst v
  | FixLifetimeInst v | CopyValueInst v | DestroyValueInst v => [v]
  | CopyAddrInst s d _ _ | StoreInst s d _ | BeginUnpairedAccessInst s d
  | MarkDependenceInst s d _ => [s; d]
  | ApplyInst a | TryApplyInst a | BeginApplyInst a | PartialApplyInst _ a
  | YieldInst a => map fst a
  | BranchInst a => a
  | OtherInst _ ops tys => ops ++ tys
  end.

Fixpoint mapArgsFrom (n : nat) (g : nat -> SILValue -> SILValue) (a : ApplyArgs)
  : ApplyArgs :=
  match a with
  | [] => []
  | (v, c) :: rest => (g n v, c) :: mapArgsFrom (S n) g rest
  end.

Fixpoint mapValuesFrom (n : nat) (g : nat -> SILValue -> SILValue)
  (a : list SILValue) : list SILValue :=
  match a with
  | [] => []
  | v :: rest => g n v :: mapValuesFrom (S n) g rest
  end.

(** Rewrites every operand, given its index: the common shape of
    [Operand::set] and [replaceAllUsesWith]. *)
Definition mapOperands (g : nat -> SILValue -> SILValue) (k : SILInstructionKind)
  : SILInstructionKind :=
  match k with
  | AllocStackInst l d => AllocStackInst l d
  | DeallocStackInst v => DeallocStackInst (g 0 v)
  | DestroyAddrInst v => DestroyAddrInst (g 0 v)
  | CopyAddrInst s d t i => CopyAddrInst (g 0 s) (g 1 d) t i
  | StoreInst s d q => StoreInst (g 0 s) (g 1 d) q
  | LoadInst v q => LoadInst (g 0 v) q
  | LoadBorrowInst v => LoadBorrowInst (g 0 v)
  | EndBorrowInst v => EndBorrowInst (g 0 v)
  | BeginAccessInst v a => BeginAccessInst (g 0 v) a
  | EndAccessInst v => EndAccessInst (g 0 v)
  | BeginUnpairedAccessInst s b => BeginUnpairedAccessInst (g 0 s) (g 1 b)
  | MarkDependenceInst v b dk => MarkDependenceInst (g 0 v) (g 1 b) dk
  | ApplyInst a => ApplyInst (mapArgsFrom 0 g a)
  | TryApplyInst a => TryApplyInst (mapArgsFrom 0 g a)
  | BeginApplyInst a => BeginApplyInst (mapArgsFrom 0 g a)
  | PartialApplyInst s a => PartialApplyInst s (mapArgsFrom 0 g a)
  | EndApplyInst v => EndApplyInst (g 0 v)
  | AbortApplyInst v => AbortApplyInst (g 0 v)
  | YieldInst a => YieldInst (mapArgsFrom 0 g a)
  | OpenExistentialAddrInst v i => OpenExistentialAddrInst (g 0 v) i
  | UncheckedTakeEnumDataAddrInst v o => UncheckedTakeEnumDataAddrInst (g 0 v) o
  | StructElementAddrInst v => StructElementAddrInst (g 0 v)
  | TupleElementAddrInst v => TupleElementAddrInst (g 0 v)
  | UncheckedAddrCastInst v => UncheckedAddrCastInst (g 0 v)
  | FixLifetimeInst v => FixLifetimeInst (g 0 v)
  | BranchInst a => BranchInst (mapValuesFrom 0 g a)
  | CopyValueInst v => CopyValueInst (g 0 v)
  | DestroyValueInst v => DestroyValueInst (g 0 v)
  | OtherInst t ops tys =>
      OtherInst t (mapValuesFrom 0 g ops) (mapValuesFrom (length ops) g tys)
  end.

(** [use->set(v)] on operand number [idx]. *)
Definition setOperand (idx : nat) (v : SILValue) (k : SILInstructionKind) :=
  mapOperands (fun n old => if n =? idx then v else old) k.

(** [replaceAllUsesWith] restricted to one instruction. *)
Definition substValue (old new : SILValue) (k : SILInstructionKind) :=
  mapOperands (fun _ v => if SILValue_eqb v old then new else v) k.

(** An operand: the using instruction, the block it sits in, the operand
    number and the value used ([Operand::get]). *)
Record Operand := mkOperand {
  opBlock : nat;
  opUser : SILInstruction;
  opIndex : nat;
  opValue : SILValue
}.

Definition isTypeDependentOperand (o : Operand) : bool :=
  match instKind (opUser o) with
  | OtherInst _ ops _ => length ops <=? opIndex o
  | _ => false
  end.

Fixpoint operandsFrom (n : nat) (b : nat) (i : SILInstruction) (v : SILValue)
  (ops : list SILValue) : list Operand :=
  match ops with
  | [] => []
  | x :: rest =>
      (if SILValue_eqb x v then [mkOperand b i n v] else [])
        ++ operandsFrom (S n) b i v rest
  end.

Definition usesInInst (b : nat) (v : SILValue) (i : SILInstruction) : list Operand :=
  operandsFrom 0 b i v (getAllOperands (instKind i)).

Fixpoint usesInBlocks (b : nat) (v : SILValue) (bs : list SILBasicBlock)
  : list Operand :=
  match bs with
  | [] => []
  | blk :: rest => flat_map (usesInInst b v) blk ++ usesInBlocks (S b) v rest
  end.

(** [value->getUses()]: the use list, here in program order. *)
Definition getUses (f : SILFunction) (v : SILValue) : list Operand :=
  usesInBlocks 0 v (blocks f).

(* ----------------------------------------------------------------- *)
(** *** Positions and iteration *)

Fixpoint findInBlock (id : InstId) (blk : SILBasicBlock) : option SILInstruction :=
  match blk with
  | [] => None
  | i :: rest => if instId i =? id then Some i else findInBlock id rest
  end.

Fixpoint findInBlocks (b : nat) (id : InstId) (bs : list SILBasicBlock)
  : option (nat * SILInstruction) :=
  match bs with
  | [] => None
  | blk :: rest =>
      match findInBlock id blk with
      | Some i => Some (b, i)
      | None => findInBlocks (S b) id rest
      end
  end.

(** The instruction with a given identity, with its parent block. *)
Definition findInst (f : SILFunction) (id : InstId) : option (nat * SILInstruction) :=
  findInBlocks 0 id (blocks f).

Definition getBlock (f : SILFunction) (b : nat) : SILBasicBlock :=
  nth b (blocks f) [].

(** The instructions strictly after / strictly before [id] in a block. *)
Fixpoint afterIn (id : InstId) (blk : SILBasicBlock) : list SILInstruction :=
  match blk with
  | [] => []
  | i :: rest => if instId i =? id then rest else afterIn id rest
  end.

Fixpoint beforeIn (id : InstId) (blk : SILBasicBlock) : list SILInstruction :=
  match blk with
  | [] => []
  | i :: rest => if instId i =? id then [] else i :: beforeIn id rest
  end.

(** [std::next(inst->getIterator()) .. parent->end()]. *)
Definition instsAfter (f : SILFunction) (id : InstId) : list SILInstruction :=
  match findInst f id with
  | Some (b, _) => afterIn id (getBlock f b)
  | None => []
  end.

(** [parent->begin() .. inst->getIterator()]. *)
Definition instsBefore (f : SILFunction) (id : InstId) : list SILInstruction :=
  match findInst f id with
  | Some (b, _) => beforeIn id (getBlock f b)
  | None => []
  end.

(** [&*std::prev(pos)], or [None] at the head of the block. *)
Definition prevInst (f : SILFunction) (id : InstId) : option SILInstruction :=
  last (map Some (instsBefore f id)) None.

Definition nextInst (f : SILFunction) (id : InstId) : option SILInstruction :=
  hd_error (instsAfter f id).

Definition allInsts (f : SILFunction) : list SILInstruction := concat (blocks f).

(* ----------------------------------------------------------------- *)
(** *** Mutation primitives *)

(** Every edit of the instruction lists is an instruction-wise expansion. *)
Definition expandInsts (h : SILInstruction -> list SILInstruction) (f : SILFunction)
  : SILFunction :=
  mkFunction (hasOwnership f) (map (flat_map h) (blocks f)).

(** [inst->eraseFromParent()]. *)
Definition eraseFromParent (id : InstId) : SILFunction -> SILFunction :=
  expandInsts (fun i => if instId i =? id then [] else [i]).

Definition updateInst (id : InstId) (g : SILInstructionKind -> SILInstructionKind)
  : SILFunction -> SILFunction :=
  expandInsts (fun i => if instId i =? id then [mkInst (instId i) (g (instKind i))] else [i]).

(** Modelled from the spec: the builder helper is not part of this file;
    the new instruction is placed "immediately after" the given one. *)
Definition insertAfter (pos : InstId) (new : SILInstruction) : SILFunction -> SILFunction :=
  expandInsts (fun i => if instId i =? pos then [i; new] else [i]).

(** A builder positioned at an instruction inserts before it. *)
Definition insertBefore (pos : InstId) (new : SILInstruction) : SILFunction -> SILFunction :=
  expandInsts (fun i => if instId i =? pos then [new; i] else [i]).

(** Modelled from the spec: [moveAfter] unlinks the instruction and puts it
    "immediately after" the position; moving after itself changes nothing. *)
Definition moveAfter (moved : SILInstruction) (pos : InstId) (f : SILFunction)
  : SILFunction :=
  if instId moved =? pos then f
  else insertAfter pos moved (eraseFromParent (instId moved) f).

(** [value->replaceAllUsesWith(new)]. *)
Definition replaceAllUsesWith (old new : SILValue) : SILFunction -> SILFunction :=
  expandInsts (fun i => [mkInst (instId i) (substValue old new (instKind i))]).

(** An identity no instruction of the function has yet. *)
Definition freshId (f : SILFunction) : InstId :=
  S (fold_right Nat.max 0 (map instId (allInsts f))).

(* ----------------------------------------------------------------- *)
(** *** Instruction sets ([InstructionSet], [InstructionSetWithSize]) *)

Definition InstructionSet := list InstId.

Definition contains (s : InstructionSet) (i : SILInstruction) : bool :=
  existsb (Nat.eqb (instId i)) s.

Definition insert (i : SILInstruction) (s : InstructionSet) : InstructionSet :=
  if contains s i then s else instId i :: s.

Definition size (s : InstructionSet) : nat := length s.

Definition empty (s : InstructionSet) : bool :=
  match s with [] => true | _ => false end.

(* ================================================================= *)
(** ** External collaborators *)

(** The alias oracle: only its two queries are used. *)
Record AliasAnalysis := mkAA {
  mayWriteToMemory : SILInstruction -> SILValue -> bool;
  isNoAlias : SILValue -> SILValue -> bool
}.

(** A [CopyAddrInst *]: what the pass reads through the pointer. *)
Record CopyAddr := mkCopyAddr {
  caInst : SILInstruction;
  caParent : nat;
  caSrc : SILValue;
  caDest : SILValue;
  caIsTakeOfSrc : bool;
  caIsInitializationOfDest : bool
}.

(** [dyn_cast<CopyAddrInst>] of the instruction with identity [id]. *)
Definition asCopyAddr (f : SILFunction) (id : InstId) : option CopyAddr :=
  match findInst f id with
  | Some (b, i) =>
      match instKind i with
      | CopyAddrInst s d t ini => Some (mkCopyAddr i b s d t ini)
      | _ => None
      end
  | None => None
  end.

(** [dyn_cast<AllocStackInst>(value)]: the defining alloc_stack. *)
Definition asAllocStack (f : SILFunction) (v : SILValue)
  : option (SILInstruction * bool * bool) :=
  match v with
  | InstResult a =>
      match findInst f a with
      | Some (_, i) =>
          match instKind i with
          | AllocStackInst lex dyn => Some (i, lex, dyn)
          | _ => None
          end
      | None => None
      end
  | _ => None
  end.

(** [endAccess->getBeginAccess()]: source and kind of the begin_access an
    end_access closes. *)
Definition getBeginAccess (f : SILFunction) (endAccess : SILInstruction)
  : option (SILValue * SILAccessKind) :=
  match instKind endAccess with
  | EndAccessInst (InstResult b) =>
      match findInst f b with
      | Some (_, i) =>
          match instKind i with
          | BeginAccessInst s k => Some (s, k)
          | _ => None
          end
      | None => None
      end
  | _ => None
  end.

(* ================================================================= *)
(** ** 4.1 Use collector *)

(** Result of a (fuelled) collector call: [None] when the fuel ran out,
    otherwise the C++ return value and the updated load set. *)
Definition Collected := option (bool * InstructionSet).

(** [for (auto *use : uses) if (!visit(use)) return false; return true;] *)
Fixpoint forEachUse (visit : Operand -> InstructionSet -> Collected)
  (uses : list Operand) (loadInsts : InstructionSet) : Collected :=
  match uses with
  | [] => Some (true, loadInsts)
  | u :: rest =>
      match visit u loadInsts with
      | None => None
      | Some (false, l) => Some (false, l)
      | Some (true, l) => forEachUse visit rest l
      end
  end.

(** The loop over the end_access instructions of a begin_access, over the
    token uses of a begin_apply and the end_borrow arm of the load_borrow
    visitor: each must sit in [block], and is recorded. *)
Definition recordInBlock (block : nat) (o : Operand) (loadInsts : InstructionSet)
  : Collected :=
  if negb (opBlock o =? block) then Some (false, loadInsts)
  else Some (true, insert (opUser o) loadInsts).

(** [beginAccess->getEndAccesses()]. *)
Definition getEndAccesses (f : SILFunction) (beginAccess : SILInstruction)
  : list Operand :=
  filter (fun o => isEndAccess (opUser o))
         (getUses f (InstResult (instId beginAccess))).

(** Modelled from the spec: [BorrowedValue::visitLocalScopeEndingUses] is
    not part of this file; the scope-ending uses of a load_borrow are its
    end_borrows and the branches that re-borrow it. *)
Definition localScopeEndingUses (f : SILFunction) (borrow : SILInstruction)
  : list Operand :=
  filter (fun o => isEndBorrow (opUser o)
                   || match instKind (opUser o) with BranchInst _ => true | _ => false end)
         (getUses f (InstResult (instId borrow))).

(** The [visitEndScope] lambda. *)
Definition visitEndScope (block : nat) (op : Operand) (loadInsts : InstructionSet)
  : Collected :=
  if isEndBorrow (opUser op) then recordInBlock block op loadInsts
  else Some (false, loadInsts).

Definition argumentConvention (args : ApplyArgs) (o : Operand) : bool :=
  match nth_error args (opIndex o) with
  | Some (_, c) => isGuaranteed c
  | None => false
  end.

(** The shared arm of partial_apply, apply, try_apply and begin_apply. *)
Definition collectApply (f : SILFunction) (block : nat) (addressUse : Operand)
  (args : ApplyArgs) (isBeginApply : bool) (loadInsts : InstructionSet) : Collected :=
  let user := opUser addressUse in
  if negb (argumentConvention args addressUse) then Some (false, loadInsts)
  else
    let loadInsts := insert user loadInsts in
    if isBeginApply
    then forEachUse (recordInBlock block) (getUses f (TokenResult (instId user))) loadInsts
    else Some (true, loadInsts).

(** [collectLoadsFromProjection], open in the recursive call. *)
Definition collectLoadsFromProjectionWith
  (collect : Operand -> InstructionSet -> Collected)
  (f : SILFunction) (projection : SILInstruction) (loadInsts : InstructionSet)
  : Collected :=
  forEachUse collect
    (filter (fun o => negb (isTypeDependentOperand o))
            (getUses f (InstResult (instId projection))))
    loadInsts.

Fixpoint collectLoads (fuel : nat) (f : SILFunction) (originalCopy : CopyAddr)
  (addressUse : Operand) (loadInsts : InstructionSet) {struct fuel} : Collected :=
  match fuel with
  | O => None
  | S fuel' =>
    let user := opUser addressUse in
    let address := opValue addressUse in
    let block := caParent originalCopy in
    if negb (opBlock addressUse =? block) then Some (false, loadInsts)
    else
      match instKind user with
      | BeginAccessInst _ kind =>
          if negb (SILAccessKind_eqb kind AccessRead) then Some (false, loadInsts)
          else forEachUse (recordInBlock block) (getEndAccesses f user) loadInsts
      | MarkDependenceInst _ base _ =>
          if SILValue_eqb base address then Some (true, loadInsts)
          else forEachUse (collectLoads fuel' f originalCopy)
                          (getUses f (InstResult (instId user))) loadInsts
      | PartialApplyInst onStack args =>
          if negb onStack then Some (false, loadInsts)
          else collectApply f block addressUse args false loadInsts
      | ApplyInst args | TryApplyInst args =>
          collectApply f block addressUse args false loadInsts
      | BeginApplyInst args =>
          collectApply f block addressUse args true loadInsts
      | YieldInst args =>
          if negb (argumentConvention args addressUse) then Some (false, loadInsts)
          else Some (true, insert user loadInsts)
      | OpenExistentialAddrInst _ immutable =>
          if negb immutable then Some (false, loadInsts)
          else collectLoadsFromProjectionWith (collectLoads fuel' f originalCopy)
                                              f user loadInsts
      | UncheckedTakeEnumDataAddrInst _ isOptional =>
          if negb isOptional then Some (false, loadInsts)
          else collectLoadsFromProjectionWith (collectLoads fuel' f originalCopy)
                                              f user loadInsts
      | StructElementAddrInst _ | TupleElementAddrInst _ | UncheckedAddrCastInst _ =>
          collectLoadsFromProjectionWith (collectLoads fuel' f originalCopy)
                                         f user loadInsts
      | LoadInst _ qualifier =>
          if LoadQualifier_eqb qualifier LoadTake
             && negb (SILValue_eqb address (caDest originalCopy))
          then Some (false, loadInsts)
          else Some (true, insert user loadInsts)
      | LoadBorrowInst _ =>
          forEachUse (visitEndScope block) (localScopeEndingUses f user)
                     (insert user loadInsts)
      | FixLifetimeInst _ => Some (true, insert user loadInsts)
      | CopyAddrInst _ dest isTake _ =>
          if SILValue_eqb dest address then Some (false, loadInsts)
          else if isTake && negb (SILValue_eqb address (caDest originalCopy))
          then Some (false, loadInsts)
          else Some (true, insert user loadInsts)
      | _ => Some (false, loadInsts)
      end
  end.

Definition collectLoadsFromProjection (fuel : nat) (f : SILFunction)
  (projection : SILInstruction) (originalCopy : CopyAddr)
  (loadInsts : InstructionSet) : Collected :=
  collectLoadsFromProjectionWith (collectLoads fuel f originalCopy) f projection loadInsts.

(* ================================================================= *)
(** ** 4.2 Modification checker *)

(** The [for] loop of [getLastUseWhileSourceIsNotModified]; [None] is the
    null pointer. *)
Fixpoint lastUseLoop (aa : AliasAnalysis) (copySrc : SILValue)
  (useInsts : InstructionSet) (numLoadsFound : nat) (insts : list SILInstruction)
  : option SILInstruction :=
  match insts with
  | [] => None
  | inst :: rest =>
      let numLoadsFound :=
        if contains useInsts inst then S numLoadsFound else numLoadsFound in
      if numLoadsFound =? size useInsts then
        if (isFullApplySite inst || isYield inst) && mayWriteToMemory aa inst copySrc
        then None
        else Some inst
      else if mayWriteToMemory aa inst copySrc then None
      else lastUseLoop aa copySrc useInsts numLoadsFound rest
  end.

Definition getLastUseWhileSourceIsNotModified (f : SILFunction)
  (copyInst : CopyAddr) (useInsts : InstructionSet) (aa : AliasAnalysis)
  : option SILInstruction :=
  if empty useInsts then Some (caInst copyInst)
  else lastUseLoop aa (caSrc copyInst) useInsts 0
                   (instsAfter f (instId (caInst copyInst))).

(* ================================================================= *)
(** ** 4.3 Scope extender *)

(** [make_range(std::next(copyInst), std::next(lastUseInst))]. *)
Fixpoint throughIn (id : InstId) (l : list SILInstruction) : list SILInstruction :=
  match l with
  | [] => []
  | i :: rest => if instId i =? id then [i] else i :: throughIn id rest
  end.

Definition scopeRange (f : SILFunction) (copyInst : CopyAddr)
  (lastUseInst : SILInstruction) : list SILInstruction :=
  if instId lastUseInst =? instId (caInst copyInst) then []
  else throughIn (instId lastUseInst) (instsAfter f (instId (caInst copyInst))).

(** The loop of [extendAccessScopes].  The state is [endAccessToMove] (with
    the source of its begin_access); [None] is [return false]. *)
Fixpoint extendLoop (f : SILFunction) (aa : AliasAnalysis) (copySrc : SILValue)
  (lastUseInst : SILInstruction) (insts : list SILInstruction)
  (endAccessToMove : option (SILInstruction * SILValue))
  : option (option (SILInstruction * SILValue)) :=
  match insts with
  | [] => Some endAccessToMove
  | inst :: rest =>
      if isEndAccess inst then
        match endAccessToMove with
        | Some _ => None
        | None =>
            match getBeginAccess f inst with
            | Some (source, kind) =>
                if negb (isNoAlias aa copySrc source)
                   && SILAccessKind_eqb kind AccessRead
                then
                  if isTermInst lastUseInst then None
                  else extendLoop f aa copySrc lastUseInst rest (Some (inst, source))
                else extendLoop f aa copySrc lastUseInst rest None
            | None => extendLoop f aa copySrc lastUseInst rest None
            end
        end
      else
        match endAccessToMove with
        | Some (_, source) =>
            if isBeginAccess inst || isBeginUnpairedAccess inst then None
            else if mayWriteToMemory aa inst source then None
            else extendLoop f aa copySrc lastUseInst rest endAccessToMove
        | None => extendLoop f aa copySrc lastUseInst rest None
        end
  end.

(** Returns the C++ result together with the function as it is afterwards. *)
Definition extendAccessScopes (copyInst : CopyAddr) (lastUseInst : SILInstruction)
  (aa : AliasAnalysis) (f : SILFunction) : bool * SILFunction :=
  match extendLoop f aa (caSrc copyInst) lastUseInst
                   (scopeRange f copyInst lastUseInst) None with
  | None => (false, f)
  | Some None => (true, f)
  | Some (Some (endAccessToMove, _)) =>
      (true, moveAfter endAccessToMove (instId lastUseInst) f)
  end.

(* ================================================================= *)
(** ** 4.4 Destroy-pattern validator *)

(** [ValueLifetimeAnalysis(def, users).computeFrontier(.., DontModifyCFG)]
    is an external utility: [None] when it fails, else the frontier
    instructions. *)
Definition FrontierOracle :=
  SILFunction -> SILInstruction -> list SILInstruction -> option (list InstId).

(** The users handed to the lifetime analysis. *)
Definition tempUsers (f : SILFunction) (tempObj : SILInstruction)
  (copyInst : CopyAddr) : list SILInstruction :=
  map opUser
    (filter (fun o => negb (instId (opUser o) =? instId (caInst copyInst))
                      && negb (isDeallocStack (opUser o)))
            (getUses f (InstResult (instId tempObj)))).

(** The body of the loop over the frontier: [true] is [continue]. *)
Definition isKnownDestroyPoint (f : SILFunction) (frontierInst : InstId) : bool :=
  match prevInst f frontierInst with
  | None => false
  | Some lastUser =>
      if isDestroyAddr lastUser then true
      else match instKind lastUser with
           | CopyAddrInst _ _ isTake _ => isTake
           | _ => false
           end
  end.

Definition checkTempObjectDestroy (computeFrontier : FrontierOracle)
  (f : SILFunction) (tempObj : SILInstruction) (copyInst : CopyAddr) : bool :=
  match computeFrontier f (caInst copyInst) (tempUsers f tempObj copyInst) with
  | None => false
  | Some tempAddressFrontier => forallb (isKnownDestroyPoint f) tempAddressFrontier
  end.

(* ================================================================= *)
(** ** The rewriting monad

    A rewriter is a [void] C++ function that mutates the function in place
    and may [return] early.  [None] means it produces no result at all (a
    loop that does not end). *)

Inductive Flow (A : Type) :=
| Continue (a : A)
| Returned.
Arguments Continue {A} a.
Arguments Returned {A}.

Definition Pass (A : Type) := SILFunction -> option (Flow A * SILFunction).

Definition ret {A} (a : A) : Pass A := fun f => Some (Continue a, f).

Definition bind {A B} (m : Pass A) (k : A -> Pass B) : Pass B :=
  fun f =>
    match m f with
    | None => None
    | Some (Returned, f') => Some (Returned, f')
    | Some (Continue a, f') => k a f'
    end.

Declare Scope pass_scope.
Delimit Scope pass_scope with pass.
Notation "x <- m ;; k" := (bind m (fun x => k))
  (at level 61, m at next level, right associativity) : pass_scope.
Notation "m ;;; k" := (bind m (fun _ => k))
  (at level 61, right associativity) : pass_scope.

(** [return;] *)
Definition returnVoid {A} : Pass A := fun f => Some (Returned, f).
Definition getFunction : Pass SILFunction := fun f => Some (Continue f, f).
Definition modify (g : SILFunction -> SILFunction) : Pass unit :=
  fun f => Some (Continue tt, g f).
(** [if (c) return;] *)
Definition returnIf (c : bool) : Pass unit := if c then returnVoid else ret tt.
(** [if (!p) return;] for a pointer [p]. *)
Definition orReturn {A} (o : option A) : Pass A :=
  match o with Some a => ret a | None => returnVoid end.
Definition noResult {A} : Pass A := fun _ => None.

(** The function a rewriter leaves behind. *)
Definition execPass {A} (m : Pass A) (f : SILFunction) : option SILFunction :=
  option_map snd (m f).

(* ================================================================= *)
(** ** 4.5 Copy rewriter *)

Local Open Scope pass_scope.

(** [AccessStorageWithBase::compute(address).base], an external analysis. *)
Definition AccessBaseOracle := SILFunction -> SILValue -> option SILValue.

(** The lexical guard: [true] when the rewriter returns. *)
Definition lexicalGuardFails (accessBase : AccessBaseOracle) (f : SILFunction)
  (isLexical : bool) (copySrc : SILValue) : bool :=
  if isLexical then
    match accessBase f copySrc with
    | None => true
    | Some (FunctionArgument _ ownership) =>
        negb (OwnershipKind_eqb ownership Guaranteed)
    | Some _ => false
    end
  else false.

(** The loop over [tempObj->getUses()].  Outer [None]: no result; inner
    [None]: the rewriter returns; otherwise [loadInsts] and [userSet]. *)
Fixpoint scanTempUses (fuel : nat) (f : SILFunction) (copyInst : CopyAddr)
  (isOSSA needFinalDeinit : bool) (uses : list Operand)
  (loadInsts userSet : InstructionSet)
  : option (option (InstructionSet * InstructionSet)) :=
  match uses with
  | [] => Some (Some (loadInsts, userSet))
  | useOper :: rest =>
      let user := opUser useOper in
      let userSet := insert user userSet in
      if instId user =? instId (caInst copyInst) then
        scanTempUses fuel f copyInst isOSSA needFinalDeinit rest loadInsts userSet
      else if isDeallocStack user then
        scanTempUses fuel f copyInst isOSSA needFinalDeinit rest loadInsts userSet
      else if isDestroyAddr user then
        if negb isOSSA && needFinalDeinit then
          if negb (opBlock useOper =? caParent copyInst) then Some None
          else scanTempUses fuel f copyInst isOSSA needFinalDeinit rest
                            (insert user loadInsts) userSet
        else scanTempUses fuel f copyInst isOSSA needFinalDeinit rest loadInsts userSet
      else
        match collectLoads fuel f copyInst useOper loadInsts with
        | None => None
        | Some (false, _) => Some None
        | Some (true, loadInsts) =>
            scanTempUses fuel f copyInst isOSSA needFinalDeinit rest loadInsts userSet
        end
  end.

(** The def-use chains followed by [collectLoads] are no longer than the
    number of instructions. *)
Definition collectFuel (f : SILFunction) : nat := S (length (allInsts f)).

(** The ordering check: a user of the temporary precedes the copy. *)
Definition userPrecedesCopy (f : SILFunction) (copyInst : CopyAddr)
  (userSet : InstructionSet) : bool :=
  existsb (contains userSet) (instsBefore f (instId (caInst copyInst))).

(** The re-initialization guard. *)
Definition reinitGuardFails (aa : AliasAnalysis) (needFinalDeinit : bool)
  (copyInst : CopyAddr) (lastLoadInst : SILInstruction) : bool :=
  needFinalDeinit
  && negb (instId lastLoadInst =? instId (caInst copyInst))
  && negb (isDestroyAddr lastLoadInst)
  && mayWriteToMemory aa lastLoadInst (caSrc copyInst).

(** The [needToInsertDestroy] lambda. *)
Definition needToInsertDestroy (needFinalDeinit : bool) (copyInst : CopyAddr)
  (tempObj : SILValue) (lastLoadInst : SILInstruction) : bool :=
  if negb needFinalDeinit then false
  else if instId lastLoadInst =? instId (caInst copyInst) then true
  else
    match instKind lastLoadInst with
    | CopyAddrInst src _ isTake _ =>
        if SILValue_eqb src tempObj && isTake then false else true
    | LoadInst operand qualifier =>
        if SILValue_eqb operand tempObj && LoadQualifier_eqb qualifier LoadTake
        then false else true
    | _ => true
    end.

Definition setIsTakeOfSrc (t : bool) (k : SILInstructionKind) : SILInstructionKind :=
  match k with
  | CopyAddrInst s d _ i => CopyAddrInst s d t i
  | _ => k
  end.

Definition setOwnershipQualifier (q : LoadOwnershipQualifier)
  (k : SILInstructionKind) : SILInstructionKind :=
  match k with
  | LoadInst v _ => LoadInst v q
  | _ => k
  end.

(** One iteration of [while (!tempObj->use_empty())] on the first use. *)
Definition replaceUse (copyInst : CopyAddr) (needFinalDeinit : bool)
  (lastLoadInst : SILInstruction) (copySrc : SILValue) (use : Operand)
  (f : SILFunction) : SILFunction :=
  let user := opUser use in
  match instKind user with
  | DestroyAddrInst _ | DeallocStackInst _ => eraseFromParent (instId user) f
  | CopyAddrInst _ _ isTake _ =>
      let f :=
        if negb (instId user =? instId (caInst copyInst))
           && (isTake && (negb needFinalDeinit
                          || negb (instId lastLoadInst =? instId user)))
        then updateInst (instId user) (setIsTakeOfSrc false) f
        else f in
      updateInst (instId user) (setOperand (opIndex use) copySrc) f
  | LoadInst _ qualifier =>
      let f :=
        if LoadQualifier_eqb qualifier LoadTake
           && (negb needFinalDeinit || negb (instId user =? instId lastLoadInst))
        then updateInst (instId user) (setOwnershipQualifier LoadCopy) f
        else f in
      updateInst (instId user) (setOperand (opIndex use) copySrc) f
  | _ => updateInst (instId user) (setOperand (opIndex use) copySrc) f
  end.

Fixpoint replaceUsesLoop (fuel : nat) (copyInst : CopyAddr) (needFinalDeinit : bool)
  (lastLoadInst : SILInstruction) (copySrc tempObj : SILValue) (f : SILFunction)
  : option SILFunction :=
  match getUses f tempObj with
  | [] => Some f
  | use :: _ =>
      match fuel with
      | O => None
      | S fuel' =>
          replaceUsesLoop fuel' copyInst needFinalDeinit lastLoadInst copySrc tempObj
            (replaceUse copyInst needFinalDeinit lastLoadInst copySrc use f)
      end
  end.

(** The commit: everything after "Success: replace temp". *)
Definition commitCopy (copyInst : CopyAddr) (tempObj : SILInstruction)
  (needFinalDeinit : bool) (lastLoadInst : SILInstruction) : Pass unit :=
  let copySrc := caSrc copyInst in
  let temp := InstResult (instId tempObj) in
  (if needToInsertDestroy needFinalDeinit copyInst temp lastLoadInst
   then f <- getFunction ;;
        modify (insertAfter (instId lastLoadInst)
                            (mkInst (freshId f) (DestroyAddrInst copySrc)))
   else ret tt) ;;;
  f <- getFunction ;;
  match replaceUsesLoop (length (getUses f temp)) copyInst needFinalDeinit
                        lastLoadInst copySrc temp f with
  | None => noResult
  | Some f' => modify (fun _ => eraseFromParent (instId tempObj) f')
  end.

Definition tryOptimizeCopyIntoTemp (accessBase : AccessBaseOracle)
  (computeFrontier : FrontierOracle) (aa : AliasAnalysis) (copyId : InstId)
  : Pass unit :=
  f <- getFunction ;;
  copyInst <- orReturn (asCopyAddr f copyId) ;;
  returnIf (negb (caIsInitializationOfDest copyInst)) ;;;
  tempObj <- orReturn (asAllocStack f (caDest copyInst)) ;;
  let '(tempObj, isLexical, _) := tempObj in
  returnIf (lexicalGuardFails accessBase f isLexical (caSrc copyInst)) ;;;
  let isOSSA := hasOwnership f in
  let needFinalDeinit := caIsTakeOfSrc copyInst in
  match scanTempUses (collectFuel f) f copyInst isOSSA needFinalDeinit
                     (getUses f (InstResult (instId tempObj))) [] [] with
  | None => noResult
  | Some None => returnVoid
  | Some (Some (loadInsts, userSet)) =>
      returnIf (userPrecedesCopy f copyInst userSet) ;;;
      lastLoadInst <- orReturn (getLastUseWhileSourceIsNotModified f copyInst loadInsts aa) ;;
      returnIf (reinitGuardFails aa needFinalDeinit copyInst lastLoadInst) ;;;
      returnIf (negb isOSSA && negb (checkTempObjectDestroy computeFrontier f tempObj copyInst)) ;;;
      extended <- (fun f => Some (Continue (fst (extendAccessScopes copyInst lastLoadInst aa f)),
                                  snd (extendAccessScopes copyInst lastLoadInst aa f))) ;;
      returnIf (negb extended) ;;;
      commitCopy copyInst tempObj needFinalDeinit lastLoadInst
  end.

(* ================================================================= *)
(** ** 4.6 Store rewriter *)

(** A [StoreInst *]. *)
Definition asStore (f : SILFunction) (id : InstId)
  : option (SILValue * SILValue * StoreOwnershipQualifier) :=
  match findInst f id with
  | Some (_, i) =>
      match instKind i with
      | StoreInst s d q => Some (s, d, q)
      | _ => None
      end
  | None => None
  end.

(** An iterator: the instruction it points at, [None] at the block's end. *)
Definition Iterator := option InstId.

(** [std::next(inst->getIterator())]. *)
Definition nextIterator (f : SILFunction) (id : InstId) : Iterator :=
  option_map instId (nextInst f id).

(** The switch of the first loop: [false] is "bail". *)
Definition storeUserHandled (si : InstId) (tempObj : SILValue) (use : Operand) : bool :=
  let user := opUser use in
  if instId user =? si then true
  else
    match instKind user with
    | DestroyAddrInst _ | DeallocStackInst _ | LoadInst _ _ | FixLifetimeInst _ => true
    | CopyAddrInst _ dest _ _ => negb (SILValue_eqb dest tempObj)
    | MarkDependenceInst value _ _ => negb (SILValue_eqb value tempObj)
    | _ => false
    end.

(** Modelled from the spec: the builder helpers are not part of this file.
    [emitCopyValueOperation] "duplicates" the value with a copy_value placed
    at the builder's position and returns the copy. *)
Definition emitCopyValueOperation (pos : InstId) (v : SILValue) (f : SILFunction)
  : SILValue * SILFunction :=
  let id := freshId f in
  (InstResult id, insertBefore pos (mkInst id (CopyValueInst v)) f).

(** Modelled from the spec: destroys "become value-level releases". *)
Definition emitDestroyValueOperation (pos : InstId) (v : SILValue) (f : SILFunction)
  : SILFunction :=
  insertBefore pos (mkInst (freshId f) (DestroyValueInst v)) f.

(** Modelled from the spec: "a direct store/assign ... at the copy's
    destination". *)
Definition emitStoreValueOperation (pos : InstId) (v dest : SILValue)
  (q : StoreOwnershipQualifier) (f : SILFunction) : SILFunction :=
  insertBefore pos (mkInst (freshId f) (StoreInst v dest q)) f.

(** The body of the second loop for one use; the state is the function and
    [toDelete].  [None] is [llvm_unreachable]. *)
Definition rewriteStoreUse (si : InstId) (src : SILValue)
  (st : SILFunction * list InstId) (use : Operand)
  : option (SILFunction * list InstId) :=
  let '(f, toDelete) := st in
  let userId := instId (opUser use) in
  if userId =? si then Some (f, toDelete)
  else
    match findInst f userId with
    | None => None
    | Some (_, user) =>
        match instKind user with
        | DestroyAddrInst _ =>
            Some (emitDestroyValueOperation userId src f, toDelete ++ [userId])
        | DeallocStackInst _ => Some (f, toDelete ++ [userId])
        | CopyAddrInst _ dest isTake isInit =>
            let qualifier := if isInit then StoreInit else StoreAssign in
            let '(src', f) :=
              if negb isTake then emitCopyValueOperation userId src f else (src, f) in
            Some (emitStoreValueOperation userId src' dest qualifier f,
                  toDelete ++ [userId])
        | LoadInst _ qualifier =>
            let '(srcObject, f) :=
              if LoadQualifier_eqb qualifier LoadCopy
              then emitCopyValueOperation userId src f else (src, f) in
            Some (replaceAllUsesWith (InstResult userId) srcObject f,
                  toDelete ++ [userId])
        | FixLifetimeInst _ =>
            Some (insertBefore userId (mkInst (freshId f) (FixLifetimeInst src)) f,
                  toDelete ++ [userId])
        | MarkDependenceInst value _ dependenceKind =>
            let id := freshId f in
            let f := insertBefore userId
                       (mkInst id (MarkDependenceInst value src dependenceKind)) f in
            Some (replaceAllUsesWith (InstResult userId) (InstResult id) f,
                  toDelete ++ [userId])
        | _ => None
        end
    end.

Fixpoint rewriteStoreUses (si : InstId) (src : SILValue) (uses : list Operand)
  (st : SILFunction * list InstId) : option (SILFunction * list InstId) :=
  match uses with
  | [] => Some st
  | use :: rest =>
      match rewriteStoreUse si src st use with
      | None => None
      | Some st' => rewriteStoreUses si src rest st'
      end
  end.

(** [while (!toDelete.empty()) toDelete.pop_back_val()->eraseFromParent()]. *)
Definition eraseAll (toDelete : list InstId) (f : SILFunction) : SILFunction :=
  fold_left (fun f id => eraseFromParent id f) (rev toDelete) f.

(** Returns the iterator to continue from and the function afterwards;
    [None] when the unreachable default clause is hit. *)
Definition tryOptimizeStoreIntoTemp (si : InstId) (f : SILFunction)
  : option (Iterator * SILFunction) :=
  let bail := Some (nextIterator f si, f) in
  match asStore f si with
  | None => bail
  | Some (src, dest, qualifier) =>
      if StoreQualifier_eqb qualifier StoreAssign then bail
      else
        match asAllocStack f dest with
        | None => bail
        | Some (tempObj, isLexical, hasDynamicLifetime) =>
            if isLexical then bail
            else if hasDynamicLifetime then bail
            else
              let temp := InstResult (instId tempObj) in
              let uses := getUses f temp in
              if negb (forallb (storeUserHandled si temp) uses) then bail
              else
                match rewriteStoreUses si src uses (f, []) with
                | None => None
                | Some (f, toDelete) =>
                    let f := eraseAll toDelete f in
                    let nextIter := nextIterator f si in
                    Some (nextIter,
                          eraseFromParent (instId tempObj) (eraseFromParent si f))
                end
        end
  end.

(* ================================================================= *)
(** ** 4.7 Pass driver *)

(** The utilities and analyses the driver is given. *)
Record Collaborators := mkCollaborators {
  accessBase : AccessBaseOracle;
  computeFrontier : FrontierOracle;
  aliasAnalysis : AliasAnalysis;
  isOrHasEnum : SILValue -> bool;
  (** [simplifyAndReplaceAllSimplifiedUsesAndErase(srcInst, ..)] *)
  simplifyAndErase : InstId -> SILFunction -> SILFunction;
  (** [completion.completeOSSALifetime(value, Liveness)] *)
  completeOSSALifetime : SILValue -> SILFunction -> SILFunction
}.

Record ScanState := mkScan {
  scanFn : SILFunction;
  deadCopies : list InstId;
  valuesToComplete : list SILValue
}.

(** [llvm::SmallSetVector::insert]. *)
Definition setVectorInsert (id : InstId) (s : list InstId) : list InstId :=
  if existsb (Nat.eqb id) s then s else s ++ [id].

(** Is the copy_addr with this identity an identity copy? *)
Definition isIdentityCopy (f : SILFunction) (id : InstId) : bool :=
  match asCopyAddr f id with
  | Some c => SILValue_eqb (caSrc c) (caDest c)
  | None => false
  end.

(** The copy_addr arm of the scan: returns the next iterator too. *)
Definition visitCopy (c : Collaborators) (copyId : InstId) (st : ScanState)
  : option (Iterator * ScanState) :=
  match execPass (tryOptimizeCopyIntoTemp (accessBase c) (computeFrontier c)
                                          (aliasAnalysis c) copyId) (scanFn st) with
  | None => None
  | Some f' =>
      let dead := if isIdentityCopy f' copyId
                  then setVectorInsert copyId (deadCopies st)
                  else deadCopies st in
      Some (nextIterator f' copyId, mkScan f' dead (valuesToComplete st))
  end.

Definition Iterator_eqb (a b : Iterator) : bool :=
  match a, b with
  | Some x, Some y => x =? y
  | None, None => true
  | _, _ => false
  end.

(** The store arm of the scan. *)
Definition visitStore (c : Collaborators) (si : InstId) (stored : SILValue)
  (st : ScanState) : option (Iterator * ScanState) :=
  let nextIter := nextIterator (scanFn st) si in
  match tryOptimizeStoreIntoTemp si (scanFn st) with
  | None => None
  | Some (ii, f') =>
      let vals := if Iterator_eqb ii nextIter && isOrHasEnum c stored
                  then valuesToComplete st ++ [stored]
                  else valuesToComplete st in
      Some (ii, mkScan f' (deadCopies st) vals)
  end.

(** [for (auto ii = block.begin(); ii != block.end();)]. *)
Fixpoint scanBlock (fuel : nat) (c : Collaborators) (ii : Iterator) (st : ScanState)
  : option ScanState :=
  match ii with
  | None => Some st
  | Some id =>
      match fuel with
      | O => None
      | S fuel' =>
          match findInst (scanFn st) id with
          | None => None
          | Some (_, inst) =>
              match instKind inst with
              | CopyAddrInst _ _ _ _ =>
                  match visitCopy c id st with
                  | None => None
                  | Some (ii', st') => scanBlock fuel' c ii' st'
                  end
              | StoreInst stored _ _ =>
                  match visitStore c id stored st with
                  | None => None
                  | Some (ii', st') => scanBlock fuel' c ii' st'
                  end
              | _ => scanBlock fuel' c (nextIterator (scanFn st) id) st
              end
          end
      end
  end.

(** [for (auto &block : *function)], by block number. *)
Fixpoint scanBlocks (fuel : nat) (c : Collaborators) (bs : list nat) (st : ScanState)
  : option ScanState :=
  match bs with
  | [] => Some st
  | b :: rest =>
      match scanBlock fuel c (option_map instId (hd_error (getBlock (scanFn st) b))) st with
      | None => None
      | Some st' => scanBlocks fuel c rest st'
      end
  end.

(** [srcInst = deadCopy->getSrc()->getDefiningInstruction()]. *)
Definition sourceDefiningInstruction (f : SILFunction) (id : InstId) : option InstId :=
  match asCopyAddr f id with
  | Some c =>
      match caSrc c with
      | InstResult d | TokenResult d => Some d
      | FunctionArgument _ _ => None
      end
  | None => None
  end.

(** The loop over [deadCopies] after the scan. *)
Definition eraseDeadCopy (c : Collaborators) (f : SILFunction) (deadCopy : InstId)
  : SILFunction :=
  let srcInst := sourceDefiningInstruction f deadCopy in
  let f := eraseFromParent deadCopy f in
  match srcInst with
  | Some s => simplifyAndErase c s f
  | None => f
  end.

Definition eraseDeadCopies (c : Collaborators) (dead : list InstId) (f : SILFunction)
  : SILFunction :=
  fold_left (eraseDeadCopy c) dead f.

Definition run (fuel : nat) (c : Collaborators) (f : SILFunction) : option SILFunction :=
  match scanBlocks fuel c (seq 0 (length (blocks f))) (mkScan f [] []) with
  | None => None
  | Some st =>
      let f := eraseDeadCopies c (deadCopies st) (scanFn st) in
      Some (fold_left (fun f v => completeOSSALifetime c v f) (valuesToComplete st) f)
  end.

(* ================================================================= *)
(** ** Vocabulary of the statements *)

(** How many of the instructions are recorded reads. *)
Definition recordedIn (useInsts : InstructionSet) (l : list SILInstruction) : nat :=
  length (filter (contains useInsts) l).

(** The verdict on the instruction at which the last read is matched. *)
Definition boundaryVerdict (aa : AliasAnalysis) (copySrc : SILValue)
  (last : SILInstruction) : option SILInstruction :=
  if (isFullApplySite last || isYield last) && mayWriteToMemory aa last copySrc
  then None else Some last.

(** An end_access the scope extender would select for relocation: it ends
    a Read scope on memory that may alias the copy's source. *)
Definition isRelocationCandidate (f : SILFunction) (aa : AliasAnalysis)
  (copySrc : SILValue) (inst : SILInstruction) : bool :=
  isEndAccess inst
  && match getBeginAccess f inst with
     | Some (source, kind) =>
         negb (isNoAlias aa copySrc source) && SILAccessKind_eqb kind AccessRead
     | None => false
     end.

(** A destroy_addr of the value / a copy_addr that takes from the value. *)
Definition isDestroyAddrOf (v : SILValue) (i : SILInstruction) : bool :=
  match instKind i with
  | DestroyAddrInst x => SILValue_eqb x v
  | _ => false
  end.

Definition isTakeCopyFrom (v : SILValue) (i : SILInstruction) : bool :=
  match instKind i with
  | CopyAddrInst s _ isTake _ => SILValue_eqb s v && isTake
  | _ => false
  end.

Definition isTakeLoadFrom (v : SILValue) (i : SILInstruction) : bool :=
  match instKind i with
  | LoadInst x q => SILValue_eqb x v && LoadQualifier_eqb q LoadTake
  | _ => false
  end.



(** The ways a candidate copy is disqualified, each with the results of the
    earlier stages it is computed from. *)
Inductive Disqualified (accessBase : AccessBaseOracle) (computeFrontier : FrontierOracle)
  (aa : AliasAnalysis) (f : SILFunction) (copyId : InstId) : Prop :=
| NonInitializingCopy c :
    asCopyAddr f copyId = Some c ->
    caIsInitializationOfDest c = false ->
    Disqualified accessBase computeFrontier aa f copyId
| NonStackDestination c :
    asCopyAddr f copyId = Some c ->
    asAllocStack f (caDest c) = None ->
    Disqualified accessBase computeFrontier aa f copyId
| LexicalGuard c tempObj isLexical dyn :
    asCopyAddr f copyId = Some c ->
    asAllocStack f (caDest c) = Some (tempObj, isLexical, dyn) ->
    lexicalGuardFails accessBase f isLexical (caSrc c) = true ->
    Disqualified accessBase computeFrontier aa f copyId
| UseCollection c tempObj isLexical dyn :
    asCopyAddr f copyId = Some c ->
    asAllocStack f (caDest c) = Some (tempObj, isLexical, dyn) ->
    scanTempUses (collectFuel f) f c (hasOwnership f) (caIsTakeOfSrc c)
                 (getUses f (InstResult (instId tempObj))) [] [] = Some None ->
    Disqualified accessBase computeFrontier aa f copyId
| OrderingCheck c tempObj isLexical dyn loadInsts userSet :
    asCopyAddr f copyId = Some c ->
    asAllocStack f (caDest c) = Some (tempObj, isLexical, dyn) ->
    scanTempUses (collectFuel f) f c (hasOwnership f) (caIsTakeOfSrc c)
                 (getUses f (InstResult (instId tempObj))) [] []
      = Some (Some (loadInsts, userSet)) ->
    userPrecedesCopy f c userSet = true ->
    Disqualified accessBase computeFrontier aa f copyId
| BoundaryComputation c tempObj isLexical dyn loadInsts userSet :
    asCopyAddr f copyId = Some c ->
    asAllocStack f (caDest c) = Some (tempObj, isLexical, dyn) ->
    scanTempUses (collectFuel f) f c (hasOwnership f) (caIsTakeOfSrc c)
                 (getUses f (InstResult (instId tempObj))) [] []
      = Some (Some (loadInsts, userSet)) ->
    getLastUseWhileSourceIsNotModified f c loadInsts aa = None ->
    Disqualified accessBase computeFrontier aa f copyId
| ReinitializationGuard c tempObj isLexical dyn loadInsts userSet lastLoadInst :
    asCopyAddr f copyId = Some c ->
    asAllocStack f (caDest c) = Some (tempObj, isLexical, dyn) ->
    scanTempUses (collectFuel f) f c (hasOwnership f) (caIsTakeOfSrc c)
                 (getUses f (InstResult (instId tempObj))) [] []
      = Some (Some (loadInsts, userSet)) ->
    getLastUseWhileSourceIsNotModified f c loadInsts aa = Some lastLoadInst ->
    reinitGuardFails aa (caIsTakeOfSrc c) c lastLoadInst = true ->
    Disqualified accessBase computeFrontier aa f copyId
| DestroyPattern c tempObj isLexical dyn loadInsts userSet lastLoadInst :
    asCopyAddr f copyId = Some c ->
    asAllocStack f (caDest c) = Some (tempObj, isLexical, dyn) ->
    scanTempUses (collectFuel f) f c (hasOwnership f) (caIsTakeOfSrc c)
                 (getUses f (InstResult (instId tempObj))) [] []
      = Some (Some (loadInsts, userSet)) ->
    getLastUseWhileSourceIsNotModified f c loadInsts aa = Some lastLoadInst ->
    hasOwnership f = false ->
    checkTempObjectDestroy computeFrontier f tempObj c = false ->
    Disqualified accessBase computeFrontier aa f copyId
| ScopeExtension c tempObj isLexical dyn loadInsts userSet lastLoadInst :
    asCopyAddr f copyId = Some c ->
    asAllocStack f (caDest c) = Some (tempObj, isLexical, dyn) ->
    scanTempUses (collectFuel f) f c (hasOwnership f) (caIsTakeOfSrc c)
                 (getUses f (InstResult (instId tempObj))) [] []
      = Some (Some (loadInsts, userSet)) ->
    getLastUseWhileSourceIsNotModified f c loadInsts aa = Some lastLoadInst ->
    fst (extendAccessScopes c lastLoadInst aa f) = false ->
    Disqualified accessBase computeFrontier aa f copyId.

(** All checks of the copy rewriter pass: the rewrite commits, with these
    results of the analysis stages. *)
Record Commits (accessBase : AccessBaseOracle) (computeFrontier : FrontierOracle)
  (aa : AliasAnalysis) (f : SILFunction) (copyId : InstId)
  (c : CopyAddr) (tempObj : SILInstruction) (lastLoadInst : SILInstruction)
  (extended : SILFunction) : Prop := mkCommits {
  commitsCopy : asCopyAddr f copyId = Some c;
  commitsInit : caIsInitializationOfDest c = true;
  commitsTemp : exists isLexical dyn,
      asAllocStack f (caDest c) = Some (tempObj, isLexical, dyn) /\
      lexicalGuardFails accessBase f isLexical (caSrc c) = false;
  commitsScan : exists loadInsts userSet,
      scanTempUses (collectFuel f) f c (hasOwnership f) (caIsTakeOfSrc c)
                   (getUses f (InstResult (instId tempObj))) [] []
        = Some (Some (loadInsts, userSet)) /\
      userPrecedesCopy f c userSet = false /\
      getLastUseWhileSourceIsNotModified f c loadInsts aa = Some lastLoadInst;
  commitsReinit : reinitGuardFails aa (caIsTakeOfSrc c) c lastLoadInst = false;
  commitsDestroy :
      hasOwnership f = true \/ checkTempObjectDestroy computeFrontier f tempObj c = true;
  commitsExtend : extendAccessScopes c lastLoadInst aa f = (true, extended)
}.

(** Instruction identities are unique in a function. *)
Definition uniqueIds (f : SILFunction) : Prop := NoDup (map instId (allInsts f)).

(** Redirection of the temporary to the copy's source. *)
Definition redirect (temp copySrc v : SILValue) : SILValue :=
  if SILValue_eqb v temp then copySrc else v.

(** What the commit of the copy rewriter leaves of one instruction: the
    alloc_stack and the destroy_addr / dealloc_stack of the temporary are
    gone, a take from the temporary other than the final one is made
    non-consuming, and every operand is redirected. *)
Definition commitImage (copyId tempId : InstId) (copySrc : SILValue)
  (needFinalDeinit : bool) (lastId : InstId) (i : SILInstruction)
  : list SILInstruction :=
  let temp := InstResult tempId in
  if instId i =? tempId then []
  else
    match instKind i with
    | DestroyAddrInst v | DeallocStackInst v =>
        if SILValue_eqb v temp then [] else [i]
    | CopyAddrInst s d isTake isInit =>
        let converted :=
          (SILValue_eqb s temp || SILValue_eqb d temp)
          && (negb (instId i =? copyId)
              && (isTake && (negb needFinalDeinit || negb (lastId =? instId i)))) in
        [mkInst (instId i)
                (CopyAddrInst (redirect temp copySrc s) (redirect temp copySrc d)
                              (if converted then false else isTake) isInit)]
    | LoadInst v q =>
        let converted :=
          SILValue_eqb v temp
          && (LoadQualifier_eqb q LoadTake
              && (negb needFinalDeinit || negb (instId i =? lastId))) in
        [mkInst (instId i)
                (LoadInst (redirect temp copySrc v) (if converted then LoadCopy else q))]
    | k => [mkInst (instId i) (substValue temp copySrc k)]
    end.

(** How often a value is an operand of the instructions. *)
Definition countUses (v : SILValue) (l : list SILInstruction) : nat :=
  list_sum (map (fun i => length (usesInInst 0 v i)) l).

(** The kinds the replacement loop treats in a clause of their own. *)
Definition hasOwnClause (k : SILInstructionKind) : bool :=
  match k with
  | DestroyAddrInst _ | DeallocStackInst _ | CopyAddrInst _ _ _ _ | LoadInst _ _ => true
  | _ => false
  end.

(** An instruction that ends the value stored at an address: a
    destroy_addr of it, a copy_addr that takes from it, a load [take]. *)
Definition consumes (v : SILValue) (i : SILInstruction) : bool :=
  isDestroyAddrOf v i || isTakeCopyFrom v i || isTakeLoadFrom v i.

(** How often the instructions of a path consume the value at [v]. *)
Definition destroyCount (v : SILValue) (path : list SILInstruction) : nat :=
  length (filter (consumes v) path).

(** A control-flow path that leaves the initializing copy: the rest of
    its block, then the blocks [bs]. *)
Definition pathFromCopy (f : SILFunction) (copyId : InstId) (bs : list nat)
  : list SILInstruction :=
  instsAfter f copyId ++ flat_map (getBlock f) bs.

(** A copy_addr that writes into the address. *)
Definition writesInto (v : SILValue) (i : SILInstruction) : bool :=
  match instKind i with
  | CopyAddrInst _ d _ _ => SILValue_eqb d v
  | _ => false
  end.

(** The function the replacement loop of the commit starts from: the
    destroy of the source synthesized after the boundary when needed. *)
Definition withSynthesizedDestroy (c : CopyAddr) (tempObj lastLoadInst : SILInstruction)
  (f1 : SILFunction) : SILFunction :=
  if needToInsertDestroy (caIsTakeOfSrc c) c (InstResult (instId tempObj)) lastLoadInst
  then insertAfter (instId lastLoadInst)
                   (mkInst (freshId f1) (DestroyAddrInst (caSrc c))) f1
  else f1.

(** The final take: the boundary instruction when it takes from the
    temporary and the initializing copy took its source. *)
Definition isFinalTake (needFinalDeinit : bool) (temp : SILValue) (lastId : InstId)
  (i : SILInstruction) : bool :=
  needFinalDeinit && (instId i =? lastId)
  && (isTakeCopyFrom temp i || isTakeLoadFrom temp i).

(** The relocation of an end_access, instruction by instruction. *)
Definition moveImage (moved : option SILInstruction) (lastId : InstId)
  (i : SILInstruction) : list SILInstruction :=
  match moved with
  | None => [i]
  | Some ea =>
      if instId i =? instId ea then []
      else if instId i =? lastId then [i; ea] else [i]
  end.

(** The synthesis of the destroy, instruction by instruction. *)
Definition destroyImage (need : bool) (lastId : InstId) (destroy : SILInstruction)
  (i : SILInstruction) : list SILInstruction :=
  if need && (instId i =? lastId) then [i; destroy] else [i].

(** The whole rewrite of a committing candidate, instruction by
    instruction: relocation, synthesis of the destroy, replacement. *)
Definition rewriteImage (copyId tempId : InstId) (copySrc : SILValue)
  (needFinalDeinit : bool) (lastId : InstId) (moved : option SILInstruction)
  (need : bool) (destroy : SILInstruction) (i : SILInstruction)
  : list SILInstruction :=
  flat_map (commitImage copyId tempId copySrc needFinalDeinit lastId)
           (flat_map (destroyImage need lastId destroy) (moveImage moved lastId i)).

(** The instruction with identity [li] is a load with qualifier [q]. *)
Definition isLoadAt (f : SILFunction) (li : InstId) (q : LoadOwnershipQualifier) : Prop :=
  exists b op, findInst f li = Some (b, mkInst li (LoadInst op q)).

(** The function a load of the temporary is replaced in: its uses now name
    the stored value, or a copy_value of it placed before the load when the
    load is a load [copy]. *)
Definition loadReplaced (src : SILValue) (li : InstId) (q : LoadOwnershipQualifier)
  (f : SILFunction) : SILFunction :=
  if LoadQualifier_eqb q LoadCopy
  then replaceAllUsesWith (InstResult li) (InstResult (freshId f))
         (insertBefore li (mkInst (freshId f) (CopyValueInst src)) f)
  else replaceAllUsesWith (InstResult li) src f.

(* ================================================================= *)
(** ** Example programs *)

Module Examples.

Definition source : SILValue := FunctionArgument 0 Guaranteed.
Definition temp : SILValue := InstResult 1.

Definition allocInst : SILInstruction := mkInst 1 (AllocStackInst false false).
Definition copyInst (take : bool) : SILInstruction :=
  mkInst 2 (CopyAddrInst source temp take true).
Definition loadInst (q : LoadOwnershipQualifier) : SILInstruction :=
  mkInst 3 (LoadInst temp q).
Definition destroyInst : SILInstruction := mkInst 4 (DestroyAddrInst temp).
Definition deallocInst : SILInstruction := mkInst 5 (DeallocStackInst temp).

(** [temp = alloc_stack; copy_addr source to [init] temp; load [copy] temp;
    destroy_addr temp; dealloc_stack temp], in one block. *)
Definition copyProgram (take ossa : bool) : SILFunction :=
  mkFunction ossa
    [[allocInst; copyInst take; loadInst LoadCopy; destroyInst; deallocInst]].

(** The same with the destroy and the dealloc in a second block. *)
Definition splitProgram (take ossa : bool) : SILFunction :=
  mkFunction ossa
    [[allocInst; copyInst take; loadInst LoadCopy]; [destroyInst; deallocInst]].

Definition copyView (take : bool) : CopyAddr :=
  mkCopyAddr (copyInst take) 0 source temp take true.

(** An alias oracle that finds no write and no alias. *)
Definition quietAA : AliasAnalysis := mkAA (fun _ _ => false) (fun _ _ => true).
(** An alias oracle that finds every instruction writing, every pair aliasing. *)
Definition noisyAA : AliasAnalysis := mkAA (fun _ _ => true) (fun _ _ => false).

Definition noBase : AccessBaseOracle := fun _ _ => None.
Definition noFrontier : FrontierOracle := fun _ _ _ => None.

(** [a = begin_access [read] source; temp = alloc_stack; copy_addr a to
    [init] temp; end_access a; yield temp]: the boundary is a terminator. *)
Definition beginInst : SILInstruction := mkInst 6 (BeginAccessInst source AccessRead).
Definition accessCopyInst : SILInstruction :=
  mkInst 2 (CopyAddrInst (InstResult 6) temp false true).
Definition endInst : SILInstruction := mkInst 7 (EndAccessInst (InstResult 6)).
Definition yieldInst : SILInstruction := mkInst 8 (YieldInst [(temp, ConvGuaranteed)]).

Definition accessProgram : SILFunction :=
  mkFunction true [[beginInst; allocInst; accessCopyInst; endInst; yieldInst]].

Definition accessCopyView : CopyAddr :=
  mkCopyAddr accessCopyInst 0 (InstResult 6) temp false true.

(** A copy that does not initialize its destination. *)
Definition assignProgram : SILFunction :=
  mkFunction true
    [[allocInst; mkInst 2 (CopyAddrInst source temp false false); deallocInst]].

(** [temp = alloc_stack; store v to [init] temp; load [take] temp;
    dealloc_stack temp], the stored value being an argument. *)
Definition stored : SILValue := FunctionArgument 1 Owned.
Definition storeInst : SILInstruction := mkInst 2 (StoreInst stored temp StoreInit).

Definition storeProgram (q : LoadOwnershipQualifier) : SILFunction :=
  mkFunction true [[allocInst; storeInst; loadInst q; deallocInst]].

Definition collaborators : Collaborators :=
  mkCollaborators noBase noFrontier quietAA (fun _ => false)
                  (fun _ f => f) (fun _ f => f).

End Examples.

(* ================================================================= *)
(** ** Vocabulary of the further properties *)

(** The block holds an instruction of this identity. *)
Definition inBlock (f : SILFunction) (b : nat) (id : InstId) : Prop :=
  exists i, In i (getBlock f b) /\ instId i = id.

(** The invariant of a collector loop: on success the set only grew, and
    only by instructions of the block. *)
Definition growsInBlock (f : SILFunction) (block : nat) (l : InstructionSet)
  (r : Collected) : Prop :=
  forall l', r = Some (true, l') ->
    forall x, In x l' -> In x l \/ inBlock f block x.

(** The instruction has the value among its operands. *)
Definition usesValue (v : SILValue) (i : SILInstruction) : Prop :=
  In v (getAllOperands (instKind i)).

(** The kinds of user the first switch of the store rewriter lets pass. *)
Definition handledStoreUser (tempObj : SILValue) (k : SILInstructionKind) : bool :=
  match k with
  | DestroyAddrInst _ | DeallocStackInst _ | LoadInst _ _ | FixLifetimeInst _ => true
  | CopyAddrInst _ dest _ _ => negb (SILValue_eqb dest tempObj)
  | MarkDependenceInst value _ _ => negb (SILValue_eqb value tempObj)
  | _ => false
  end.

(** The kinds of user the second switch of the store rewriter has a case
    for. *)
Definition hasRewriteClause (k : SILInstructionKind) : bool :=
  match k with
  | DestroyAddrInst _ | DeallocStackInst _ | LoadInst _ _ | FixLifetimeInst _
  | CopyAddrInst _ _ _ _ | MarkDependenceInst _ _ _ => true
  | _ => false
  end.

(** The instructions the driver's scan stops at. *)
Definition isCopyOrStore (i : SILInstruction) : bool :=
  match instKind i with
  | CopyAddrInst _ _ _ _ | StoreInst _ _ _ => true
  | _ => false
  end.

(** A use the scan of the temporary's uses passes over without looking at
    its block: by the initializing copy, by a dealloc_stack, or by a
    destroy_addr unless the function is outside ownership mode and the copy
    takes its source. *)
Definition skippedUse (copyInst : CopyAddr) (isOSSA needFinalDeinit : bool)
  (u : Operand) : bool :=
  (instId (opUser u) =? instId (caInst copyInst))
  || isDeallocStack (opUser u)
  || (isDestroyAddr (opUser u) && negb (negb isOSSA && needFinalDeinit)).

(** The user set after the users of these uses are inserted. *)
Definition usersOf (uses : list Operand) (userSet : InstructionSet) : InstructionSet :=
  fold_left (fun s u => insert (opUser u) s) uses userSet.

(** A result of the scan, with this user set when it is a success. *)
Definition withUserSet (userSet : InstructionSet)
  (r : option (option (InstructionSet * InstructionSet)))
  : option (option (InstructionSet * InstructionSet)) :=
  match r with
  | Some (Some (l, _)) => Some (Some (l, userSet))
  | _ => r
  end.

(** An instruction over which an end_access whose access has this source
    is not moved. *)
Definition blocksRelocation (aa : AliasAnalysis) (source : SILValue)
  (i : SILInstruction) : bool :=
  isEndAccess i || isBeginAccess i || isBeginUnpairedAccess i
  || mayWriteToMemory aa i source.

(** An instruction identity the store rewriter does not erase: not the
    store, not the temporary's alloc_stack, and no user of the temporary. *)
Definition outlivesStoreRewrite (f : SILFunction) (si : InstId) (temp : SILValue)
  (id : InstId) : Prop :=
  id <> si /\ temp <> InstResult id /\
  forall u, In u (getUses f temp) -> id <> instId (opUser u).

(* ================================================================= *)
(** ** Further example programs *)

Module FurtherExamples.

Import Examples.

(** An alias oracle that finds no write, and every pair aliasing. *)
Definition aliasingAA : AliasAnalysis := mkAA (fun _ _ => false) (fun _ _ => false).

(** [a = begin_access [read] source; temp = alloc_stack; copy_addr a to
    [init] temp; end_access a; load [copy] temp; destroy_addr temp;
    dealloc_stack temp]: the read scope ends before the temporary is read. *)
Definition extendProgram : SILFunction :=
  mkFunction true
    [[beginInst; allocInst; accessCopyInst; endInst; loadInst LoadCopy;
      destroyInst; deallocInst]].

(** The same with an alias oracle that finds every instruction writing:
    the load after the end_access may write to the source of the access. *)
Definition writingAA : AliasAnalysis := mkAA (fun _ _ => true) (fun _ _ => false).

(** What the copy rewriter makes of [copyProgram false true]. *)
Definition copyProgramRewritten : SILFunction :=
  mkFunction true
    [[mkInst 2 (CopyAddrInst source source false true);
      mkInst 3 (LoadInst source LoadCopy)]].

(** A store into memory that is no alloc_stack. *)
Definition argStoreInst : SILInstruction :=
  mkInst 2 (StoreInst stored (FunctionArgument 2 Guaranteed) StoreInit).

Definition argStoreProgram : SILFunction := mkFunction true [[argStoreInst]].

(** Collaborators for which every value is or has an enum. *)
Definition enumCollaborators : Collaborators :=
  mkCollaborators noBase noFrontier quietAA (fun _ => true)
                  (fun _ f => f) (fun _ f => f).

(** [temp = alloc_stack; copy_addr source to [init] temp;
    p = struct_element_addr temp; load [take] p; dealloc_stack temp]. *)
Definition projectionInst : SILInstruction :=
  mkInst 6 (StructElementAddrInst temp).
Definition projectedLoadInst : SILInstruction :=
  mkInst 3 (LoadInst (InstResult 6) LoadTake).

Definition projectionProgram : SILFunction :=
  mkFunction true
    [[allocInst; copyInst false; projectionInst; projectedLoadInst; deallocInst]].

(** [temp = alloc_stack; store v to [init] temp; x = load temp;
    destroy_value x; dealloc_stack temp]: the loaded value has a user. *)
Definition loadUserInst : SILInstruction := mkInst 7 (DestroyValueInst (InstResult 3)).

Definition storeUseProgram (q : LoadOwnershipQualifier) : SILFunction :=
  mkFunction true [[allocInst; storeInst; loadInst q; loadUserInst; deallocInst]].

(** A function without copy_addr and store. *)
Definition loadProgram : SILFunction :=
  mkFunction true [[allocInst; loadInst LoadCopy; deallocInst]].

End FurtherExamples.

(* ================================================================= *)
(** * Properties *)

(* ----------------------------------------------------------------- *)
(** ** Equality tests decide equality *)

Lemma OwnershipKind_eqb_eq a b : OwnershipKind_eqb a b = true <-> a = b.
Proof. destruct a, b; simpl; split; congruence. Qed.

Lemma SILValue_eqb_eq a b : SILValue_eqb a b = true <-> a = b.
Proof.
  destruct a as [i o|i|i], b as [j p|j|j]; simpl; split; try congruence.
  - rewrite andb_true_iff, Nat.eqb_eq, OwnershipKind_eqb_eq. intros [-> ->]; reflexivity.
  - intros [= -> ->]. rewrite Nat.eqb_refl. simpl. now apply OwnershipKind_eqb_eq.
  - rewrite Nat.eqb_eq. congruence.
  - intros [= ->]. apply Nat.eqb_refl.
  - rewrite Nat.eqb_eq. congruence.
  - intros [= ->]. apply Nat.eqb_refl.
Qed.

Lemma SILValue_eqb_refl a : SILValue_eqb a a = true.
Proof. now apply SILValue_eqb_eq. Qed.

Lemma SILValue_eqb_neq a b : SILValue_eqb a b = false <-> a <> b.
Proof.
  split.
  - intros H E. apply SILValue_eqb_eq in E. congruence.
  - intros H. destruct (SILValue_eqb a b) eqn:E; [|reflexivity].
    apply SILValue_eqb_eq in E. contradiction.
Qed.

(* ----------------------------------------------------------------- *)
(** ** The modification checker *)

Section ModificationChecker.

Variable aa : AliasAnalysis.
Variable copySrc : SILValue.
Variable useInsts : InstructionSet.

Lemma recordedIn_app l1 l2 : recordedIn useInsts (l1 ++ l2) = recordedIn useInsts l1 + recordedIn useInsts l2.
Proof. unfold recordedIn. now rewrite filter_app, length_app. Qed.

Lemma recordedIn_cons i l :
  recordedIn useInsts (i :: l) = (if contains useInsts i then 1 else 0) + recordedIn useInsts l.
Proof. unfold recordedIn. simpl. now destruct (contains useInsts i). Qed.

Lemma lastUseLoop_boundary pre last post : forall n,
  contains useInsts last = true ->
  n + recordedIn useInsts (pre ++ [last]) = size useInsts ->
  lastUseLoop aa copySrc useInsts n (pre ++ last :: post) =
    if existsb (fun i => mayWriteToMemory aa i copySrc) pre then None
    else boundaryVerdict aa copySrc last.
Proof.
  induction pre as [|a pre IH]; intros n Hlast Hn.
  - simpl in *. rewrite Hlast. rewrite recordedIn_cons, Hlast in Hn.
    unfold recordedIn in Hn. simpl in Hn. replace (S n =? size useInsts) with true
      by (symmetry; apply Nat.eqb_eq; lia).
    reflexivity.
  - simpl. rewrite <- app_comm_cons, recordedIn_cons in Hn.
    assert (Hpos : 1 <= recordedIn useInsts (pre ++ [last])).
    { rewrite recordedIn_app, recordedIn_cons, Hlast. lia. }
    set (n' := if contains useInsts a then S n else n).
    assert (Hn' : n' + recordedIn useInsts (pre ++ [last]) = size useInsts).
    { unfold n'. destruct (contains useInsts a); lia. }
    replace (n' =? size useInsts) with false
      by (symmetry; apply Nat.eqb_neq; lia).
    destruct (mayWriteToMemory aa a copySrc); [reflexivity|].
    simpl. now apply IH.
Qed.

Lemma lastUseLoop_missing insts : forall n,
  n + recordedIn useInsts insts < size useInsts ->
  lastUseLoop aa copySrc useInsts n insts = None.
Proof.
  induction insts as [|a insts IH]; intros n Hn; [reflexivity|].
  simpl. rewrite recordedIn_cons in Hn.
  set (n' := if contains useInsts a then S n else n).
  assert (Hn' : n' + recordedIn useInsts insts < size useInsts).
  { unfold n'. destruct (contains useInsts a); lia. }
  replace (n' =? size useInsts) with false
    by (symmetry; apply Nat.eqb_neq; lia).
  destruct (mayWriteToMemory aa a copySrc); [reflexivity|].
  now apply IH.
Qed.

End ModificationChecker.

(** C2. The modification checker returns the initializing copy when no read
    was recorded.  Otherwise it scans the instructions strictly after the
    copy in block order: with [last] the instruction at which every recorded
    read has been passed and [pre] the instructions before it, it fails when
    an instruction of [pre] may write to the source, else it fails when
    [last] is a call-like or yield instruction that may write to the source,
    else it returns [last]; and it fails when the block ends before every
    recorded read was passed. *)
Theorem getLastUse_boundary (f : SILFunction) (copyInst : CopyAddr)
  (useInsts : InstructionSet) (aa : AliasAnalysis) :
  (empty useInsts = true ->
   getLastUseWhileSourceIsNotModified f copyInst useInsts aa
     = Some (caInst copyInst)) /\
  (forall pre last post,
     empty useInsts = false ->
     instsAfter f (instId (caInst copyInst)) = pre ++ last :: post ->
     contains useInsts last = true ->
     recordedIn useInsts (pre ++ [last]) = size useInsts ->
     getLastUseWhileSourceIsNotModified f copyInst useInsts aa =
       if existsb (fun i => mayWriteToMemory aa i (caSrc copyInst)) pre then None
       else if (isFullApplySite last || isYield last)
               && mayWriteToMemory aa last (caSrc copyInst)
            then None
            else Some last) /\
  (empty useInsts = false ->
   recordedIn useInsts (instsAfter f (instId (caInst copyInst))) < size useInsts ->
   getLastUseWhileSourceIsNotModified f copyInst useInsts aa = None).
Proof.
  unfold getLastUseWhileSourceIsNotModified. repeat split.
  - intros ->. reflexivity.
  - intros pre last post -> -> Hlast Hcount.
    now apply lastUseLoop_boundary.
  - intros -> Hlt. now apply lastUseLoop_missing.
Qed.

(* ----------------------------------------------------------------- *)
(** ** The use collector *)

Create HintDb collector.

Lemma recordInBlock_total block o l : exists b l', recordInBlock block o l = Some (b, l').
Proof. unfold recordInBlock. destruct (negb _); eauto. Qed.

Lemma visitEndScope_total block o l : exists b l', visitEndScope block o l = Some (b, l').
Proof.
  unfold visitEndScope. destruct (isEndBorrow _); eauto using recordInBlock_total.
Qed.

Lemma recordInBlock_other_block block o l :
  opBlock o <> block -> recordInBlock block o l = Some (false, l).
Proof.
  intros H. unfold recordInBlock.
  apply Nat.eqb_neq in H. now rewrite H.
Qed.

#[local] Hint Resolve recordInBlock_total visitEndScope_total : collector.

(** A loop over uses fails as soon as one use is always refused. *)
Lemma forEachUse_refused visit uses u :
  (forall o l, exists b l', visit o l = Some (b, l')) ->
  In u uses ->
  (forall l, exists l', visit u l = Some (false, l')) ->
  forall l, exists l', forEachUse visit uses l = Some (false, l').
Proof.
  intros Htot Hin Hu. induction uses as [|a uses IH]; intros l; [destruct Hin|].
  simpl. destruct Hin as [->|Hin].
  - destruct (Hu l) as [l' ->]. eauto.
  - destruct (Htot a l) as [[|] [l' ->]]; eauto.
Qed.

(** C3. A use whose instruction is in another block than the initializing
    copy disqualifies the candidate, and so does an end_access of a Read
    begin_access on the temporary, a use of a begin_apply token, or an
    end_borrow ending a load_borrow's scope, that is in another block. *)
Theorem collectLoads_same_block (fuel : nat) (f : SILFunction)
  (originalCopy : CopyAddr) (addressUse : Operand) (loadInsts : InstructionSet) :
  (opBlock addressUse <> caParent originalCopy ->
   collectLoads (S fuel) f originalCopy addressUse loadInsts = Some (false, loadInsts)) /\
  (forall source endAccess,
     instKind (opUser addressUse) = BeginAccessInst source AccessRead ->
     In endAccess (getEndAccesses f (opUser addressUse)) ->
     opBlock endAccess <> caParent originalCopy ->
     exists l, collectLoads (S fuel) f originalCopy addressUse loadInsts = Some (false, l)) /\
  (forall args tokenUse,
     instKind (opUser addressUse) = BeginApplyInst args ->
     In tokenUse (getUses f (TokenResult (instId (opUser addressUse)))) ->
     opBlock tokenUse <> caParent originalCopy ->
     exists l, collectLoads (S fuel) f originalCopy addressUse loadInsts = Some (false, l)) /\
  (forall operand endBorrow,
     instKind (opUser addressUse) = LoadBorrowInst operand ->
     In endBorrow (localScopeEndingUses f (opUser addressUse)) ->
     isEndBorrow (opUser endBorrow) = true ->
     opBlock endBorrow <> caParent originalCopy ->
     exists l, collectLoads (S fuel) f originalCopy addressUse loadInsts = Some (false, l)).
Proof.
  repeat split.
  - intros H. simpl. apply Nat.eqb_neq in H. now rewrite H.
  - intros source endAccess Hk Hin Hblk. simpl.
    destruct (negb (opBlock addressUse =? caParent originalCopy)); [eauto|].
    rewrite Hk. simpl.
    apply forEachUse_refused with (u := endAccess); auto with collector.
    intros l. rewrite recordInBlock_other_block by assumption. eauto.
  - intros args tokenUse Hk Hin Hblk. simpl.
    destruct (negb (opBlock addressUse =? caParent originalCopy)); [eauto|].
    rewrite Hk. unfold collectApply.
    destruct (negb (argumentConvention args addressUse)); [eauto|].
    apply forEachUse_refused with (u := tokenUse); auto with collector.
    intros l. rewrite recordInBlock_other_block by assumption. eauto.
  - intros operand endBorrow Hk Hin Heb Hblk. simpl.
    destruct (negb (opBlock addressUse =? caParent originalCopy)); [eauto|].
    rewrite Hk.
    apply forEachUse_refused with (u := endBorrow); auto with collector.
    intros l. unfold visitEndScope. rewrite Heb.
    rewrite recordInBlock_other_block by assumption. eauto.
Qed.

(** C4. In the initializer's block, a load [take] or a copy_addr [take] from
    the examined address is refused when that address is not the whole
    temporary (the destination of the initializing copy) and is recorded as
    a terminal read when it is; a copy_addr whose destination is the
    examined address is refused. *)
Theorem collectLoads_take_whole_temporary (fuel : nat) (f : SILFunction)
  (originalCopy : CopyAddr) (addressUse : Operand) (loadInsts : InstructionSet) :
  opBlock addressUse = caParent originalCopy ->
  (forall operand,
     instKind (opUser addressUse) = LoadInst operand LoadTake ->
     (opValue addressUse <> caDest originalCopy ->
      collectLoads (S fuel) f originalCopy addressUse loadInsts
        = Some (false, loadInsts)) /\
     (opValue addressUse = caDest originalCopy ->
      collectLoads (S fuel) f originalCopy addressUse loadInsts
        = Some (true, insert (opUser addressUse) loadInsts))) /\
  (forall src dest isTake isInit,
     instKind (opUser addressUse) = CopyAddrInst src dest isTake isInit ->
     (dest = opValue addressUse ->
      collectLoads (S fuel) f originalCopy addressUse loadInsts
        = Some (false, loadInsts)) /\
     (dest <> opValue addressUse -> isTake = true ->
      opValue addressUse <> caDest originalCopy ->
      collectLoads (S fuel) f originalCopy addressUse loadInsts
        = Some (false, loadInsts)) /\
     (dest <> opValue addressUse -> isTake = true ->
      opValue addressUse = caDest originalCopy ->
      collectLoads (S fuel) f originalCopy addressUse loadInsts
        = Some (true, insert (opUser addressUse) loadInsts))).
Proof.
  intros Hblk. apply Nat.eqb_eq in Hblk.
  split.
  - intros operand Hk. split; intros Ha; simpl; rewrite Hblk, Hk; simpl.
    + apply SILValue_eqb_neq in Ha. now rewrite Ha.
    + apply SILValue_eqb_eq in Ha. now rewrite Ha.
  - intros src dest isTake isInit Hk. repeat split.
    + intros Hd. simpl. rewrite Hblk, Hk. simpl.
      apply SILValue_eqb_eq in Hd. now rewrite Hd.
    + intros Hd -> Ha. simpl. rewrite Hblk, Hk. simpl.
      apply SILValue_eqb_neq in Hd, Ha. now rewrite Hd, Ha.
    + intros Hd -> Ha. simpl. rewrite Hblk, Hk. simpl.
      apply SILValue_eqb_neq in Hd. apply SILValue_eqb_eq in Ha. now rewrite Hd, Ha.
Qed.

(* ----------------------------------------------------------------- *)
(** ** Instruction-wise edits *)

Section Expand.

Variable h : SILInstruction -> list SILInstruction.

Lemma getBlock_expand f b :
  getBlock (expandInsts h f) b = flat_map h (getBlock f b).
Proof.
  unfold getBlock, expandInsts. simpl.
  change (@nil SILInstruction) with (flat_map h []) at 1.
  apply map_nth.
Qed.

Lemma allInsts_expand f : allInsts (expandInsts h f) = flat_map h (allInsts f).
Proof.
  unfold allInsts, expandInsts. simpl.
  induction (blocks f) as [|blk bs IH]; [reflexivity|].
  simpl. now rewrite IH, flat_map_app.
Qed.

(** An edit that keeps the instruction [id] first in its expansion and
    creates no other instruction of that identity leaves lookups alone. *)
Variable id : InstId.
Hypothesis keeps : forall i, instId i = id -> exists rest, h i = i :: rest.
Hypothesis others : forall i j, instId i <> id -> In j (h i) -> instId j <> id.

Lemma findInBlock_expand blk :
  findInBlock id (flat_map h blk) = findInBlock id blk.
Proof.
  induction blk as [|i blk IH]; [reflexivity|]. simpl.
  destruct (instId i =? id) eqn:E.
  - apply Nat.eqb_eq in E. destruct (keeps i E) as [rest ->].
    simpl. apply Nat.eqb_eq in E. now rewrite E.
  - apply Nat.eqb_neq in E. rewrite <- IH.
    assert (H : forall j, In j (h i) -> instId j <> id) by eauto.
    induction (h i) as [|j l IHl]; [reflexivity|]. simpl.
    assert (Hj : instId j <> id) by (apply H; now left).
    apply Nat.eqb_neq in Hj. rewrite Hj. apply IHl.
    intros k Hk. apply H. now right.
Qed.

Lemma findInBlocks_expand bs : forall b,
  findInBlocks b id (map (flat_map h) bs) = findInBlocks b id bs.
Proof.
  induction bs as [|blk bs IH]; intros b; [reflexivity|].
  simpl. rewrite findInBlock_expand, IH. reflexivity.
Qed.

Lemma findInst_expand f : findInst (expandInsts h f) id = findInst f id.
Proof. apply findInBlocks_expand. Qed.

Lemma afterIn_expand blk i rest :
  findInBlock id blk = Some i -> h i = i :: rest ->
  afterIn id (flat_map h blk) = rest ++ flat_map h (afterIn id blk).
Proof.
  induction blk as [|a blk IH]; [discriminate|]. simpl.
  destruct (instId a =? id) eqn:E.
  - intros [= ->] ->. simpl. now rewrite E.
  - intros Hf Hh. rewrite <- (IH Hf Hh).
    apply Nat.eqb_neq in E.
    assert (H : forall j, In j (h a) -> instId j <> id) by eauto.
    induction (h a) as [|j l IHl]; [reflexivity|]. simpl.
    assert (Hj : instId j <> id) by (apply H; now left).
    apply Nat.eqb_neq in Hj. rewrite Hj. apply IHl.
    intros k Hk. apply H. now right.
Qed.

End Expand.

Lemma findInBlocks_nth bs : forall b0 id b i,
  findInBlocks b0 id bs = Some (b, i) ->
  b0 <= b /\ findInBlock id (nth (b - b0) bs []) = Some i.
Proof.
  induction bs as [|blk bs IH]; intros b0 id b i; [discriminate|].
  simpl. destruct (findInBlock id blk) eqn:E.
  - intros [= <- <-]. rewrite Nat.sub_diag. auto.
  - intros H. apply IH in H. destruct H as [Hle H]. split; [lia|].
    replace (b - b0) with (S (b - S b0)) by lia. exact H.
Qed.

Lemma findInst_block f id b i :
  findInst f id = Some (b, i) -> findInBlock id (getBlock f b) = Some i.
Proof.
  intros H. apply findInBlocks_nth in H. destruct H as [_ H].
  now rewrite Nat.sub_0_r in H.
Qed.

Lemma findInBlock_id id blk i : findInBlock id blk = Some i -> instId i = id.
Proof.
  induction blk as [|a blk IH]; [discriminate|]. simpl.
  destruct (instId a =? id) eqn:E; [|exact IH].
  intros [= <-]. now apply Nat.eqb_eq.
Qed.

(** After [insertAfter pos new], [new] follows the instruction [pos]. *)
Lemma nextInst_insertAfter f pos new :
  findInst f pos <> None -> nextInst (insertAfter pos new f) pos = Some new.
Proof.
  intros Hf. unfold nextInst, instsAfter, insertAfter.
  set (h := fun i => if instId i =? pos then [i; new] else [i]).
  assert (K : forall i, instId i = pos -> exists rest, h i = i :: rest).
  { intros i E. unfold h. apply Nat.eqb_eq in E. rewrite E. eauto. }
  assert (O : forall i j, instId i <> pos -> In j (h i) -> instId j <> pos).
  { intros i j E. unfold h. apply Nat.eqb_neq in E. rewrite E.
    intros [<-|[]]. now apply Nat.eqb_neq. }
  rewrite (findInst_expand h pos K O).
  destruct (findInst f pos) as [[b i]|] eqn:E; [|congruence].
  rewrite getBlock_expand. apply findInst_block in E.
  rewrite (afterIn_expand h pos O _ i [new] E).
  - reflexivity.
  - unfold h. apply findInBlock_id in E. apply Nat.eqb_eq in E. now rewrite E.
Qed.

Lemma findInst_eraseFromParent_other f id pos :
  id <> pos -> findInst (eraseFromParent id f) pos = findInst f pos.
Proof.
  intros Hne. unfold eraseFromParent. apply findInst_expand.
  - intros i E. assert (N : instId i <> id) by congruence.
    apply Nat.eqb_neq in N. rewrite N. eauto.
  - intros i j E. destruct (instId i =? id); [intros []|].
    intros [<-|[]]. exact E.
Qed.

(** [moveAfter] puts the moved instruction right after the position. *)
Lemma nextInst_moveAfter f moved pos :
  instId moved <> pos -> findInst f pos <> None ->
  nextInst (moveAfter moved pos f) pos = Some moved.
Proof.
  intros Hne Hf. unfold moveAfter.
  apply Nat.eqb_neq in Hne. rewrite Hne. apply Nat.eqb_neq in Hne.
  apply nextInst_insertAfter.
  now rewrite findInst_eraseFromParent_other.
Qed.

(* ----------------------------------------------------------------- *)
(** ** The scope extender *)

Section ScopeExtender.

Variable f : SILFunction.
Variable aa : AliasAnalysis.
Variable copySrc : SILValue.
Variable lastUseInst : SILInstruction.

Local Abbreviation candidate := (isRelocationCandidate f aa copySrc).
Local Abbreviation loop := (extendLoop f aa copySrc lastUseInst).

Lemma candidate_isEndAccess i : candidate i = true -> isEndAccess i = true.
Proof. unfold isRelocationCandidate. now intros [H _]%andb_true_iff. Qed.

(** Once an end_access is selected, any further end_access fails. *)
Lemma loop_selected_end_access insts : forall ea toMove,
  In ea insts -> isEndAccess ea = true -> loop insts (Some toMove) = None.
Proof.
  induction insts as [|a insts IH]; intros ea toMove Hin Hea; [destruct Hin|].
  simpl. destruct Hin as [->|Hin].
  - now rewrite Hea.
  - destruct (isEndAccess a); [reflexivity|]. destruct toMove as [m s].
    destruct (isBeginAccess a || isBeginUnpairedAccess a); [reflexivity|].
    destruct (mayWriteToMemory aa a s); [reflexivity|]. eauto.
Qed.

(** What the first visit of an end_access does with nothing selected. *)
Lemma loop_visit_end_access a rest :
  isEndAccess a = true ->
  loop (a :: rest) None =
    if candidate a
    then if isTermInst lastUseInst then None
         else match getBeginAccess f a with
              | Some (source, _) => loop rest (Some (a, source))
              | None => None
              end
    else loop rest None.
Proof.
  intros Hea. simpl. unfold isRelocationCandidate. rewrite Hea. simpl.
  destruct (getBeginAccess f a) as [[s k]|]; [|reflexivity].
  destruct (negb (isNoAlias aa copySrc s) && SILAccessKind_eqb k AccessRead);
    reflexivity.
Qed.

Lemma loop_visit_other a rest :
  isEndAccess a = false -> loop (a :: rest) None = loop rest None.
Proof. intros Hea. simpl. now rewrite Hea. Qed.

Lemma loop_two_candidates pre : forall ea1 rest ea2 st,
  candidate ea1 = true -> In ea2 rest -> isEndAccess ea2 = true ->
  loop (pre ++ ea1 :: rest) st = None.
Proof.
  induction pre as [|a pre IH]; intros ea1 rest ea2 st H1 Hin H2.
  - destruct st as [toMove|].
    + eapply loop_selected_end_access; [now left|now apply candidate_isEndAccess].
    + simpl app. rewrite loop_visit_end_access by now apply candidate_isEndAccess.
      rewrite H1. destruct (isTermInst lastUseInst); [reflexivity|].
      destruct (getBeginAccess f ea1) as [[s k]|]; [|reflexivity].
      eapply loop_selected_end_access; eassumption.
  - destruct st as [toMove|].
    + eapply loop_selected_end_access with (ea := ea1).
      * right. apply in_or_app. right. now left.
      * now apply candidate_isEndAccess.
    + simpl app. destruct (isEndAccess a) eqn:Ea.
      * rewrite loop_visit_end_access by assumption.
        destruct (candidate a); [|eauto].
        destruct (isTermInst lastUseInst); [reflexivity|].
        destruct (getBeginAccess f a) as [[s k]|]; [|reflexivity]. eauto.
      * rewrite loop_visit_other by assumption. eauto.
Qed.

Lemma loop_candidate_terminator insts : forall ea st,
  isTermInst lastUseInst = true -> In ea insts -> candidate ea = true ->
  loop insts st = None.
Proof.
  induction insts as [|a insts IH]; intros ea st Ht Hin Hc; [destruct Hin|].
  destruct st as [toMove|].
  - eapply loop_selected_end_access; [eassumption|now apply candidate_isEndAccess].
  - destruct (isEndAccess a) eqn:Ea.
    + rewrite loop_visit_end_access by assumption. rewrite Ht.
      destruct (candidate a) eqn:Ca; [reflexivity|].
      destruct Hin as [->|Hin]; [congruence|eauto].
    + rewrite loop_visit_other by assumption.
      destruct Hin as [->|Hin]; [|eauto].
      apply candidate_isEndAccess in Hc. congruence.
Qed.

(** With an end_access selected, the loop can only keep it. *)
Lemma loop_selected_result insts : forall toMove r,
  loop insts (Some toMove) = Some r ->
  r = Some toMove /\ forall i, In i insts -> isEndAccess i = false.
Proof.
  induction insts as [|a insts IH]; intros toMove r.
  - simpl. intros [= <-]. split; [reflexivity|intros i []].
  - simpl. destruct (isEndAccess a) eqn:Ea; [discriminate|].
    destruct toMove as [m s].
    destruct (isBeginAccess a || isBeginUnpairedAccess a); [discriminate|].
    destruct (mayWriteToMemory aa a s); [discriminate|].
    intros H. apply IH in H. destruct H as [-> H]. split; [reflexivity|].
    intros i [<-|Hi]; auto.
Qed.

(** The successful runs of the loop: nothing selected and no candidate in
    the range, or exactly one candidate, which is the selected one. *)
Lemma loop_success insts : forall r,
  loop insts None = Some r ->
  (r = None /\ forall i, In i insts -> candidate i = false) \/
  (exists pre ea source post,
      insts = pre ++ ea :: post /\ r = Some (ea, source) /\
      candidate ea = true /\ isTermInst lastUseInst = false /\
      (forall i, In i pre -> candidate i = false) /\
      (forall i, In i post -> isEndAccess i = false)).
Proof.
  induction insts as [|a insts IH]; intros r.
  - simpl. intros [= <-]. left. split; [reflexivity|intros i []].
  - destruct (isEndAccess a) eqn:Ea.
    + rewrite loop_visit_end_access by assumption.
      destruct (candidate a) eqn:Ca.
      * destruct (isTermInst lastUseInst) eqn:Ht; [discriminate|].
        destruct (getBeginAccess f a) as [[s k]|]; [|discriminate].
        intros H. apply loop_selected_result in H. destruct H as [-> H].
        right. exists [], a, s, insts. repeat split; auto. intros i [].
      * intros H. apply IH in H.
        destruct H as [[-> H]|(pre & ea & s & post & -> & -> & Hc & Ht & Hpre & Hpost)].
        -- left. split; [reflexivity|]. intros i [<-|Hi]; auto.
        -- right. exists (a :: pre), ea, s, post. repeat split; auto.
           intros i [<-|Hi]; auto.
    + rewrite loop_visit_other by assumption.
      assert (Ca : candidate a = false).
      { unfold isRelocationCandidate. now rewrite Ea. }
      intros H. apply IH in H.
      destruct H as [[-> H]|(pre & ea & s & post & -> & -> & Hc & Ht & Hpre & Hpost)].
      * left. split; [reflexivity|]. intros i [<-|Hi]; auto.
      * right. exists (a :: pre), ea, s, post. repeat split; auto.
        intros i [<-|Hi]; auto.
Qed.

End ScopeExtender.

(* ----------------------------------------------------------------- *)
(** ** Use lists *)

Lemma operandsFrom_In b i v ops : forall n u,
  In u (operandsFrom n b i v ops) ->
  opUser u = i /\ opBlock u = b /\ opValue u = v /\
  n <= opIndex u /\ nth_error ops (opIndex u - n) = Some v.
Proof.
  induction ops as [|x ops IH]; intros n u; [intros []|].
  simpl. intros [H|H]%in_app_or.
  - destruct (SILValue_eqb x v) eqn:E; [|destruct H].
    destruct H as [<-|[]]. simpl. rewrite Nat.sub_diag. simpl.
    apply SILValue_eqb_eq in E. subst. auto.
  - apply IH in H. destruct H as (-> & -> & -> & Hle & Hn).
    repeat split; auto; [lia|].
    replace (opIndex u - n) with (S (opIndex u - S n)) by lia. exact Hn.
Qed.

Lemma usesInBlocks_In v bs : forall b0 u,
  In u (usesInBlocks b0 v bs) ->
  b0 <= opBlock u /\ In (opUser u) (nth (opBlock u - b0) bs []) /\
  opValue u = v /\
  nth_error (getAllOperands (instKind (opUser u))) (opIndex u) = Some v.
Proof.
  induction bs as [|blk bs IH]; intros b0 u; [intros []|].
  simpl. intros [H|H]%in_app_or.
  - apply in_flat_map in H. destruct H as (i & Hi & H).
    apply operandsFrom_In in H. destruct H as (-> & -> & -> & _ & H).
    rewrite Nat.sub_0_r in H. rewrite Nat.sub_diag. auto.
  - apply IH in H. destruct H as (Hle & Hin & Hv & Hn).
    repeat split; auto; [lia|].
    replace (opBlock u - b0) with (S (opBlock u - S b0)) by lia. exact Hin.
Qed.

(** What a member of a use list is. *)
Lemma getUses_In f v u :
  In u (getUses f v) ->
  In (opUser u) (getBlock f (opBlock u)) /\ opValue u = v /\
  nth_error (getAllOperands (instKind (opUser u))) (opIndex u) = Some v.
Proof.
  intros H. apply usesInBlocks_In in H. rewrite Nat.sub_0_r in H.
  destruct H as (_ & H). exact H.
Qed.

Lemma getUses_operand f v u :
  In u (getUses f v) -> In v (getAllOperands (instKind (opUser u))).
Proof.
  intros H. apply getUses_In in H. destruct H as (_ & _ & H).
  eapply nth_error_In; eassumption.
Qed.

(* ----------------------------------------------------------------- *)
(** ** The scan of the temporary's uses *)

(** Every other use of a successfully scanned temporary was accepted by
    the use collector. *)
Lemma scanTempUses_collected fuel f copyInst isOSSA needFinalDeinit uses :
  forall loadInsts userSet r,
  scanTempUses fuel f copyInst isOSSA needFinalDeinit uses loadInsts userSet
    = Some (Some r) ->
  forall u, In u uses ->
    instId (opUser u) <> instId (caInst copyInst) ->
    isDeallocStack (opUser u) = false -> isDestroyAddr (opUser u) = false ->
    exists l0 l1, collectLoads fuel f copyInst u l0 = Some (true, l1).
Proof.
  induction uses as [|a uses IH]; intros loadInsts userSet r Hs u Hin Hne Hda Hde;
    [destruct Hin|].
  simpl in Hs. destruct Hin as [->|Hin].
  - apply Nat.eqb_neq in Hne. rewrite Hne, Hda, Hde in Hs.
    destruct (collectLoads fuel f copyInst u loadInsts) as [[[|] l]|] eqn:E;
      try discriminate. eauto.
  - destruct (instId (opUser a) =? instId (caInst copyInst)); [eauto|].
    destruct (isDeallocStack (opUser a)); [eauto|].
    destruct (isDestroyAddr (opUser a)).
    + destruct (negb isOSSA && needFinalDeinit); [|eauto].
      destruct (negb (opBlock a =? caParent copyInst)); [discriminate|eauto].
    + destruct (collectLoads fuel f copyInst a loadInsts) as [[[|] l]|];
        try discriminate. eauto.
Qed.

(** An accepted copy_addr use does not write into the address. *)
Lemma collectLoads_copy_reads fuel f copyInst u l0 l1 src dest isTake isInit :
  collectLoads fuel f copyInst u l0 = Some (true, l1) ->
  instKind (opUser u) = CopyAddrInst src dest isTake isInit ->
  dest <> opValue u.
Proof.
  destruct fuel as [|fuel]; [discriminate|]. simpl.
  destruct (negb (opBlock u =? caParent copyInst)); [discriminate|].
  intros H Hk. rewrite Hk in H.
  destruct (SILValue_eqb dest (opValue u)) eqn:E; [discriminate|].
  now apply SILValue_eqb_neq.
Qed.


(* ----------------------------------------------------------------- *)
(** ** The destroy-pattern validator *)



(* ----------------------------------------------------------------- *)
(** ** The copy rewriter, stage by stage *)

Lemma extendAccessScopes_failure c lastLoadInst aa f :
  fst (extendAccessScopes c lastLoadInst aa f) = false ->
  extendAccessScopes c lastLoadInst aa f = (false, f).
Proof.
  unfold extendAccessScopes.
  destruct (extendLoop _ _ _ _ _ _) as [[[ea s]|]|]; simpl; congruence.
Qed.

(** The rewriter as one cascade of its stages. *)
Lemma tryOptimizeCopyIntoTemp_stages accessBase computeFrontier aa copyId f :
  tryOptimizeCopyIntoTemp accessBase computeFrontier aa copyId f =
  match asCopyAddr f copyId with
  | None => Some (Returned, f)
  | Some c =>
    if negb (caIsInitializationOfDest c) then Some (Returned, f) else
    match asAllocStack f (caDest c) with
    | None => Some (Returned, f)
    | Some (tempObj, isLexical, _) =>
      if lexicalGuardFails accessBase f isLexical (caSrc c) then Some (Returned, f) else
      match scanTempUses (collectFuel f) f c (hasOwnership f) (caIsTakeOfSrc c)
                         (getUses f (InstResult (instId tempObj))) [] [] with
      | None => None
      | Some None => Some (Returned, f)
      | Some (Some (loadInsts, userSet)) =>
        if userPrecedesCopy f c userSet then Some (Returned, f) else
        match getLastUseWhileSourceIsNotModified f c loadInsts aa with
        | None => Some (Returned, f)
        | Some lastLoadInst =>
          if reinitGuardFails aa (caIsTakeOfSrc c) c lastLoadInst
          then Some (Returned, f) else
          if negb (hasOwnership f)
             && negb (checkTempObjectDestroy computeFrontier f tempObj c)
          then Some (Returned, f) else
          if fst (extendAccessScopes c lastLoadInst aa f)
          then commitCopy c tempObj (caIsTakeOfSrc c) lastLoadInst
                          (snd (extendAccessScopes c lastLoadInst aa f))
          else Some (Returned, snd (extendAccessScopes c lastLoadInst aa f))
        end
      end
    end
  end.
Proof.
  unfold tryOptimizeCopyIntoTemp, bind, getFunction, orReturn, returnIf, ret, returnVoid.
  destruct (asCopyAddr f copyId) as [c|]; [|reflexivity].
  destruct (negb (caIsInitializationOfDest c)); [reflexivity|].
  destruct (asAllocStack f (caDest c)) as [[[tempObj isLexical] dyn]|]; [|reflexivity].
  destruct (lexicalGuardFails accessBase f isLexical (caSrc c)); [reflexivity|].
  destruct (scanTempUses _ _ _ _ _ _ _ _) as [[[loadInsts userSet]|]|]; try reflexivity.
  destruct (userPrecedesCopy f c userSet); [reflexivity|].
  destruct (getLastUseWhileSourceIsNotModified f c loadInsts aa) as [lastLoadInst|];
    [|reflexivity].
  destruct (reinitGuardFails aa (caIsTakeOfSrc c) c lastLoadInst); [reflexivity|].
  destruct (negb (hasOwnership f) && negb (checkTempObjectDestroy computeFrontier f tempObj c));
    [reflexivity|].
  destruct (fst (extendAccessScopes c lastLoadInst aa f)); reflexivity.
Qed.

(** A disqualified candidate makes the rewriter return at once. *)
Lemma disqualified_returns (accessBase : AccessBaseOracle)
  (computeFrontier : FrontierOracle) (aa : AliasAnalysis) (f : SILFunction)
  (copyId : InstId) :
  Disqualified accessBase computeFrontier aa f copyId ->
  tryOptimizeCopyIntoTemp accessBase computeFrontier aa copyId f = Some (Returned, f).
Proof.
  intros D. rewrite tryOptimizeCopyIntoTemp_stages.
  destruct D as
    [ c Hc Hi | c Hc Ht | c t lex dyn Hc Ht Hl | c t lex dyn Hc Ht Hs
    | c t lex dyn l us Hc Ht Hs Ho | c t lex dyn l us Hc Ht Hs Hb
    | c t lex dyn l us last Hc Ht Hs Hb Hr | c t lex dyn l us last Hc Ht Hs Hb Hm Hd
    | c t lex dyn l us last Hc Ht Hs Hb He ];
    rewrite Hc; destruct (negb (caIsInitializationOfDest c)) eqn:Ei;
    try reflexivity.
  - now rewrite Hi in Ei.
  - now rewrite Ht.
  - now rewrite Ht, Hl.
  - rewrite Ht. destruct (lexicalGuardFails _ _ _ _); [reflexivity|]. now rewrite Hs.
  - rewrite Ht. destruct (lexicalGuardFails _ _ _ _); [reflexivity|].
    now rewrite Hs, Ho.
  - rewrite Ht. destruct (lexicalGuardFails _ _ _ _); [reflexivity|].
    rewrite Hs. destruct (userPrecedesCopy _ _ _); [reflexivity|]. now rewrite Hb.
  - rewrite Ht. destruct (lexicalGuardFails _ _ _ _); [reflexivity|].
    rewrite Hs. destruct (userPrecedesCopy _ _ _); [reflexivity|].
    now rewrite Hb, Hr.
  - rewrite Ht. destruct (lexicalGuardFails _ _ _ _); [reflexivity|].
    rewrite Hs. destruct (userPrecedesCopy _ _ _); [reflexivity|].
    rewrite Hb. destruct (reinitGuardFails _ _ _ _); [reflexivity|].
    now rewrite Hm, Hd.
  - rewrite Ht. destruct (lexicalGuardFails _ _ _ _); [reflexivity|].
    rewrite Hs. destruct (userPrecedesCopy _ _ _); [reflexivity|].
    rewrite Hb. destruct (reinitGuardFails _ _ _ _); [reflexivity|].
    destruct (negb (hasOwnership f) && negb _); [reflexivity|].
    rewrite He. now rewrite (extendAccessScopes_failure _ _ _ _ He).
Qed.

(** When every check passes the rewriter is its commit. *)
Lemma commits_runs_commit accessBase computeFrontier aa f copyId c tempObj lastLoadInst f1 :
  Commits accessBase computeFrontier aa f copyId c tempObj lastLoadInst f1 ->
  tryOptimizeCopyIntoTemp accessBase computeFrontier aa copyId f
  = commitCopy c tempObj (caIsTakeOfSrc c) lastLoadInst f1.
Proof.
  intros [Hc Hi (lex & dyn & Ht & Hl) (l & us & Hs & Ho & Hb) Hr Hd He].
  rewrite tryOptimizeCopyIntoTemp_stages, Hc, Hi, Ht, Hl, Hs, Ho, Hb, Hr, He.
  simpl.
  destruct Hd as [-> | ->]; simpl; [reflexivity|].
  now rewrite andb_false_r.
Qed.

(** The rewriter either returns with the function untouched, commits, or
    (when the collector's fuel is exhausted) has no result. *)
Lemma tryOptimizeCopyIntoTemp_outcomes accessBase computeFrontier aa copyId f :
  tryOptimizeCopyIntoTemp accessBase computeFrontier aa copyId f = Some (Returned, f) \/
  tryOptimizeCopyIntoTemp accessBase computeFrontier aa copyId f = None \/
  exists c tempObj lastLoadInst f1,
    Commits accessBase computeFrontier aa f copyId c tempObj lastLoadInst f1.
Proof.
  rewrite tryOptimizeCopyIntoTemp_stages.
  destruct (asCopyAddr f copyId) as [c|] eqn:Hc; [|now left].
  destruct (caIsInitializationOfDest c) eqn:Hi; [|now left]. simpl.
  destruct (asAllocStack f (caDest c)) as [[[tempObj isLexical] dyn]|] eqn:Ht; [|now left].
  destruct (lexicalGuardFails accessBase f isLexical (caSrc c)) eqn:Hl; [now left|].
  destruct (scanTempUses _ _ _ _ _ _ _ _) as [[[loadInsts userSet]|]|] eqn:Hs;
    [|now left|right; now left].
  destruct (userPrecedesCopy f c userSet) eqn:Ho; [now left|].
  destruct (getLastUseWhileSourceIsNotModified f c loadInsts aa) as [lastLoadInst|] eqn:Hb;
    [|now left].
  destruct (reinitGuardFails aa (caIsTakeOfSrc c) c lastLoadInst) eqn:Hr; [now left|].
  destruct (negb (hasOwnership f) && negb (checkTempObjectDestroy computeFrontier f tempObj c))
    eqn:Hd; [now left|].
  destruct (extendAccessScopes c lastLoadInst aa f) as [[|] f1] eqn:He; simpl.
  - right. right. exists c, tempObj, lastLoadInst, f1.
    constructor.
    + exact Hc.
    + exact Hi.
    + exists isLexical, dyn. split; assumption.
    + exists loadInsts, userSet. repeat split; assumption.
    + exact Hr.
    + apply andb_false_iff in Hd. destruct Hd as [Hd|Hd].
      * left. now apply negb_false_iff.
      * right. now apply negb_false_iff.
    + exact He.
  - left. pose proof (extendAccessScopes_failure c lastLoadInst aa f) as X.
    rewrite He in X. simpl in X. specialize (X eq_refl). congruence.
Qed.

(** C7. A candidate copy that fails any of the checks (initialization flag,
    stack destination, lexical guard, use collection, ordering, boundary,
    re-initialization guard, destroy pattern, scope extension) makes the
    rewriter return with the function exactly as it was: nothing is
    inserted, erased, moved or redirected. *)
Theorem disqualified_leaves_function_unmodified (accessBase : AccessBaseOracle)
  (computeFrontier : FrontierOracle) (aa : AliasAnalysis) (f : SILFunction)
  (copyId : InstId) :
  Disqualified accessBase computeFrontier aa f copyId ->
  tryOptimizeCopyIntoTemp accessBase computeFrontier aa copyId f = Some (Returned, f) /\
  execPass (tryOptimizeCopyIntoTemp accessBase computeFrontier aa copyId) f = Some f.
Proof.
  intros D. unfold execPass.
  rewrite (disqualified_returns _ _ _ _ _ D). auto.
Qed.


(* ----------------------------------------------------------------- *)
(** ** Operand rewriting *)

Lemma map_fst_mapArgsFrom g a : forall n,
  map fst (mapArgsFrom n g a) = mapValuesFrom n g (map fst a).
Proof.
  induction a as [|[v c] a IH]; intros n; [reflexivity|].
  simpl. now rewrite IH.
Qed.

Lemma mapValuesFrom_app g l1 l2 : forall n,
  mapValuesFrom n g (l1 ++ l2)
  = mapValuesFrom n g l1 ++ mapValuesFrom (n + length l1) g l2.
Proof.
  induction l1 as [|v l1 IH]; intros n; simpl.
  - now rewrite Nat.add_0_r.
  - rewrite IH. now rewrite Nat.add_succ_r.
Qed.

Lemma length_mapValuesFrom g l : forall n, length (mapValuesFrom n g l) = length l.
Proof. induction l as [|v l IH]; intros n; simpl; [reflexivity|now rewrite IH]. Qed.

Lemma getAllOperands_mapOperands g k :
  getAllOperands (mapOperands g k) = mapValuesFrom 0 g (getAllOperands k).
Proof.
  destruct k; simpl; try reflexivity; try apply map_fst_mapArgsFrom.
  now rewrite mapValuesFrom_app.
Qed.

Lemma mapValuesFrom_ext g g' l : forall n,
  (forall m v, nth_error l m = Some v -> g (n + m) v = g' (n + m) v) ->
  mapValuesFrom n g l = mapValuesFrom n g' l.
Proof.
  induction l as [|x l IH]; intros n H; [reflexivity|]. simpl. f_equal.
  - specialize (H 0 x eq_refl). now rewrite Nat.add_0_r in H.
  - apply IH. intros m v Hm. specialize (H (S m) v Hm).
    now rewrite Nat.add_succ_r in H.
Qed.

Lemma mapArgsFrom_ext g g' a : forall n,
  (forall m v, nth_error (map fst a) m = Some v -> g (n + m) v = g' (n + m) v) ->
  mapArgsFrom n g a = mapArgsFrom n g' a.
Proof.
  induction a as [|[x c] a IH]; intros n H; [reflexivity|]. simpl. f_equal.
  - f_equal. specialize (H 0 x eq_refl). now rewrite Nat.add_0_r in H.
  - apply IH. intros m v Hm. specialize (H (S m) v Hm).
    now rewrite Nat.add_succ_r in H.
Qed.

(** Two operand rewritings that agree on the operands present agree. *)
Lemma mapOperands_ext g g' k :
  (forall n v, nth_error (getAllOperands k) n = Some v -> g n v = g' n v) ->
  mapOperands g k = mapOperands g' k.
Proof.
  intros H.
  destruct k; simpl in *; try reflexivity;
    try (f_equal; solve [ apply (H 0); reflexivity | apply (H 1); reflexivity
                        | apply mapArgsFrom_ext; intros m v Hm; now apply H
                        | apply mapValuesFrom_ext; intros m v Hm; now apply H ]).
  f_equal.
  - apply mapValuesFrom_ext. intros m v Hm. apply H. simpl.
    rewrite nth_error_app1; [assumption|].
    apply nth_error_Some. rewrite Hm. discriminate.
  - apply mapValuesFrom_ext. intros m v Hm. apply H.
    rewrite nth_error_app2 by lia.
    now replace (length operands + m - length operands) with m by lia.
Qed.

Lemma mapValuesFrom_compose g1 g2 l : forall n,
  mapValuesFrom n g1 (mapValuesFrom n g2 l)
  = mapValuesFrom n (fun i v => g1 i (g2 i v)) l.
Proof. induction l as [|x l IH]; intros n; simpl; [reflexivity|now rewrite IH]. Qed.

Lemma mapArgsFrom_compose g1 g2 a : forall n,
  mapArgsFrom n g1 (mapArgsFrom n g2 a)
  = mapArgsFrom n (fun i v => g1 i (g2 i v)) a.
Proof.
  induction a as [|[x c] a IH]; intros n; simpl; [reflexivity|now rewrite IH].
Qed.

Lemma mapOperands_compose g1 g2 k :
  mapOperands g1 (mapOperands g2 k) = mapOperands (fun n v => g1 n (g2 n v)) k.
Proof.
  destruct k; simpl; try reflexivity;
    try (now rewrite mapArgsFrom_compose); try (now rewrite mapValuesFrom_compose).
  now rewrite length_mapValuesFrom, !mapValuesFrom_compose.
Qed.

Lemma mapValuesFrom_id l : forall n, mapValuesFrom n (fun _ v => v) l = l.
Proof. induction l as [|x l IH]; intros n; simpl; [reflexivity|now rewrite IH]. Qed.

Lemma mapArgsFrom_id a : forall n, mapArgsFrom n (fun _ v => v) a = a.
Proof.
  induction a as [|[x c] a IH]; intros n; simpl; [reflexivity|now rewrite IH].
Qed.

Lemma mapOperands_id k : mapOperands (fun _ v => v) k = k.
Proof.
  destruct k; simpl; try reflexivity;
    now rewrite ?mapArgsFrom_id, ?mapValuesFrom_id.
Qed.

(** Substituting a value that is no operand changes nothing. *)
Lemma substValue_absent old new k :
  ~ In old (getAllOperands k) -> substValue old new k = k.
Proof.
  intros H. unfold substValue.
  rewrite <- (mapOperands_id k) at 2. apply mapOperands_ext.
  intros n v Hn. destruct (SILValue_eqb v old) eqn:E; [|reflexivity].
  apply SILValue_eqb_eq in E. subst. exfalso. apply H.
  eapply nth_error_In; eassumption.
Qed.

(** Redirecting one use and then all of them is redirecting all of them. *)
Lemma substValue_setOperand old new idx k :
  nth_error (getAllOperands k) idx = Some old ->
  substValue old new (setOperand idx new k) = substValue old new k.
Proof.
  intros H. unfold substValue, setOperand. rewrite mapOperands_compose.
  apply mapOperands_ext. intros n v Hn.
  destruct (n =? idx) eqn:E; [|reflexivity].
  apply Nat.eqb_eq in E. subst. rewrite H in Hn. injection Hn as <-.
  rewrite SILValue_eqb_refl. destruct (SILValue_eqb new old); reflexivity.
Qed.

(* ----------------------------------------------------------------- *)
(** ** Edits compose *)

Lemma expandInsts_compose h1 h2 f :
  expandInsts h2 (expandInsts h1 f) = expandInsts (fun i => flat_map h2 (h1 i)) f.
Proof.
  unfold expandInsts. simpl. f_equal. rewrite map_map.
  apply map_ext. intros blk.
  induction blk as [|i blk IH]; [reflexivity|].
  simpl. now rewrite flat_map_app, IH.
Qed.

Lemma In_allInsts f i : In i (allInsts f) <-> exists blk, In blk (blocks f) /\ In i blk.
Proof.
  unfold allInsts. rewrite in_concat. split; intros (blk & H1 & H2); eauto.
Qed.

Lemma getBlock_allInsts f b i : In i (getBlock f b) -> In i (allInsts f).
Proof.
  unfold getBlock. intros H. apply In_allInsts.
  destruct (Nat.lt_ge_cases b (length (blocks f))) as [Hlt|Hge].
  - exists (nth b (blocks f) []). split; [now apply nth_In|assumption].
  - rewrite nth_overflow in H by assumption. destruct H.
Qed.

Lemma expandInsts_ext_in h1 h2 f :
  (forall i, In i (allInsts f) -> h1 i = h2 i) -> expandInsts h1 f = expandInsts h2 f.
Proof.
  intros H. unfold expandInsts. f_equal.
  apply map_ext_in. intros blk Hblk.
  assert (G : forall l, (forall i, In i l -> h1 i = h2 i) ->
                        flat_map h1 l = flat_map h2 l).
  { induction l as [|i l IH]; intros Hl; [reflexivity|].
    simpl. rewrite IH by (intros j Hj; apply Hl; now right).
    f_equal. apply Hl. now left. }
  apply G. intros i Hi. apply H. apply In_allInsts. eauto.
Qed.

Lemma expandInsts_id f : expandInsts (fun i => [i]) f = f.
Proof.
  unfold expandInsts. destruct f as [o bs]. simpl. f_equal.
  rewrite <- (map_id bs) at 2. apply map_ext. intros blk.
  induction blk as [|i blk IH]; [reflexivity|]. simpl. now rewrite IH.
Qed.

Lemma hasOwnership_expand h f : hasOwnership (expandInsts h f) = hasOwnership f.
Proof. reflexivity. Qed.

(** Instructions of one identity are one instruction. *)
Lemma uniqueIds_eq f a b :
  uniqueIds f -> In a (allInsts f) -> In b (allInsts f) ->
  instId a = instId b -> a = b.
Proof.
  unfold uniqueIds. generalize (allInsts f) as l.
  induction l as [|x l IH]; intros Hnd Ha Hb E; [destruct Ha|].
  simpl in Hnd. apply NoDup_cons_iff in Hnd. destruct Hnd as [Hx Hnd].
  destruct Ha as [->|Ha], Hb as [->|Hb]; auto.
  - exfalso. apply Hx. rewrite E. now apply in_map.
  - exfalso. apply Hx. rewrite <- E. now apply in_map.
Qed.

(* ----------------------------------------------------------------- *)
(** ** Counting uses *)

Lemma length_usesInBlocks v bs : forall b,
  length (usesInBlocks b v bs) = countUses v (concat bs).
Proof.
  assert (Hb : forall b n i ops,
             length (operandsFrom n b i v ops) = length (operandsFrom n 0 i v ops)).
  { intros b n i ops. revert n.
    induction ops as [|x ops IH]; intros n; [reflexivity|].
    simpl. rewrite !length_app, IH. now destruct (SILValue_eqb x v). }
  assert (Hf : forall b blk, length (flat_map (usesInInst b v) blk) = countUses v blk).
  { intros b blk. unfold countUses.
    induction blk as [|i blk IH]; [reflexivity|].
    simpl. rewrite length_app, IH. f_equal. apply Hb. }
  induction bs as [|blk bs IH]; intros b; [reflexivity|].
  simpl. rewrite length_app, Hf, IH. unfold countUses.
  now rewrite map_app, list_sum_app.
Qed.

Lemma length_getUses f v : length (getUses f v) = countUses v (allInsts f).
Proof. apply length_usesInBlocks. Qed.

Lemma countUses_cons v i l :
  countUses v (i :: l) = length (usesInInst 0 v i) + countUses v l.
Proof. reflexivity. Qed.

Lemma countUses_app v l1 l2 : countUses v (l1 ++ l2) = countUses v l1 + countUses v l2.
Proof. unfold countUses. now rewrite map_app, list_sum_app. Qed.

Lemma countUses_flat_map v (h : SILInstruction -> list SILInstruction) l :
  countUses v (flat_map h l) = list_sum (map (fun i => countUses v (h i)) l).
Proof.
  induction l as [|i l IH]; [reflexivity|].
  simpl. now rewrite countUses_app, IH.
Qed.

Lemma length_operandsFrom_zero b i v ops : forall n,
  length (operandsFrom n b i v ops) = 0 <-> ~ In v ops.
Proof.
  induction ops as [|x ops IH]; intros n; simpl.
  - split; auto.
  - rewrite length_app. destruct (SILValue_eqb x v) eqn:E.
    + apply SILValue_eqb_eq in E. subst. simpl. split; [discriminate|].
      intros H. exfalso. apply H. now left.
    + apply SILValue_eqb_neq in E. simpl. rewrite IH. split.
      * intros H [H1|H1]; auto.
      * intros H H1. apply H. now right.
Qed.

Lemma countUses_zero v l :
  countUses v l = 0 <-> forall i, In i l -> ~ In v (getAllOperands (instKind i)).
Proof.
  induction l as [|i l IH].
  - split; [intros _ i []|reflexivity].
  - rewrite countUses_cons. split.
    + intros H j [<-|Hj].
      * apply (length_operandsFrom_zero 0 i v _ 0). unfold usesInInst in H. lia.
      * apply IH; [lia|assumption].
    + intros H. assert (H1 : length (usesInInst 0 v i) = 0).
      { apply length_operandsFrom_zero. apply H. now left. }
      rewrite H1. apply IH. intros j Hj. apply H. now right.
Qed.

Lemma getUses_nil f v :
  getUses f v = [] <-> forall i, In i (allInsts f) -> ~ In v (getAllOperands (instKind i)).
Proof.
  rewrite <- countUses_zero, <- length_getUses. split.
  - intros ->. reflexivity.
  - apply length_zero_iff_nil.
Qed.

(** Redirecting one operand that is [v] to another value removes one use. *)
Lemma length_operandsFrom_set b i i' v new ops idx : forall n,
  nth_error ops idx = Some v -> new <> v ->
  S (length (operandsFrom n b i' v
               (mapValuesFrom n (fun m old => if m =? n + idx then new else old) ops)))
  = length (operandsFrom n b i v ops).
Proof.
  revert idx. induction ops as [|x ops IH]; intros idx n Hn Hne.
  - destruct idx; discriminate.
  - simpl. rewrite !length_app. destruct idx as [|idx].
    + simpl in Hn. injection Hn as ->.
      rewrite Nat.add_0_r, Nat.eqb_refl, SILValue_eqb_refl.
      apply SILValue_eqb_neq in Hne. rewrite Hne. simpl. f_equal.
      assert (E : mapValuesFrom (S n) (fun m old => if m =? n then new else old) ops = ops).
      { rewrite <- (mapValuesFrom_id ops (S n)) at 2.
        apply mapValuesFrom_ext. intros m w _.
        replace (S n + m =? n) with false; [reflexivity|].
        symmetry. apply Nat.eqb_neq. lia. }
      rewrite E. clear. revert n.
      assert (G : forall k, length (operandsFrom k b i' v ops)
                            = length (operandsFrom k b i v ops)).
      { induction ops as [|y ops IH]; intros k; [reflexivity|].
        simpl. rewrite !length_app, IH. now destruct (SILValue_eqb y v). }
      intros n. apply G.
    + simpl in Hn.
      replace (n =? n + S idx) with false by (symmetry; apply Nat.eqb_neq; lia).
      specialize (IH idx (S n) Hn Hne).
      replace (mapValuesFrom (S n) (fun m old => if m =? n + S idx then new else old) ops)
        with (mapValuesFrom (S n) (fun m old => if m =? S n + idx then new else old) ops).
      * rewrite <- IH. destruct (SILValue_eqb x v); simpl; lia.
      * apply mapValuesFrom_ext. intros m w _.
        now replace (n + S idx) with (S n + idx) by lia.
Qed.

Lemma usesInInst_setOperand v new i idx :
  nth_error (getAllOperands (instKind i)) idx = Some v -> new <> v ->
  S (length (usesInInst 0 v (mkInst (instId i) (setOperand idx new (instKind i)))))
  = length (usesInInst 0 v i).
Proof.
  intros Hn Hne. unfold usesInInst, setOperand. simpl.
  rewrite getAllOperands_mapOperands.
  now apply (length_operandsFrom_set 0 i _ v new _ idx 0).
Qed.

(* ----------------------------------------------------------------- *)
(** ** One edit at one instruction *)

Lemma updateInst_twice id g1 g2 f :
  updateInst id g2 (updateInst id g1 f) = updateInst id (fun k => g2 (g1 k)) f.
Proof.
  unfold updateInst. rewrite expandInsts_compose. apply expandInsts_ext_in.
  intros i _. destruct (instId i =? id) eqn:E; simpl; rewrite ?E; reflexivity.
Qed.

Lemma ids_updateInst id g f :
  map instId (allInsts (updateInst id g f)) = map instId (allInsts f).
Proof.
  unfold updateInst. rewrite allInsts_expand.
  induction (allInsts f) as [|i l IH]; [reflexivity|].
  simpl. rewrite map_app, IH. now destruct (instId i =? id).
Qed.

Lemma ids_eraseFromParent id f :
  map instId (allInsts (eraseFromParent id f))
  = filter (fun x => negb (x =? id)) (map instId (allInsts f)).
Proof.
  unfold eraseFromParent. rewrite allInsts_expand.
  induction (allInsts f) as [|i l IH]; [reflexivity|].
  simpl. rewrite map_app, IH. now destruct (instId i =? id).
Qed.

Lemma uniqueIds_updateInst id g f : uniqueIds f -> uniqueIds (updateInst id g f).
Proof. unfold uniqueIds. now rewrite ids_updateInst. Qed.

Lemma uniqueIds_eraseFromParent id f : uniqueIds f -> uniqueIds (eraseFromParent id f).
Proof. unfold uniqueIds. rewrite ids_eraseFromParent. apply NoDup_filter. Qed.

Section OneEdit.

Variable H : SILInstruction -> list SILInstruction.
Variable f : SILFunction.
Variable user : SILInstruction.
Hypothesis unique : uniqueIds f.
Hypothesis present : In user (allInsts f).

(** An update of [user] that its image under [H] does not see. *)
Lemma expand_after_update g :
  H (mkInst (instId user) (g (instKind user))) = H user ->
  expandInsts H (updateInst (instId user) g f) = expandInsts H f.
Proof.
  intros E. unfold updateInst. rewrite expandInsts_compose.
  apply expandInsts_ext_in. intros i Hi.
  destruct (instId i =? instId user) eqn:Ei; simpl; [|apply app_nil_r].
  apply Nat.eqb_eq in Ei.
  rewrite (uniqueIds_eq f i user unique Hi present Ei), E. apply app_nil_r.
Qed.

Lemma expand_after_erase :
  H user = [] -> expandInsts H (eraseFromParent (instId user) f) = expandInsts H f.
Proof.
  intros E. unfold eraseFromParent. rewrite expandInsts_compose.
  apply expandInsts_ext_in. intros i Hi.
  destruct (instId i =? instId user) eqn:Ei; simpl; [|apply app_nil_r].
  apply Nat.eqb_eq in Ei.
  now rewrite (uniqueIds_eq f i user unique Hi present Ei), E.
Qed.

Lemma list_sum_lt {A} (a b : A -> nat) l x :
  (forall i, In i l -> a i <= b i) -> In x l -> a x < b x ->
  list_sum (map a l) < list_sum (map b l).
Proof.
  induction l as [|i l IH]; intros Hle Hin Hlt; [destruct Hin|].
  simpl. destruct Hin as [->|Hin].
  - assert (list_sum (map a l) <= list_sum (map b l)).
    { clear IH. induction l as [|j l IHl]; [simpl; lia|].
      simpl. assert (a j <= b j) by (apply Hle; right; now left).
      assert (list_sum (map a l) <= list_sum (map b l)).
      { apply IHl. intros k [->|Hk]; apply Hle; [now left|right; now right]. }
      lia. }
    lia.
  - assert (a i <= b i) by (apply Hle; now left).
    assert (list_sum (map a l) < list_sum (map b l)).
    { apply IH; auto. intros k Hk. apply Hle. now right. }
    lia.
Qed.

Variable v : SILValue.

Lemma countUses_update_lt g :
  length (usesInInst 0 v (mkInst (instId user) (g (instKind user))))
    < length (usesInInst 0 v user) ->
  countUses v (allInsts (updateInst (instId user) g f)) < countUses v (allInsts f).
Proof.
  intros Hlt. unfold updateInst. rewrite allInsts_expand, countUses_flat_map.
  unfold countUses at 2.
  apply list_sum_lt with (x := user); auto.
  - intros i Hi. destruct (instId i =? instId user) eqn:Ei.
    + apply Nat.eqb_eq in Ei.
      rewrite (uniqueIds_eq f i user unique Hi present Ei).
      rewrite countUses_cons. unfold countUses. simpl. lia.
    + rewrite countUses_cons. unfold countUses. simpl. lia.
  - rewrite Nat.eqb_refl, countUses_cons. unfold countUses. simpl. lia.
Qed.

Lemma countUses_erase_lt :
  0 < length (usesInInst 0 v user) ->
  countUses v (allInsts (eraseFromParent (instId user) f)) < countUses v (allInsts f).
Proof.
  intros Hlt. unfold eraseFromParent. rewrite allInsts_expand, countUses_flat_map.
  unfold countUses at 2.
  apply list_sum_lt with (x := user); auto.
  - intros i Hi. destruct (instId i =? instId user) eqn:Ei.
    + unfold countUses. simpl. lia.
    + rewrite countUses_cons. unfold countUses. simpl. lia.
  - rewrite Nat.eqb_refl. exact Hlt.
Qed.

End OneEdit.

Lemma length_operandsFrom_inst v ops b i b' i' : forall n,
  length (operandsFrom n b i v ops) = length (operandsFrom n b' i' v ops).
Proof.
  induction ops as [|x ops IH]; intros n; [reflexivity|].
  simpl. rewrite !length_app, (IH (S n)). now destruct (SILValue_eqb x v).
Qed.

Lemma usesInInst_positive v i idx :
  nth_error (getAllOperands (instKind i)) idx = Some v ->
  0 < length (usesInInst 0 v i).
Proof.
  intros Hn. destruct (length (usesInInst 0 v i)) eqn:E; [|lia].
  apply length_operandsFrom_zero in E. exfalso. apply E.
  eapply nth_error_In; eassumption.
Qed.

(* ----------------------------------------------------------------- *)
(** ** The replacement loop of the commit *)

Lemma hasOwnClause_setOperand idx v k :
  hasOwnClause (setOperand idx v k) = hasOwnClause k.
Proof. destruct k; reflexivity. Qed.

Ltac split_bools :=
  repeat match goal with
         | |- context [SILValue_eqb ?a ?a] => rewrite (SILValue_eqb_refl a)
         | |- context [?a =? ?a] => rewrite (Nat.eqb_refl a)
         | |- context [SILValue_eqb ?a ?b] => destruct (SILValue_eqb a b) eqn:?
         | |- context [LoadQualifier_eqb ?a ?b] => destruct (LoadQualifier_eqb a b) eqn:?
         | |- context [?a =? ?b] => destruct (a =? b) eqn:?
         | |- context [if ?b then _ else _] => is_var b; destruct b
         | |- context [negb ?b] => is_var b; destruct b
         | |- context [andb ?b _] => is_var b; destruct b
         | |- context [orb ?b _] => is_var b; destruct b
         end; simpl in *; try congruence.

(** The image of an instruction of a kind without a clause of its own. *)
Lemma commitImage_other copyId tempId copySrc nfd lastId i :
  hasOwnClause (instKind i) = false ->
  commitImage copyId tempId copySrc nfd lastId i
  = if instId i =? tempId then []
    else [mkInst (instId i) (substValue (InstResult tempId) copySrc (instKind i))].
Proof.
  unfold commitImage. destruct (instId i =? tempId); [reflexivity|].
  destruct (instKind i); simpl; try discriminate; reflexivity.
Qed.

(** Case analysis on the tests of the rewriter, turned into equations. *)
Ltac decide_tests :=
  repeat match goal with
         | H : SILValue_eqb _ _ = true |- _ => apply SILValue_eqb_eq in H; subst
         | H : SILValue_eqb _ _ = false |- _ => apply SILValue_eqb_neq in H
         | H : (_ =? _) = true |- _ => apply Nat.eqb_eq in H; subst
         | H : (_ =? _) = false |- _ => apply Nat.eqb_neq in H
         end.

Ltac crush_tests :=
  repeat (first
    [ rewrite SILValue_eqb_refl
    | rewrite Nat.eqb_refl
    | match goal with
      | |- context [SILValue_eqb ?a ?b] =>
          destruct (SILValue_eqb a b) eqn:?; decide_tests; try congruence
      | |- context [?a =? ?b] =>
          destruct (a =? b) eqn:?; decide_tests; try congruence
      | |- context [LoadQualifier_eqb ?a _] => is_var a; destruct a
      | |- context [if ?b then _ else _] => is_var b; destruct b
      | |- context [negb ?b] => is_var b; destruct b
      | |- context [andb ?b _] => is_var b; destruct b
      | |- context [orb ?b _] => is_var b; destruct b
      end ]; simpl); try congruence; try reflexivity.

Section CommitLoop.

Variable c : CopyAddr.
Variable needFinalDeinit : bool.
Variable lastLoadInst : SILInstruction.
Variable copySrc : SILValue.
Variable tempId : InstId.

Local Abbreviation temp := (InstResult tempId).
Local Abbreviation image :=
  (commitImage (instId (caInst c)) tempId copySrc needFinalDeinit (instId lastLoadInst)).
Local Abbreviation step := (replaceUse c needFinalDeinit lastLoadInst copySrc).

Lemma replaceUse_other use f :
  hasOwnClause (instKind (opUser use)) = false ->
  step use f = updateInst (instId (opUser use)) (setOperand (opIndex use) copySrc) f.
Proof.
  unfold replaceUse. destruct (instKind (opUser use)); simpl; try discriminate; reflexivity.
Qed.

Lemma use_present f use :
  In use (getUses f temp) ->
  In (opUser use) (allInsts f) /\
  nth_error (getAllOperands (instKind (opUser use))) (opIndex use) = Some temp.
Proof.
  intros Hu. apply getUses_In in Hu. destruct Hu as (Hin & _ & Hop).
  split; [eapply getBlock_allInsts; eassumption|assumption].
Qed.

(** The step is invisible to the image of the commit. *)
Lemma replaceUse_image f use :
  uniqueIds f -> In use (getUses f temp) ->
  expandInsts image (step use f) = expandInsts image f.
Proof.
  intros Hu Hin. destruct (use_present f use Hin) as [Hp Hop].
  destruct (hasOwnClause (instKind (opUser use))) eqn:Hc.
  - unfold replaceUse.
    destruct (instKind (opUser use)) as
      [| v | v | s d isTake isInit | | v q | | | | | | | | | | | | | | | | | | | | | | |] eqn:Hk;
      try discriminate.
    + (* dealloc_stack *)
      apply expand_after_erase; auto. unfold commitImage. rewrite Hk.
      destruct (opIndex use) as [|[|n]]; simpl in Hop; try discriminate.
      injection Hop as ->. split_bools.
    + (* destroy_addr *)
      apply expand_after_erase; auto. unfold commitImage. rewrite Hk.
      destruct (opIndex use) as [|[|n]]; simpl in Hop; try discriminate.
      injection Hop as ->. split_bools.
    + (* copy_addr *)
      match goal with
      | |- context [if ?b then updateInst _ _ _ else _] => destruct b eqn:Hb
      end.
      * rewrite updateInst_twice. apply expand_after_update; auto.
        unfold commitImage. rewrite Hk. simpl.
        destruct (opIndex use) as [|[|[|n]]]; simpl in Hop; try discriminate;
          injection Hop as ->; unfold redirect; simpl in *; split_bools.
      * apply expand_after_update; auto.
        unfold commitImage. rewrite Hk. simpl.
        destruct (opIndex use) as [|[|[|n]]]; simpl in Hop; try discriminate;
          injection Hop as ->; unfold redirect; simpl in *; split_bools.
    + (* load *)
      match goal with
      | |- context [if ?b then updateInst _ _ _ else _] => destruct b eqn:Hb
      end.
      * rewrite updateInst_twice. apply expand_after_update; auto.
        unfold commitImage. rewrite Hk. simpl.
        destruct (opIndex use) as [|[|n]]; simpl in Hop; try discriminate;
          injection Hop as ->; unfold redirect; simpl in *; split_bools.
      * apply expand_after_update; auto.
        unfold commitImage. rewrite Hk. simpl.
        destruct (opIndex use) as [|[|n]]; simpl in Hop; try discriminate;
          injection Hop as ->; unfold redirect; simpl in *; split_bools.
  - rewrite replaceUse_other by assumption.
    apply expand_after_update; auto.
    rewrite !commitImage_other; simpl; rewrite ?hasOwnClause_setOperand; auto.
    destruct (instId (opUser use) =? tempId); [reflexivity|].
    now rewrite substValue_setOperand.
Qed.

Lemma replaceUse_uniqueIds f use : uniqueIds f -> uniqueIds (step use f).
Proof.
  intros Hu. unfold replaceUse.
  destruct (instKind (opUser use));
    repeat match goal with
           | |- context [if ?b then updateInst _ _ _ else _] => destruct b
           end;
    auto using uniqueIds_updateInst, uniqueIds_eraseFromParent.
Qed.

Lemma getAllOperands_setIsTakeOfSrc t k :
  getAllOperands (setIsTakeOfSrc t k) = getAllOperands k.
Proof. destruct k; reflexivity. Qed.

Lemma getAllOperands_setOwnershipQualifier q k :
  getAllOperands (setOwnershipQualifier q k) = getAllOperands k.
Proof. destruct k; reflexivity. Qed.

(** Each step removes a use of the temporary. *)
Lemma replaceUse_fewer_uses f use :
  copySrc <> temp -> uniqueIds f -> In use (getUses f temp) ->
  countUses temp (allInsts (step use f)) < countUses temp (allInsts f).
Proof.
  intros Hne Hu Hin. destruct (use_present f use Hin) as [Hp Hop].
  assert (Hset : forall g,
             getAllOperands (g (instKind (opUser use)))
               = getAllOperands (instKind (opUser use)) ->
             countUses temp (allInsts (updateInst (instId (opUser use))
                                         (fun k => setOperand (opIndex use) copySrc (g k)) f))
             < countUses temp (allInsts f)).
  { intros g Hg. apply countUses_update_lt; auto.
    pose proof (usesInInst_setOperand temp copySrc
                  (mkInst (instId (opUser use)) (g (instKind (opUser use))))
                  (opIndex use)) as X.
    simpl in X. rewrite Hg in X. specialize (X Hop Hne).
    assert (Y : length (usesInInst 0 temp (mkInst (instId (opUser use))
                                                  (g (instKind (opUser use)))))
                = length (usesInInst 0 temp (opUser use))).
    { unfold usesInInst. simpl. rewrite Hg. apply length_operandsFrom_inst. }
    cbv beta. rewrite <- Y, <- X. lia. }
  unfold replaceUse.
  destruct (instKind (opUser use)) eqn:Hk;
    try (apply (Hset (fun k => k)); reflexivity).
  - apply countUses_erase_lt; auto. eapply usesInInst_positive. rewrite Hk. eassumption.
  - apply countUses_erase_lt; auto. eapply usesInInst_positive. rewrite Hk. eassumption.
  - match goal with
    | |- context [if ?b then updateInst _ _ _ else _] => destruct b
    end.
    + rewrite updateInst_twice.
      apply (Hset (setIsTakeOfSrc false)). reflexivity.
    + apply (Hset (fun k => k)). reflexivity.
  - match goal with
    | |- context [if ?b then updateInst _ _ _ else _] => destruct b
    end.
    + rewrite updateInst_twice.
      apply (Hset (setOwnershipQualifier LoadCopy)). reflexivity.
    + apply (Hset (fun k => k)). reflexivity.
Qed.

(** The loop ends, leaves no use of the temporary and is invisible to the
    image of the commit. *)
Lemma replaceUsesLoop_result fuel : forall f,
  copySrc <> temp -> uniqueIds f -> countUses temp (allInsts f) <= fuel ->
  exists f',
    replaceUsesLoop fuel c needFinalDeinit lastLoadInst copySrc temp f = Some f' /\
    getUses f' temp = [] /\ uniqueIds f' /\
    expandInsts image f' = expandInsts image f.
Proof.
  induction fuel as [|fuel IH]; intros f Hne Hu Hfuel.
  - assert (E : getUses f temp = []).
    { apply length_zero_iff_nil. rewrite length_getUses. lia. }
    exists f. simpl. rewrite E. auto.
  - simpl. destruct (getUses f temp) as [|use rest] eqn:E.
    + exists f. auto.
    + assert (Hin : In use (getUses f temp)) by (rewrite E; now left).
      pose proof (replaceUse_fewer_uses f use Hne Hu Hin) as Hlt.
      destruct (IH (step use f) Hne (replaceUse_uniqueIds f use Hu)) as (f' & H1 & H2 & H3 & H4).
      { lia. }
      exists f'. repeat split; auto.
      rewrite H4. now apply replaceUse_image.
Qed.

(** On a function without uses of the temporary the image only erases the
    alloc_stack. *)
Lemma image_without_uses f :
  getUses f temp = [] -> expandInsts image f = eraseFromParent tempId f.
Proof.
  intros Hn. unfold eraseFromParent. apply expandInsts_ext_in. intros i Hi.
  pose proof (proj1 (getUses_nil f temp) Hn i Hi) as Hno.
  destruct (hasOwnClause (instKind i)) eqn:Hc.
  - unfold commitImage. destruct (instId i =? tempId); [reflexivity|].
    destruct i as [id k]. simpl in *.
    destruct k; try discriminate; simpl in *; unfold redirect;
      repeat match goal with
             | |- context [SILValue_eqb ?a temp] =>
                 let E := fresh in
                 destruct (SILValue_eqb a temp) eqn:E;
                 [apply SILValue_eqb_eq in E; subst; exfalso; apply Hno; simpl; auto|]
             end; reflexivity.
  - rewrite commitImage_other by assumption.
    destruct (instId i =? tempId); [reflexivity|].
    rewrite substValue_absent by assumption. now destruct i.
Qed.

End CommitLoop.

(* ----------------------------------------------------------------- *)
(** ** Fresh identities and insertion *)

Lemma le_fold_max l x : In x l -> x <= fold_right Nat.max 0 l.
Proof.
  induction l as [|y l IH]; intros Hin; [destruct Hin|].
  simpl. destruct Hin as [->|Hin]; [lia|]. specialize (IH Hin). lia.
Qed.

Lemma freshId_fresh f : ~ In (freshId f) (map instId (allInsts f)).
Proof.
  intros H. apply le_fold_max in H. unfold freshId in H. lia.
Qed.

Lemma freshId_neq f i : In i (allInsts f) -> instId i <> freshId f.
Proof.
  intros Hi E. apply (freshId_fresh f). rewrite <- E. now apply in_map.
Qed.

Lemma insert_absent pos new l :
  ~ In pos (map instId l) ->
  flat_map (fun i => if instId i =? pos then [i; new] else [i]) l = l.
Proof.
  induction l as [|i l IH]; intros H; [reflexivity|].
  simpl in *. assert (E : instId i <> pos) by tauto.
  apply Nat.eqb_neq in E. rewrite E. simpl. f_equal. apply IH. tauto.
Qed.

Lemma ids_insert_subset pos new l x :
  In x (map instId (flat_map (fun i => if instId i =? pos then [i; new] else [i]) l)) ->
  x = instId new \/ In x (map instId l).
Proof.
  induction l as [|i l IH]; [intros []|].
  simpl. rewrite map_app, in_app_iff. intros [H|H].
  - destruct (instId i =? pos); simpl in H; intuition.
  - destruct (IH H); auto.
Qed.

Lemma NoDup_insert pos new l :
  NoDup (map instId l) -> ~ In (instId new) (map instId l) ->
  NoDup (map instId (flat_map (fun i => if instId i =? pos then [i; new] else [i]) l)).
Proof.
  induction l as [|i l IH]; intros Hnd Hnew; [constructor|].
  simpl in *. apply NoDup_cons_iff in Hnd. destruct Hnd as [Hi Hnd].
  destruct (instId i =? pos) eqn:E.
  - apply Nat.eqb_eq in E. subst pos.
    rewrite insert_absent by assumption. simpl.
    constructor; [|constructor]; simpl; intuition.
  - simpl. constructor.
    + intros H. apply ids_insert_subset in H. intuition.
    + apply IH; intuition.
Qed.

Lemma uniqueIds_insertAfter pos new f :
  uniqueIds f -> ~ In (instId new) (map instId (allInsts f)) ->
  uniqueIds (insertAfter pos new f).
Proof.
  unfold uniqueIds, insertAfter. rewrite allInsts_expand. apply NoDup_insert.
Qed.

Lemma uniqueIds_moveAfter moved pos f : uniqueIds f -> uniqueIds (moveAfter moved pos f).
Proof.
  intros Hu. unfold moveAfter. destruct (instId moved =? pos); [assumption|].
  apply uniqueIds_insertAfter.
  - now apply uniqueIds_eraseFromParent.
  - rewrite ids_eraseFromParent, filter_In, Nat.eqb_refl. simpl. intuition congruence.
Qed.

Lemma extendAccessScopes_uniqueIds c lastLoadInst aa f b f1 :
  extendAccessScopes c lastLoadInst aa f = (b, f1) -> uniqueIds f -> uniqueIds f1.
Proof.
  unfold extendAccessScopes.
  destruct (extendLoop _ _ _ _ _ _) as [[[ea s]|]|]; intros [= <- <-] Hu; auto.
  now apply uniqueIds_moveAfter.
Qed.

Lemma findInBlock_erased id blk :
  findInBlock id (flat_map (fun i => if instId i =? id then [] else [i]) blk) = None.
Proof.
  induction blk as [|i blk IH]; [reflexivity|].
  simpl. destruct (instId i =? id) eqn:E; simpl; [assumption|].
  now rewrite E.
Qed.

(** An erased instruction is no longer found. *)
Lemma findInst_eraseFromParent id f : findInst (eraseFromParent id f) id = None.
Proof.
  unfold findInst, eraseFromParent, expandInsts. simpl.
  generalize 0. induction (blocks f) as [|blk bs IH]; intros n; [reflexivity|].
  simpl. now rewrite findInBlock_erased, IH.
Qed.

Lemma allInsts_eraseFromParent id f i :
  In i (allInsts (eraseFromParent id f)) -> In i (allInsts f).
Proof.
  unfold eraseFromParent. rewrite allInsts_expand, in_flat_map.
  intros (j & Hj & H). destruct (instId j =? id); [destruct H|].
  destruct H as [<-|[]]. assumption.
Qed.

Lemma getUses_eraseFromParent id f v :
  getUses f v = [] -> getUses (eraseFromParent id f) v = [].
Proof.
  rewrite !getUses_nil. intros H i Hi. apply H.
  eapply allInsts_eraseFromParent; eassumption.
Qed.

(* ----------------------------------------------------------------- *)
(** ** The commit in closed form *)

(** The function the commit starts from: the destroy of the source is
    synthesized after the boundary when [needToInsertDestroy] says so. *)
Lemma commitCopy_result c tempObj needFinalDeinit lastLoadInst f1 :
  uniqueIds f1 -> caSrc c <> InstResult (instId tempObj) ->
  let f2 := if needToInsertDestroy needFinalDeinit c (InstResult (instId tempObj))
                                   lastLoadInst
            then insertAfter (instId lastLoadInst)
                             (mkInst (freshId f1) (DestroyAddrInst (caSrc c))) f1
            else f1 in
  exists f',
    commitCopy c tempObj needFinalDeinit lastLoadInst f1 = Some (Continue tt, f') /\
    f' = expandInsts (commitImage (instId (caInst c)) (instId tempObj) (caSrc c)
                                  needFinalDeinit (instId lastLoadInst)) f2 /\
    getUses f' (InstResult (instId tempObj)) = [] /\
    findInst f' (instId tempObj) = None /\
    uniqueIds f2.
Proof.
  intros Hu Hne f2.
  assert (Hu2 : uniqueIds f2).
  { unfold f2. destruct (needToInsertDestroy _ _ _ _); [|assumption].
    apply uniqueIds_insertAfter; [assumption|apply freshId_fresh]. }
  destruct (replaceUsesLoop_result c needFinalDeinit lastLoadInst (caSrc c)
              (instId tempObj)
              (length (getUses f2 (InstResult (instId tempObj)))) f2 Hne Hu2)
    as (f3 & Hl & Hno & Hu3 & Himg).
  { rewrite length_getUses. lia. }
  exists (eraseFromParent (instId tempObj) f3). repeat split.
  - unfold commitCopy, bind, getFunction, modify, ret. fold f2.
    destruct (needToInsertDestroy _ _ _ _); simpl; unfold f2 in Hl; rewrite Hl;
      reflexivity.
  - rewrite <- Himg. symmetry. now apply image_without_uses.
  - now apply getUses_eraseFromParent.
  - apply findInst_eraseFromParent.
  - assumption.
Qed.

(* ----------------------------------------------------------------- *)
(** ** Lookups through an edit *)

Section ExpandIn.

Variable h : SILInstruction -> list SILInstruction.
Variable g : SILInstruction -> SILInstruction.
Variable id : InstId.

Lemma flat_map_others blk l :
  (forall j, In j l -> instId j <> id) ->
  findInBlock id (l ++ blk) = findInBlock id blk /\
  afterIn id (l ++ blk) = afterIn id blk.
Proof.
  induction l as [|j l IH]; intros H; [auto|].
  simpl. assert (E : instId j <> id) by (apply H; now left).
  apply Nat.eqb_neq in E. rewrite E. apply IH. intros k Hk. apply H. now right.
Qed.

Lemma findInBlock_expand_in blk :
  (forall i, In i blk -> instId i = id ->
             exists rest, h i = g i :: rest /\ instId (g i) = id) ->
  (forall i j, In i blk -> instId i <> id -> In j (h i) -> instId j <> id) ->
  findInBlock id (flat_map h blk) = option_map g (findInBlock id blk).
Proof.
  induction blk as [|i blk IH]; intros K O; [reflexivity|]. simpl.
  destruct (instId i =? id) eqn:E.
  - apply Nat.eqb_eq in E. destruct (K i (or_introl eq_refl) E) as (rest & -> & Hg).
    simpl. apply Nat.eqb_eq in Hg. now rewrite Hg.
  - apply Nat.eqb_neq in E.
    rewrite (proj1 (flat_map_others (flat_map h blk) (h i)
                      (fun j Hj => O i j (or_introl eq_refl) E Hj))).
    apply IH.
    + intros j Hj. apply K. now right.
    + intros j k Hj. apply O. now right.
Qed.

Lemma afterIn_expand_in blk i rest :
  (forall i j, In i blk -> instId i <> id -> In j (h i) -> instId j <> id) ->
  findInBlock id blk = Some i -> h i = g i :: rest -> instId (g i) = id ->
  afterIn id (flat_map h blk) = rest ++ flat_map h (afterIn id blk).
Proof.
  induction blk as [|a blk IH]; intros O; [discriminate|]. simpl.
  destruct (instId a =? id) eqn:E.
  - intros [= ->] -> Hg. simpl. apply Nat.eqb_eq in Hg. now rewrite Hg.
  - intros Hf Hh Hg. apply Nat.eqb_neq in E.
    rewrite (proj2 (flat_map_others (flat_map h blk) (h a)
                      (fun j Hj => O a j (or_introl eq_refl) E Hj))).
    apply IH; auto. intros j k Hj. apply O. now right.
Qed.

Lemma findInBlocks_expand_in bs : forall b,
  (forall i, In i (concat bs) -> instId i = id ->
             exists rest, h i = g i :: rest /\ instId (g i) = id) ->
  (forall i j, In i (concat bs) -> instId i <> id -> In j (h i) -> instId j <> id) ->
  findInBlocks b id (map (flat_map h) bs)
  = option_map (fun p => (fst p, g (snd p))) (findInBlocks b id bs).
Proof.
  induction bs as [|blk bs IH]; intros b K O; [reflexivity|].
  simpl in *. rewrite findInBlock_expand_in.
  - destruct (findInBlock id blk); [reflexivity|].
    apply IH.
    + intros i Hi. apply K. apply in_or_app. now right.
    + intros i j Hi. apply O. apply in_or_app. now right.
  - intros i Hi. apply K. apply in_or_app. now left.
  - intros i j Hi. apply O. apply in_or_app. now left.
Qed.

Lemma findInst_expand_in f :
  (forall i, In i (allInsts f) -> instId i = id ->
             exists rest, h i = g i :: rest /\ instId (g i) = id) ->
  (forall i j, In i (allInsts f) -> instId i <> id -> In j (h i) -> instId j <> id) ->
  findInst (expandInsts h f) id
  = option_map (fun p => (fst p, g (snd p))) (findInst f id).
Proof. apply findInBlocks_expand_in. Qed.

End ExpandIn.

Lemma findInBlock_In id blk i : findInBlock id blk = Some i -> In i blk.
Proof.
  induction blk as [|a blk IH]; [discriminate|]. simpl.
  destruct (instId a =? id); [intros [= <-]; now left|]. intros H. right. auto.
Qed.

Lemma findInst_In f id b i : findInst f id = Some (b, i) -> In i (allInsts f).
Proof.
  intros H. apply findInst_block in H. apply findInBlock_In in H.
  eapply getBlock_allInsts; eassumption.
Qed.

Lemma findInst_id f id b i : findInst f id = Some (b, i) -> instId i = id.
Proof. intros H. apply findInst_block in H. now apply findInBlock_id in H. Qed.

Lemma afterIn_In id blk i : In i (afterIn id blk) -> In i blk.
Proof.
  induction blk as [|a blk IH]; [intros []|]. simpl.
  destruct (instId a =? id); intros H; right; auto.
Qed.

Lemma throughIn_In id l i : In i (throughIn id l) -> In i l.
Proof.
  induction l as [|a l IH]; [intros []|]. simpl.
  destruct (instId a =? id); intros [H|H]; auto. destruct H.
Qed.

Lemma instsAfter_In f id i : In i (instsAfter f id) -> In i (allInsts f).
Proof.
  unfold instsAfter. destruct (findInst f id) as [[b j]|]; [|intros []].
  intros H. apply afterIn_In in H. eapply getBlock_allInsts; eassumption.
Qed.

Lemma scopeRange_In f c last i : In i (scopeRange f c last) -> In i (allInsts f).
Proof.
  unfold scopeRange. destruct (_ =? _); [intros []|].
  intros H. apply throughIn_In in H. eapply instsAfter_In; eassumption.
Qed.

(** The instruction found under an identity is the only one with it. *)
Lemma findInst_unique f id b i j :
  uniqueIds f -> findInst f id = Some (b, i) -> In j (allInsts f) -> instId j = id -> j = i.
Proof.
  intros Hu Hf Hj E. apply (uniqueIds_eq f j i Hu Hj).
  - eapply findInst_In; eassumption.
  - apply findInst_id in Hf. congruence.
Qed.

Lemma findInst_insertAfter_other pos new f id :
  instId new <> id -> findInst (insertAfter pos new f) id = findInst f id.
Proof.
  intros Hne. unfold insertAfter. apply findInst_expand.
  - intros i _. destruct (instId i =? pos); eauto.
  - intros i j Hi. cbv beta. destruct (instId i =? pos); simpl; intros H.
    + destruct H as [<-|[<-|[]]]; auto.
    + destruct H as [<-|[]]; auto.
Qed.

Lemma findInst_moveAfter_other moved pos f id :
  instId moved <> id -> findInst (moveAfter moved pos f) id = findInst f id.
Proof.
  intros Hne. unfold moveAfter. destruct (instId moved =? pos); [reflexivity|].
  rewrite findInst_insertAfter_other by assumption.
  now apply findInst_eraseFromParent_other.
Qed.

Lemma commitImage_ids copyId tempId copySrc nfd lastId i j :
  In j (commitImage copyId tempId copySrc nfd lastId i) -> instId j = instId i.
Proof.
  unfold commitImage. destruct (instId i =? tempId); [intros []|].
  destruct (instKind i);
    repeat match goal with
           | |- context [if SILValue_eqb ?a ?b then [] else _] =>
               destruct (SILValue_eqb a b)
           end;
    simpl; intros H; try contradiction;
    (destruct H as [<-|H]; [reflexivity|destruct H]).
Qed.

(* ----------------------------------------------------------------- *)
(** ** Use lists are complete, identities are positions *)

Lemma operandsFrom_complete b i v ops : forall n m,
  nth_error ops m = Some v -> In (mkOperand b i (n + m) v) (operandsFrom n b i v ops).
Proof.
  induction ops as [|x ops IH]; intros n m Hm; [destruct m; discriminate|].
  simpl. apply in_or_app. destruct m as [|m].
  - left. simpl in Hm. injection Hm as ->. rewrite SILValue_eqb_refl, Nat.add_0_r.
    now left.
  - right. replace (n + S m) with (S n + m) by lia. now apply IH.
Qed.

Lemma usesInBlocks_complete v i m bs : forall b0,
  In i (concat bs) -> nth_error (getAllOperands (instKind i)) m = Some v ->
  exists b, In (mkOperand b i m v) (usesInBlocks b0 v bs).
Proof.
  induction bs as [|blk bs IH]; intros b0 Hin Hm; [destruct Hin|].
  simpl in Hin. apply in_app_or in Hin. destruct Hin as [Hin|Hin].
  - exists b0. simpl. apply in_or_app. left. apply in_flat_map.
    exists i. split; [assumption|].
    apply (operandsFrom_complete b0 i v _ 0 m Hm).
  - destruct (IH (S b0) Hin Hm) as [b Hb]. exists b. simpl.
    apply in_or_app. now right.
Qed.

(** Every operand occurrence is in the use list. *)
Lemma getUses_complete f v i m :
  In i (allInsts f) -> nth_error (getAllOperands (instKind i)) m = Some v ->
  exists u, In u (getUses f v) /\ opUser u = i /\ opIndex u = m.
Proof.
  intros Hin Hm. destruct (usesInBlocks_complete v i m (blocks f) 0 Hin Hm) as [b Hb].
  eexists. split; [exact Hb|]. auto.
Qed.

Lemma NoDup_app_parts {A} (l1 l2 : list A) :
  NoDup (l1 ++ l2) ->
  NoDup l1 /\ NoDup l2 /\ forall x, In x l1 -> In x l2 -> False.
Proof.
  induction l1 as [|a l1 IH]; simpl; intros H.
  - repeat split; [constructor|assumption|intros x []].
  - apply NoDup_cons_iff in H. destruct H as [Ha H].
    destruct (IH H) as (H1 & H2 & H3). repeat split; auto.
    + constructor; [|assumption]. intros Hin. apply Ha. apply in_or_app. now left.
    + intros x [<-|Hx] Hx2; [|eauto]. apply Ha. apply in_or_app. now right.
Qed.

Lemma uniqueIds_block f b : uniqueIds f -> NoDup (map instId (getBlock f b)).
Proof.
  unfold uniqueIds, allInsts, getBlock. generalize (blocks f) as bs.
  intros bs. revert b. induction bs as [|blk bs IH]; intros b H.
  - destruct b; constructor.
  - simpl in H. rewrite map_app in H. apply NoDup_app_parts in H.
    destruct H as (H1 & H2 & _). destruct b as [|b]; simpl; auto.
Qed.

(** Instructions of one identity are in one block. *)
Lemma uniqueIds_same_block f b1 b2 i j :
  uniqueIds f -> In i (getBlock f b1) -> In j (getBlock f b2) ->
  instId i = instId j -> b1 = b2.
Proof.
  unfold uniqueIds, allInsts, getBlock. generalize (blocks f) as bs.
  intros bs. revert b1 b2. induction bs as [|blk bs IH]; intros b1 b2 H Hi Hj E.
  - destruct b1; destruct Hi.
  - simpl in H. rewrite map_app in H. apply NoDup_app_parts in H.
    destruct H as (H1 & H2 & H3).
    assert (Hsub : forall b x, In x (nth b bs []) -> In (instId x) (map instId (concat bs))).
    { intros b x Hx. apply in_map. apply in_concat.
      destruct (Nat.lt_ge_cases b (length bs)) as [Hlt|Hge].
      - exists (nth b bs []). split; [now apply nth_In|assumption].
      - rewrite nth_overflow in Hx by assumption. destruct Hx. }
    destruct b1 as [|b1], b2 as [|b2]; simpl in *.
    + reflexivity.
    + exfalso. apply (H3 (instId i)); [now apply in_map|].
      rewrite E. eapply Hsub; eassumption.
    + exfalso. apply (H3 (instId j)); [now apply in_map|].
      rewrite <- E. eapply Hsub; eassumption.
    + f_equal. eapply IH; eassumption.
Qed.

(** Nothing after an instruction in its block has its identity. *)
Lemma afterIn_other_id id blk i :
  NoDup (map instId blk) -> In i (afterIn id blk) -> instId i <> id.
Proof.
  induction blk as [|a blk IH]; [intros _ []|]. simpl.
  intros H. apply NoDup_cons_iff in H. destruct H as [Ha H].
  destruct (instId a =? id) eqn:E.
  - apply Nat.eqb_eq in E. subst id. intros Hin Ei. apply Ha. rewrite <- Ei.
    now apply in_map.
  - auto.
Qed.

Lemma instsAfter_other_id f id i :
  uniqueIds f -> In i (instsAfter f id) -> instId i <> id.
Proof.
  intros Hu. unfold instsAfter. destruct (findInst f id) as [[b j]|]; [|intros []].
  apply afterIn_other_id. now apply uniqueIds_block.
Qed.

Lemma instsAfter_block f id b j i :
  findInst f id = Some (b, j) -> In i (instsAfter f id) -> In i (getBlock f b).
Proof.
  intros Hf. unfold instsAfter. rewrite Hf. apply afterIn_In.
Qed.

(** In a list without repeated identities an instruction is the only one
    of its identity. *)
Lemma count_identity l x :
  NoDup (map instId l) -> In x l ->
  list_sum (map (fun i => if instId i =? instId x then 1 else 0) l) = 1.
Proof.
  induction l as [|a l IH]; intros Hnd Hin; [destruct Hin|].
  simpl in *. apply NoDup_cons_iff in Hnd. destruct Hnd as [Ha Hnd].
  destruct Hin as [->|Hin].
  - rewrite Nat.eqb_refl.
    assert (E : list_sum (map (fun i => if instId i =? instId x then 1 else 0) l) = 0).
    { clear IH Hnd. induction l as [|b l IHl]; [reflexivity|]. simpl in *.
      destruct (instId b =? instId x) eqn:E.
      - apply Nat.eqb_eq in E. exfalso. apply Ha. now left.
      - apply IHl. intros H. apply Ha. now right. }
    now rewrite E.
  - rewrite (IH Hnd Hin).
    destruct (instId a =? instId x) eqn:E; [|reflexivity].
    apply Nat.eqb_eq in E. exfalso. apply Ha. rewrite E. now apply in_map.
Qed.

Lemma count_identity_absent l id :
  (forall i, In i l -> instId i <> id) ->
  list_sum (map (fun i => if instId i =? id then 1 else 0) l) = 0.
Proof.
  induction l as [|a l IH]; intros H; [reflexivity|]. simpl.
  assert (E : instId a <> id) by (apply H; now left).
  apply Nat.eqb_neq in E. rewrite E. apply IH. intros i Hi. apply H. now right.
Qed.

Lemma list_sum_map_add {A} (a b : A -> nat) l :
  list_sum (map (fun i => a i + b i) l) = list_sum (map a l) + list_sum (map b l).
Proof.
  induction l as [|x l IH]; [reflexivity|]. simpl. rewrite IH. lia.
Qed.

Lemma list_sum_map_ext_in {A} (a b : A -> nat) l :
  (forall i, In i l -> a i = b i) -> list_sum (map a l) = list_sum (map b l).
Proof.
  induction l as [|x l IH]; intros H; [reflexivity|]. simpl.
  rewrite (H x (or_introl eq_refl)), IH; [reflexivity|].
  intros i Hi. apply H. now right.
Qed.

Lemma NoDup_afterIn id blk :
  NoDup (map instId blk) -> NoDup (map instId (afterIn id blk)).
Proof.
  induction blk as [|a blk IH]; intros H; [constructor|]. simpl in *.
  apply NoDup_cons_iff in H. destruct H as [_ H].
  destruct (instId a =? id); auto.
Qed.

Lemma uniqueIds_instsAfter f id : uniqueIds f -> NoDup (map instId (instsAfter f id)).
Proof.
  intros Hu. unfold instsAfter. destruct (findInst f id) as [[b j]|]; [|constructor].
  apply NoDup_afterIn. now apply uniqueIds_block.
Qed.

(* ----------------------------------------------------------------- *)
(** ** What a committing candidate looks like *)

Lemma asCopyAddr_Some f id c :
  asCopyAddr f id = Some c ->
  findInst f id = Some (caParent c, caInst c) /\
  instKind (caInst c)
  = CopyAddrInst (caSrc c) (caDest c) (caIsTakeOfSrc c) (caIsInitializationOfDest c).
Proof.
  unfold asCopyAddr. destruct (findInst f id) as [[b i]|]; [|discriminate].
  destruct (instKind i) eqn:Hk; try discriminate.
  intros [= <-]. simpl. auto.
Qed.

Lemma asAllocStack_Some f v t lex dyn :
  asAllocStack f v = Some (t, lex, dyn) ->
  v = InstResult (instId t) /\
  (exists b, findInst f (instId t) = Some (b, t)) /\
  instKind t = AllocStackInst lex dyn.
Proof.
  unfold asAllocStack. destruct v as [| a |]; try discriminate.
  destruct (findInst f a) as [[b i]|] eqn:Hf; [|discriminate].
  destruct (instKind i) eqn:Hk; try discriminate.
  intros [= <- <- <-]. pose proof (findInst_id _ _ _ _ Hf) as E. subst a.
  repeat split; eauto.
Qed.

Lemma lastUseLoop_In aa copySrc useInsts insts : forall n last,
  lastUseLoop aa copySrc useInsts n insts = Some last -> In last insts.
Proof.
  induction insts as [|a insts IH]; intros n last; [discriminate|]. simpl.
  destruct (_ =? _).
  - destruct (_ && _); [discriminate|]. intros [= <-]. now left.
  - destruct (mayWriteToMemory aa a copySrc); [discriminate|].
    intros H. right. eapply IH; eassumption.
Qed.

(** The boundary is the copy itself or follows it in its block. *)
Lemma getLastUse_In f c useInsts aa last :
  getLastUseWhileSourceIsNotModified f c useInsts aa = Some last ->
  last = caInst c \/ In last (instsAfter f (instId (caInst c))).
Proof.
  unfold getLastUseWhileSourceIsNotModified. destruct (empty useInsts).
  - intros [= <-]. now left.
  - intros H. right. eapply lastUseLoop_In; eassumption.
Qed.

(** A successful extension moved at most one end_access of the range. *)
Lemma extendAccessScopes_moved c last aa f f1 :
  extendAccessScopes c last aa f = (true, f1) ->
  f1 = f \/
  exists ea, In ea (scopeRange f c last) /\ isEndAccess ea = true /\
             f1 = moveAfter ea (instId last) f.
Proof.
  unfold extendAccessScopes.
  destruct (extendLoop _ _ _ _ _ _) as [[[ea s]|]|] eqn:E; [| |discriminate];
    intros [= <-]; [|now left].
  right. apply loop_success in E.
  destruct E as [[E _]|(pre & ea' & s' & post & Hr & [= <- <-] & Hc & _)]; [discriminate|].
  exists ea. repeat split.
  - rewrite Hr. apply in_or_app. right. now left.
  - now apply candidate_isEndAccess in Hc.
Qed.

(* ----------------------------------------------------------------- *)
(** ** Counting the consuming operations *)

Arguments SILValue_eqb : simpl never.

Lemma destroyCount_app v l1 l2 :
  destroyCount v (l1 ++ l2) = destroyCount v l1 + destroyCount v l2.
Proof. unfold destroyCount. now rewrite filter_app, length_app. Qed.

Lemma destroyCount_cons v i l :
  destroyCount v (i :: l) = (if consumes v i then 1 else 0) + destroyCount v l.
Proof. unfold destroyCount. simpl. now destruct (consumes v i). Qed.

Lemma destroyCount_flat_map v (h : SILInstruction -> list SILInstruction) l :
  destroyCount v (flat_map h l) = list_sum (map (fun i => destroyCount v (h i)) l).
Proof.
  induction l as [|i l IH]; [reflexivity|].
  simpl. now rewrite destroyCount_app, IH.
Qed.

Lemma consumes_operand v i : consumes v i = true -> In v (getAllOperands (instKind i)).
Proof.
  unfold consumes, isDestroyAddrOf, isTakeCopyFrom, isTakeLoadFrom.
  destruct (instKind i); simpl; try discriminate;
    rewrite ?orb_false_r, ?andb_true_iff; intros H;
    repeat match type of H with _ /\ _ => destruct H as [H _] end;
    apply SILValue_eqb_eq in H; subst; auto.
Qed.

Lemma destroyCount_unused v l :
  (forall i, In i l -> ~ In v (getAllOperands (instKind i))) -> destroyCount v l = 0.
Proof.
  intros H. induction l as [|i l IH]; [reflexivity|].
  rewrite destroyCount_cons, IH by (intros j Hj; apply H; now right).
  destruct (consumes v i) eqn:E; [|reflexivity].
  exfalso. apply (H i (or_introl eq_refl)). now apply consumes_operand.
Qed.

Lemma consumes_other_kind v i :
  hasOwnClause (instKind i) = false -> consumes v i = false.
Proof.
  unfold consumes, isDestroyAddrOf, isTakeCopyFrom, isTakeLoadFrom.
  destruct (instKind i); simpl; try discriminate; reflexivity.
Qed.

Lemma hasOwnClause_substValue old new k :
  hasOwnClause (substValue old new k) = hasOwnClause k.
Proof. destruct k; reflexivity. Qed.

(** What the replacement does to the consumption of the source by one
    instruction: nothing, except that the final take now consumes it. *)
Lemma commitImage_destroyCount copyId tempId copySrc nfd lastId i :
  copySrc <> InstResult tempId ->
  (instId i = tempId -> hasOwnClause (instKind i) = false) ->
  (writesInto (InstResult tempId) i = true -> instId i = copyId) ->
  (instId i = copyId ->
   instKind i = CopyAddrInst copySrc (InstResult tempId) nfd true) ->
  destroyCount copySrc (commitImage copyId tempId copySrc nfd lastId i)
  = destroyCount copySrc [i]
    + (if isFinalTake nfd (InstResult tempId) lastId i then 1 else 0).
Proof.
  intros Hne Halloc Hw Hcopy.
  destruct (hasOwnClause (instKind i)) eqn:Hc.
  - assert (Hid : (instId i =? tempId) = false).
    { apply Nat.eqb_neq. intros E. specialize (Halloc E). congruence. }
    unfold commitImage, isFinalTake, writesInto in *. rewrite Hid.
    unfold destroyCount, consumes, isDestroyAddrOf, isTakeCopyFrom, isTakeLoadFrom,
      redirect.
    destruct i as [id k]. simpl in *. clear Hid Halloc.
    destruct k as
      [| v | v | s d isTake isInit | | v q | | | | | | | | | | | | | | | | | | | | | | |];
      try discriminate; simpl in *; clear Hc.
    + crush_tests.
    + crush_tests.
    + destruct (id =? copyId) eqn:Eid.
      * apply Nat.eqb_eq in Eid. injection (Hcopy Eid) as -> -> -> ->.
        clear Hw Hcopy. subst id. crush_tests.
      * destruct (SILValue_eqb d (InstResult tempId)) eqn:Ed.
        -- apply Nat.eqb_neq in Eid. now specialize (Hw eq_refl).
        -- clear Hw Hcopy. crush_tests.
    + crush_tests.
  - rewrite commitImage_other by assumption.
    assert (E : isFinalTake nfd (InstResult tempId) lastId i = false).
    { unfold isFinalTake, isTakeCopyFrom, isTakeLoadFrom.
      destruct (instKind i); simpl in *; try discriminate;
        now rewrite ?andb_false_r. }
    rewrite E, Nat.add_0_r. clear E.
    rewrite destroyCount_cons, (consumes_other_kind _ _ Hc).
    destruct (instId i =? tempId); [reflexivity|].
    rewrite destroyCount_cons, consumes_other_kind; [reflexivity|].
    simpl. now rewrite hasOwnClause_substValue.
Qed.

Section Committing.

Variable accessBase : AccessBaseOracle.
Variable computeFrontier : FrontierOracle.
Variable aa : AliasAnalysis.
Variable f : SILFunction.
Variable copyId : InstId.
Variable c : CopyAddr.
Variable tempObj : SILInstruction.
Variable lastLoadInst : SILInstruction.
Variable f1 : SILFunction.

Hypothesis unique : uniqueIds f.
Hypothesis commits :
  Commits accessBase computeFrontier aa f copyId c tempObj lastLoadInst f1.
Hypothesis distinct : caSrc c <> InstResult (instId tempObj).

Local Abbreviation temp := (InstResult (instId tempObj)).
Local Abbreviation need :=
  (needToInsertDestroy (caIsTakeOfSrc c) c temp lastLoadInst).
Local Abbreviation destroy := (mkInst (freshId f1) (DestroyAddrInst (caSrc c))).
Local Abbreviation image :=
  (commitImage copyId (instId tempObj) (caSrc c) (caIsTakeOfSrc c)
               (instId lastLoadInst)).

Lemma committing_copy :
  findInst f copyId = Some (caParent c, caInst c) /\
  instId (caInst c) = copyId /\
  instKind (caInst c)
  = CopyAddrInst (caSrc c) temp (caIsTakeOfSrc c) true.
Proof.
  destruct commits as [Hc Hi (lex & dyn & Ht & _) _ _ _ _].
  apply asCopyAddr_Some in Hc. destruct Hc as [Hf Hk].
  apply asAllocStack_Some in Ht. destruct Ht as (Hd & _).
  rewrite Hd, Hi in Hk. repeat split; auto.
  eapply findInst_id; eassumption.
Qed.

Lemma committing_temp :
  (exists b, findInst f (instId tempObj) = Some (b, tempObj)) /\
  (exists lex dyn, instKind tempObj = AllocStackInst lex dyn) /\
  instId tempObj <> copyId.
Proof.
  destruct commits as [Hc Hi (lex & dyn & Ht & _) _ _ _ _].
  apply asAllocStack_Some in Ht. destruct Ht as (_ & (b & Hf) & Hk).
  repeat split; eauto.
  intros E. destruct committing_copy as (Hf' & _ & Hk').
  rewrite E, Hf' in Hf. injection Hf as _ <-. congruence.
Qed.

Lemma committing_last :
  lastLoadInst = caInst c \/ In lastLoadInst (instsAfter f copyId).
Proof.
  destruct commits as [_ _ _ (l & us & _ & _ & Hb) _ _ _].
  destruct committing_copy as (_ & <- & _).
  eapply getLastUse_In; eassumption.
Qed.

Lemma committing_extended :
  f1 = f \/
  exists ea, In ea (scopeRange f c lastLoadInst) /\ isEndAccess ea = true /\
             instId ea <> copyId /\ instId ea <> instId tempObj /\
             f1 = moveAfter ea (instId lastLoadInst) f.
Proof.
  destruct commits as [_ _ _ _ _ _ He].
  apply extendAccessScopes_moved in He. destruct He as [He|(ea & Hin & Hea & He)];
    [now left|right].
  exists ea. repeat split; auto.
  - intros E. destruct committing_copy as (Hf & _ & Hk).
    pose proof (findInst_unique f copyId _ _ ea unique Hf
                  (scopeRange_In _ _ _ _ Hin) E) as ->.
    unfold isEndAccess in Hea. rewrite Hk in Hea. discriminate.
  - intros E. destruct committing_temp as ((b & Hf) & (lex & dyn & Hk) & _).
    pose proof (findInst_unique f _ _ _ ea unique Hf
                  (scopeRange_In _ _ _ _ Hin) E) as ->.
    unfold isEndAccess in Hea. rewrite Hk in Hea. discriminate.
Qed.

Lemma committing_unique1 : uniqueIds f1.
Proof.
  destruct committing_extended as [->|(ea & _ & _ & _ & _ & ->)]; auto.
  now apply uniqueIds_moveAfter.
Qed.

Lemma committing_find1 id :
  id = copyId \/ id = instId tempObj -> findInst f1 id = findInst f id.
Proof.
  intros Hid.
  destruct committing_extended as [->|(ea & _ & _ & H1 & H2 & ->)]; [reflexivity|].
  apply findInst_moveAfter_other. destruct Hid; congruence.
Qed.

Local Abbreviation committing_f2 := (withSynthesizedDestroy c tempObj lastLoadInst f1).

Lemma committing_find2 id :
  id = copyId \/ id = instId tempObj -> findInst committing_f2 id = findInst f id.
Proof.
  intros Hid. unfold withSynthesizedDestroy. rewrite <- (committing_find1 id Hid).
  destruct need; [|reflexivity].
  apply findInst_insertAfter_other. simpl.
  assert (exists b i, findInst f1 id = Some (b, i)) as (b & i & Hf).
  { rewrite (committing_find1 id Hid).
    destruct Hid as [-> | ->].
    - destruct committing_copy as (Hf & _). eauto.
    - destruct committing_temp as ((b & Hf) & _). eauto. }
  pose proof (findInst_In _ _ _ _ Hf) as Hin. apply freshId_neq in Hin.
  apply findInst_id in Hf. congruence.
Qed.

(** The rewriter's result, in closed form. *)
Lemma committing_result :
  exists f',
    tryOptimizeCopyIntoTemp accessBase computeFrontier aa copyId f
      = Some (Continue tt, f') /\
    f' = expandInsts image committing_f2 /\
    getUses f' temp = [] /\
    findInst f' (instId tempObj) = None /\
    uniqueIds committing_f2.
Proof.
  rewrite (commits_runs_commit _ _ _ _ _ _ _ _ _ commits).
  destruct committing_copy as (_ & Hid & _). rewrite <- Hid.
  apply commitCopy_result; [apply committing_unique1|assumption].
Qed.

(** The image of the initializing copy: an identity copy. *)
Lemma committing_copy_image :
  image (caInst c)
  = [mkInst copyId (CopyAddrInst (caSrc c) (caSrc c) (caIsTakeOfSrc c) true)].
Proof.
  destruct committing_copy as (_ & Hid & Hk).
  destruct committing_temp as (_ & _ & Hne).
  unfold commitImage. rewrite Hid, Hk.
  apply Nat.eqb_neq in Hne. rewrite Nat.eqb_sym in Hne. rewrite Hne.
  rewrite Nat.eqb_refl. unfold redirect. rewrite SILValue_eqb_refl.
  apply SILValue_eqb_neq in distinct. rewrite distinct. simpl.
  rewrite ?andb_false_r. reflexivity.
Qed.

(** After the commit the initializing copy is still there, as an identity
    copy in the same block. *)
Lemma committing_copy_kept f' :
  f' = expandInsts image committing_f2 -> uniqueIds committing_f2 ->
  findInst f' copyId
  = Some (caParent c,
          mkInst copyId (CopyAddrInst (caSrc c) (caSrc c) (caIsTakeOfSrc c) true)).
Proof.
  intros -> Hu2.
  pose proof (committing_find2 copyId (or_introl eq_refl)) as Hf2.
  destruct committing_copy as (Hf & Hid & Hk). rewrite Hf in Hf2.
  rewrite (findInst_expand_in image
             (fun _ => mkInst copyId (CopyAddrInst (caSrc c) (caSrc c)
                                                   (caIsTakeOfSrc c) true))
             copyId).
  - now rewrite Hf2.
  - intros i Hi E.
    rewrite (findInst_unique _ _ _ _ i Hu2 Hf2 Hi E), committing_copy_image. eauto.
  - intros i j Hi E Hj. apply commitImage_ids in Hj. congruence.
Qed.


(** Only the initializing copy writes into the temporary. *)
Lemma committing_only_writer i :
  In i (allInsts f) -> writesInto temp i = true -> instId i = copyId.
Proof.
  intros Hi Hw. destruct (Nat.eq_dec (instId i) copyId) as [E|E]; [assumption|].
  exfalso. unfold writesInto in Hw.
  destruct (instKind i) as [| | | s d t n | | | | | | | | | | | | | | | | | | | | | | | | |] eqn:Hk;
    try discriminate.
  apply SILValue_eqb_eq in Hw. subst d.
  destruct (getUses_complete f temp i 1 Hi) as (u & Hu & Hui & Hidx).
  { rewrite Hk. reflexivity. }
  destruct commits as [_ _ _ (l & us & Hs & _ & _) _ _ _].
  destruct committing_copy as (_ & Hid & _).
  destruct (scanTempUses_collected _ _ _ _ _ _ _ _ _ Hs u Hu) as (l0 & l1 & Hc).
  - rewrite Hui, Hid. assumption.
  - rewrite Hui. unfold isDeallocStack. now rewrite Hk.
  - rewrite Hui. unfold isDestroyAddr. now rewrite Hk.
  - rewrite <- Hui in Hk.
    pose proof (collectLoads_copy_reads _ _ _ _ _ _ _ _ _ _ Hc Hk) as Hd.
    apply getUses_In in Hu. destruct Hu as (_ & Hv & _). congruence.
Qed.

Lemma committing_copy_in : In (caInst c) (allInsts f).
Proof. destruct committing_copy as (Hf & _). eapply findInst_In; eassumption. Qed.

Lemma committing_temp_in : In tempObj (allInsts f).
Proof. destruct committing_temp as ((b & Hf) & _). eapply findInst_In; eassumption. Qed.

Lemma committing_last_in : In lastLoadInst (allInsts f).
Proof.
  destruct committing_last as [E|H]; [rewrite E; apply committing_copy_in|].
  eapply instsAfter_In; eassumption.
Qed.

(** The three hypotheses of the counting lemma, for instructions of [f]. *)
Lemma committing_count i :
  In i (allInsts f) ->
  destroyCount (caSrc c) (image i)
  = destroyCount (caSrc c) [i]
    + (if isFinalTake (caIsTakeOfSrc c) temp (instId lastLoadInst) i then 1 else 0).
Proof.
  intros Hi. destruct committing_copy as (Hf & Hid & Hk).
  destruct committing_temp as ((b & Hft) & (lex & dyn & Hkt) & _).
  apply commitImage_destroyCount; auto.
  - intros E. rewrite (findInst_unique f _ _ _ i unique Hft Hi E), Hkt. reflexivity.
  - now apply committing_only_writer.
  - intros E. now rewrite (findInst_unique f _ _ _ i unique Hf Hi E).
Qed.

Lemma needToInsertDestroy_spec nfd last :
  needToInsertDestroy nfd c temp last
  = nfd && ((instId last =? instId (caInst c))
            || negb (isTakeCopyFrom temp last || isTakeLoadFrom temp last)).
Proof.
  unfold needToInsertDestroy, isTakeCopyFrom, isTakeLoadFrom.
  destruct nfd; [|reflexivity]. simpl.
  destruct (instId last =? instId (caInst c)); [reflexivity|]. simpl.
  destruct (instKind last); try reflexivity;
    rewrite ?orb_false_r, ?orb_false_l;
    match goal with |- context [if ?b then _ else _] => now destruct b end.
Qed.

(** At the boundary, the final take or the synthesized destroy, never both. *)
Lemma committing_boundary_once :
  instId lastLoadInst <> copyId ->
  (if isFinalTake (caIsTakeOfSrc c) temp (instId lastLoadInst) lastLoadInst
   then 1 else 0) + (if need then 1 else 0)
  = if caIsTakeOfSrc c then 1 else 0.
Proof.
  intros Hne. destruct committing_copy as (_ & Hid & _).
  rewrite needToInsertDestroy_spec, Hid. unfold isFinalTake.
  apply Nat.eqb_neq in Hne. rewrite Hne, Nat.eqb_refl.
  destruct (caIsTakeOfSrc c); simpl; [|reflexivity].
  now destruct (isTakeCopyFrom temp lastLoadInst || isTakeLoadFrom temp lastLoadInst).
Qed.

Lemma committing_need_at_copy :
  instId lastLoadInst = copyId -> need = caIsTakeOfSrc c.
Proof.
  intros E. destruct committing_copy as (_ & Hid & _).
  rewrite needToInsertDestroy_spec, Hid, E, Nat.eqb_refl. simpl.
  apply andb_true_r.
Qed.

(** The relocation, as an instruction-wise edit of [f]. *)
Lemma committing_moved :
  exists moved,
    f1 = expandInsts (moveImage moved (instId lastLoadInst)) f /\
    (moved = None \/
     exists ea, moved = Some ea /\ In ea (allInsts f) /\ isEndAccess ea = true /\
                instId ea <> copyId /\ instId ea <> instId tempObj /\
                instId ea <> instId lastLoadInst /\
                instId lastLoadInst <> copyId).
Proof.
  destruct committing_extended as [Ef|(ea & Hin & Hea & H1 & H2 & Ef)].
  - exists None. split; [|now left]. rewrite Ef. symmetry. apply expandInsts_id.
  - unfold moveAfter in Ef. destruct (instId ea =? instId lastLoadInst) eqn:E.
    + exists None. split; [|now left]. rewrite Ef. symmetry. apply expandInsts_id.
    + exists (Some ea). split.
      * rewrite Ef. unfold insertAfter, eraseFromParent. rewrite expandInsts_compose.
        apply expandInsts_ext_in. intros i _. unfold moveImage.
        destruct (instId i =? instId ea); [reflexivity|]. simpl.
        now rewrite app_nil_r.
      * right. exists ea. apply Nat.eqb_neq in E.
        repeat split; auto; [eapply scopeRange_In; eassumption|].
        intros El. unfold scopeRange in Hin.
        destruct committing_copy as (_ & Hid & _).
        rewrite Hid, El, Nat.eqb_refl in Hin. destruct Hin.
Qed.

Lemma flat_map_concat_map_assoc {A B C} (g : B -> list C) (h : A -> list B) l :
  flat_map g (flat_map h l) = flat_map (fun x => flat_map g (h x)) l.
Proof.
  induction l as [|x l IH]; [reflexivity|].
  simpl. now rewrite flat_map_app, IH.
Qed.

Local Abbreviation whole moved :=
  (rewriteImage copyId (instId tempObj) (caSrc c) (caIsTakeOfSrc c)
                (instId lastLoadInst) moved need destroy).

(** The whole rewrite, as an instruction-wise edit of [f]. *)
Lemma committing_whole :
  exists moved f',
    tryOptimizeCopyIntoTemp accessBase computeFrontier aa copyId f
      = Some (Continue tt, f') /\
    f' = expandInsts (whole moved) f /\
    getUses f' temp = [] /\
    findInst f' (instId tempObj) = None /\
    findInst f' copyId
    = Some (caParent c,
            mkInst copyId (CopyAddrInst (caSrc c) (caSrc c) (caIsTakeOfSrc c) true)) /\
    (moved = None \/
     exists ea, moved = Some ea /\ In ea (allInsts f) /\ isEndAccess ea = true /\
                instId ea <> copyId /\ instId ea <> instId tempObj /\
                instId ea <> instId lastLoadInst /\
                instId lastLoadInst <> copyId).
Proof.
  destruct committing_moved as (moved & Hf1 & Hm).
  destruct committing_result as (f' & Hr & Hf' & Hno & Hgone & Hu2).
  exists moved, f'. repeat split; auto.
  - rewrite Hf'. unfold withSynthesizedDestroy.
    destruct committing_copy as (_ & Hid & _).
    assert (E : (if need then insertAfter (instId lastLoadInst) destroy f1 else f1)
                = expandInsts (destroyImage need (instId lastLoadInst) destroy) f1).
    { unfold destroyImage. destruct need; simpl.
      - reflexivity.
      - symmetry. apply expandInsts_id. }
    rewrite E. unfold rewriteImage.
    set (D := destroyImage need (instId lastLoadInst) destroy).
    set (I := commitImage _ _ _ _ _).
    clearbody D I. rewrite Hf1 at 1. rewrite !expandInsts_compose.
    apply expandInsts_ext_in. intros i _. symmetry. apply flat_map_concat_map_assoc.
  - now apply committing_copy_kept.
Qed.

Lemma committing_destroy_image : image destroy = [destroy].
Proof.
  unfold commitImage. cbn [instId instKind].
  assert (E : (freshId f1 =? instId tempObj) = false).
  { apply Nat.eqb_neq. intros E.
    destruct committing_temp as ((b & Hf) & _).
    rewrite <- (committing_find1 _ (or_intror eq_refl)) in Hf.
    apply findInst_In in Hf. apply freshId_neq in Hf. congruence. }
  rewrite E. pose proof distinct as D. apply SILValue_eqb_neq in D. now rewrite D.
Qed.

Lemma destroy_consumes : destroyCount (caSrc c) [destroy] = 1.
Proof.
  unfold destroyCount, consumes, isDestroyAddrOf. simpl.
  now rewrite SILValue_eqb_refl.
Qed.

Lemma end_access_count ea :
  In ea (allInsts f) -> isEndAccess ea = true ->
  destroyCount (caSrc c) (image ea) = 0.
Proof.
  intros Hin Hea. rewrite (committing_count ea Hin).
  assert (Hk : hasOwnClause (instKind ea) = false).
  { unfold isEndAccess in Hea. destruct (instKind ea); try discriminate. reflexivity. }
  rewrite destroyCount_cons, (consumes_other_kind _ _ Hk).
  unfold isFinalTake, isTakeCopyFrom, isTakeLoadFrom, isEndAccess in *.
  destruct (instKind ea); try discriminate. simpl. now rewrite andb_false_r.
Qed.

Section Whole.

Variable moved : option SILInstruction.
Hypothesis movedOk :
  moved = None \/
  exists ea, moved = Some ea /\ In ea (allInsts f) /\ isEndAccess ea = true /\
             instId ea <> copyId /\ instId ea <> instId tempObj /\
             instId ea <> instId lastLoadInst /\
             instId lastLoadInst <> copyId.

(** The image of the initializing copy under the whole rewrite. *)
Lemma whole_copy :
  whole moved (caInst c)
  = mkInst copyId (CopyAddrInst (caSrc c) (caSrc c) (caIsTakeOfSrc c) true)
    :: (if need && (copyId =? instId lastLoadInst) then [destroy] else []).
Proof.
  destruct committing_copy as (_ & Hid & _).
  assert (Em : moveImage moved (instId lastLoadInst) (caInst c) = [caInst c]).
  { destruct movedOk as [->|(ea & -> & _ & _ & H1 & _ & _ & H2)]; [reflexivity|].
    unfold moveImage. rewrite Hid.
    apply not_eq_sym in H1, H2. apply Nat.eqb_neq in H1, H2. now rewrite H1, H2. }
  unfold rewriteImage. rewrite Em. simpl. unfold destroyImage. rewrite Hid.
  destruct (need && (copyId =? instId lastLoadInst)); simpl.
  - now rewrite committing_copy_image, committing_destroy_image.
  - now rewrite committing_copy_image.
Qed.

(** The whole rewrite changes the consumption of the source only at the
    boundary, where it adds one when the copy took its source. *)
Lemma whole_count i :
  In i (allInsts f) -> instId i <> copyId ->
  destroyCount (caSrc c) (whole moved i)
  = destroyCount (caSrc c) [i]
    + (if caIsTakeOfSrc c && (instId i =? instId lastLoadInst) then 1 else 0).
Proof.
  intros Hi Hne.
  assert (Hlast : instId i = instId lastLoadInst -> i = lastLoadInst).
  { apply uniqueIds_eq with (f := f); auto. apply committing_last_in. }
  assert (Hnl : instId i <> instId lastLoadInst ->
                destroyCount (caSrc c) (image i) = destroyCount (caSrc c) [i]).
  { intros El. rewrite (committing_count i Hi). unfold isFinalTake.
    apply Nat.eqb_neq in El. rewrite El. simpl. rewrite andb_false_r. simpl. lia. }
  unfold rewriteImage, destroyImage.
  destruct movedOk as [->|(ea & -> & Hin & Hea & H1 & H2 & H3 & H4)]; simpl.
  - rewrite app_nil_r.
    destruct (instId i =? instId lastLoadInst) eqn:El.
    + apply Nat.eqb_eq in El. pose proof (Hlast El) as ->.
      rewrite !andb_true_r. rewrite <- (committing_boundary_once Hne).
      destruct need; simpl; rewrite ?app_nil_r.
      * rewrite destroyCount_app, committing_count, committing_destroy_image,
          destroy_consumes by assumption. lia.
      * rewrite committing_count by assumption. lia.
    + rewrite !andb_false_r. simpl. rewrite app_nil_r, Nat.add_0_r.
      apply Hnl. now apply Nat.eqb_neq.
  - destruct (instId i =? instId ea) eqn:Ee.
    + apply Nat.eqb_eq in Ee.
      pose proof (uniqueIds_eq f i ea unique Hi Hin Ee) as ->.
      apply Nat.eqb_neq in H3. rewrite H3, andb_false_r. simpl.
      assert (Hk : hasOwnClause (instKind ea) = false).
      { unfold isEndAccess in Hea. destruct (instKind ea); try discriminate. reflexivity. }
      now rewrite destroyCount_cons, (consumes_other_kind _ _ Hk).
    + destruct (instId i =? instId lastLoadInst) eqn:El.
      * apply Nat.eqb_eq in El. pose proof (Hlast El) as ->.
        rewrite !andb_true_r. rewrite <- (committing_boundary_once Hne).
        apply Nat.eqb_neq in H3. simpl. rewrite H3, andb_false_r. simpl.
        destruct need; rewrite ?Nat.eqb_refl; simpl; rewrite ?flat_map_app; simpl;
          rewrite ?app_nil_r, ?destroyCount_app.
        -- rewrite committing_count, committing_destroy_image,
             destroy_consumes, end_access_count by assumption. lia.
        -- rewrite committing_count, end_access_count by assumption. lia.
      * simpl. rewrite El, !andb_false_r. simpl. rewrite app_nil_r, Nat.add_0_r.
        apply Hnl. now apply Nat.eqb_neq.
Qed.

(** Identities under the whole rewrite: those of the instruction, of the
    relocated end_access and of the synthesized destroy. *)
Lemma whole_ids i j :
  In i (allInsts f) -> instId i <> copyId -> In j (whole moved i) -> instId j <> copyId.
Proof.
  intros Hi Hne Hj. unfold rewriteImage in Hj.
  apply in_flat_map in Hj. destruct Hj as (k & Hk & Hj).
  apply commitImage_ids in Hj. rewrite Hj. clear Hj j.
  apply in_flat_map in Hk. destruct Hk as (m & Hm & Hk).
  assert (Em : instId m <> copyId).
  { unfold moveImage in Hm.
    destruct movedOk as [->|(ea & -> & _ & _ & H1 & _)].
    - destruct Hm as [<-|[]]. assumption.
    - destruct (instId i =? instId ea); [destruct Hm|].
      destruct (instId i =? instId lastLoadInst).
      + destruct Hm as [<-|[<-|[]]]; assumption.
      + destruct Hm as [<-|[]]. assumption. }
  unfold destroyImage in Hk.
  destruct (need && (instId m =? instId lastLoadInst)).
  - destruct Hk as [<-|[<-|[]]]; [assumption|]. simpl.
    intros E. destruct committing_copy as (Hf & _).
    rewrite <- (committing_find1 _ (or_introl eq_refl)) in Hf.
    apply findInst_In in Hf. apply freshId_neq in Hf.
    destruct committing_copy as (_ & Hid & _). congruence.
  - destruct Hk as [<-|[]]. assumption.
Qed.

End Whole.

Lemma destroyCount_singletons v l :
  list_sum (map (fun i => destroyCount v [i]) l) = destroyCount v l.
Proof.
  induction l as [|i l IH]; [reflexivity|].
  simpl. rewrite IH, (destroyCount_cons v i l), (destroyCount_cons v i []).
  change (destroyCount v []) with 0. lia.
Qed.

Lemma committing_block_of_last : In lastLoadInst (getBlock f (caParent c)).
Proof.
  destruct committing_copy as (Hf & _).
  destruct committing_last as [E|H].
  - rewrite E. apply findInst_block in Hf. eapply findInBlock_In; eassumption.
  - eapply instsAfter_block; eassumption.
Qed.

(** How often the instructions after the copy have the boundary's
    identity: once, unless the boundary is the copy itself. *)
Lemma committing_boundary_count :
  list_sum (map (fun i => if instId i =? instId lastLoadInst then 1 else 0)
                (instsAfter f copyId))
  = if instId lastLoadInst =? copyId then 0 else 1.
Proof.
  destruct (instId lastLoadInst =? copyId) eqn:E.
  - apply Nat.eqb_eq in E. rewrite E. apply count_identity_absent.
    intros i Hi. now apply instsAfter_other_id with (f := f).
  - apply count_identity; [now apply uniqueIds_instsAfter|].
    destruct committing_last as [El|H]; [|assumption].
    destruct committing_copy as (_ & Hid & _). apply Nat.eqb_neq in E.
    rewrite El in E. contradiction.
Qed.

(** The rewrite of a committing candidate: the temporary is gone, the
    initializing copy is an identity copy, and on every path leaving the
    copy the source is consumed once more exactly when the copy took it. *)
Lemma committing_paths :
  exists f',
    tryOptimizeCopyIntoTemp accessBase computeFrontier aa copyId f
      = Some (Continue tt, f') /\
    getUses f' temp = [] /\
    findInst f' (instId tempObj) = None /\
    findInst f' copyId
    = Some (caParent c,
            mkInst copyId (CopyAddrInst (caSrc c) (caSrc c) (caIsTakeOfSrc c) true)) /\
    forall bs, (forall b, In b bs -> b <> caParent c) ->
      destroyCount (caSrc c) (pathFromCopy f' copyId bs)
      = (if caIsTakeOfSrc c then 1 else 0)
        + destroyCount (caSrc c) (pathFromCopy f copyId bs) /\
      destroyCount temp (pathFromCopy f' copyId bs) = 0.
Proof.
  destruct committing_whole as (moved & f' & Hr & Hf' & Hno & Hgone & Hcopy & Hm).
  exists f'. repeat split; auto.
  - (* the source *)
    destruct committing_copy as (Hf & Hid & Hk).
    unfold pathFromCopy. rewrite !destroyCount_app.
    assert (Hafter : destroyCount (caSrc c) (instsAfter f' copyId)
                     = (if caIsTakeOfSrc c then 1 else 0)
                       + destroyCount (caSrc c) (instsAfter f copyId)).
    { unfold instsAfter at 1. rewrite Hcopy, Hf', getBlock_expand.
      rewrite (afterIn_expand_in (whole moved)
                 (fun _ => mkInst copyId (CopyAddrInst (caSrc c) (caSrc c)
                                                       (caIsTakeOfSrc c) true))
                 copyId (getBlock f (caParent c)) (caInst c)
                 (if need && (copyId =? instId lastLoadInst) then [destroy] else [])).
      - replace (afterIn copyId (getBlock f (caParent c))) with (instsAfter f copyId)
          by (unfold instsAfter; now rewrite Hf).
        rewrite destroyCount_app, destroyCount_flat_map.
        rewrite (list_sum_map_ext_in _
                   (fun i => destroyCount (caSrc c) [i]
                             + (if caIsTakeOfSrc c && (instId i =? instId lastLoadInst)
                                then 1 else 0))).
        + rewrite list_sum_map_add, destroyCount_singletons.
          pose proof committing_boundary_count as Hb.
          rewrite (Nat.eqb_sym copyId).
          destruct (instId lastLoadInst =? copyId) eqn:El.
          * apply Nat.eqb_eq in El. rewrite (committing_need_at_copy El), andb_true_r.
            destruct (caIsTakeOfSrc c); simpl.
            -- rewrite Hb, destroy_consumes. lia.
            -- assert (Z : forall l : list SILInstruction,
                          list_sum (map (fun _ => 0) l) = 0).
               { induction l; simpl; auto. }
               rewrite Z. change (destroyCount (caSrc c) []) with 0. lia.
          * rewrite andb_false_r.
            destruct (caIsTakeOfSrc c); simpl.
            -- rewrite Hb. change (destroyCount (caSrc c) []) with 0. lia.
            -- assert (Z : forall l : list SILInstruction,
                          list_sum (map (fun _ => 0) l) = 0).
               { induction l; simpl; auto. }
               rewrite Z. change (destroyCount (caSrc c) []) with 0. lia.
        + intros i Hi. apply whole_count; auto.
          * eapply instsAfter_In; eassumption.
          * now apply instsAfter_other_id with (f := f).
      - intros i j Hi Hne. apply whole_ids; auto.
        eapply getBlock_allInsts; eassumption.
      - now apply findInst_block.
      - rewrite whole_copy by assumption. reflexivity.
      - reflexivity. }
    rewrite Hafter. rewrite <- Nat.add_assoc. f_equal. f_equal.
    induction bs as [|b bs IH]; [reflexivity|].
    simpl. rewrite !destroyCount_app, IH by (intros b' Hb'; apply H; now right).
    f_equal. rewrite Hf', getBlock_expand, destroyCount_flat_map.
    rewrite <- destroyCount_singletons. apply list_sum_map_ext_in.
    intros i Hi.
    assert (Hb : b <> caParent c) by (apply H; now left).
    rewrite whole_count; auto.
    + assert (E : (instId i =? instId lastLoadInst) = false).
      { apply Nat.eqb_neq. intros E. apply Hb.
        eapply uniqueIds_same_block with (f := f); eauto.
        apply committing_block_of_last. }
      rewrite E, andb_false_r. lia.
    + eapply getBlock_allInsts; eassumption.
    + intros E. apply Hb.
      eapply uniqueIds_same_block with (f := f) (j := caInst c); eauto.
      * apply findInst_block in Hf. eapply findInBlock_In; eassumption.
      * congruence.
  - (* the temporary *)
    apply destroyCount_unused. intros i Hi.
    apply (proj1 (getUses_nil f' temp) Hno).
    unfold pathFromCopy in Hi. apply in_app_or in Hi. destruct Hi as [Hi|Hi].
    + eapply instsAfter_In; eassumption.
    + apply in_flat_map in Hi. destruct Hi as (b & _ & Hi).
      eapply getBlock_allInsts; eassumption.
Qed.
End Committing.

(* ----------------------------------------------------------------- *)
(** ** The store rewriter *)

Lemma findInst_None_eraseFromParent x id f :
  findInst f id = None -> findInst (eraseFromParent x f) id = None.
Proof.
  intros H. destruct (Nat.eq_dec x id) as [->|Hne].
  - apply findInst_eraseFromParent.
  - now rewrite findInst_eraseFromParent_other.
Qed.

Lemma findInst_erase_list l : forall f id,
  In id l \/ findInst f id = None ->
  findInst (fold_left (fun f x => eraseFromParent x f) l f) id = None.
Proof.
  induction l as [|x l IH]; intros f id H.
  - destruct H as [[]|H]. exact H.
  - simpl. apply IH. destruct H as [[->|H]|H]; auto.
    + right. apply findInst_eraseFromParent.
    + right. now apply findInst_None_eraseFromParent.
Qed.

Lemma findInst_eraseAll toDelete f id :
  In id toDelete -> findInst (eraseAll toDelete f) id = None.
Proof.
  intros H. unfold eraseAll. apply findInst_erase_list. left. now apply in_rev in H.
Qed.

(** Every handled user ends in [toDelete]. *)
Lemma rewriteStoreUse_toDelete si src g td use g' td' :
  rewriteStoreUse si src (g, td) use = Some (g', td') ->
  td' = td ++ (if instId (opUser use) =? si then [] else [instId (opUser use)]).
Proof.
  unfold rewriteStoreUse. destruct (instId (opUser use) =? si).
  - intros [= <- <-]. now rewrite app_nil_r.
  - destruct (findInst g (instId (opUser use))) as [[b user]|]; [|discriminate].
    destruct (instKind user); try discriminate;
      repeat match goal with
             | |- context [let '(_, _) := ?x in _] => destruct x
             end;
      intros [= <- <-]; reflexivity.
Qed.

Lemma rewriteStoreUses_toDelete si src uses : forall g td g' td',
  rewriteStoreUses si src uses (g, td) = Some (g', td') ->
  forall u, In u uses -> instId (opUser u) <> si -> In (instId (opUser u)) td'.
Proof.
  induction uses as [|a uses IH]; intros g td g' td' H u Hin Hne; [destruct Hin|].
  cbn [rewriteStoreUses] in H.
  destruct (rewriteStoreUse si src (g, td) a) as [[g1 td1]|] eqn:E; [|discriminate].
  pose proof (rewriteStoreUse_toDelete _ _ _ _ _ _ _ E) as Htd.
  assert (Hmono : forall x, In x td1 -> In x td').
  { clear -H. revert g1 td1 H.
    induction uses as [|b uses IHu]; intros g1 td1 H x Hx.
    - simpl in H. injection H as <- <-. exact Hx.
    - cbn [rewriteStoreUses] in H.
      destruct (rewriteStoreUse si src (g1, td1) b) as [[g2 td2]|] eqn:E2; [|discriminate].
      apply (IHu _ _ H). rewrite (rewriteStoreUse_toDelete _ _ _ _ _ _ _ E2).
      apply in_or_app. now left. }
  destruct Hin as [->|Hin].
  - apply Hmono. rewrite Htd. apply Nat.eqb_neq in Hne. rewrite Hne.
    apply in_or_app. right. now left.
  - eapply IH; eassumption.
Qed.

Lemma mapValuesFrom_const (s : SILValue -> SILValue) l : forall n,
  mapValuesFrom n (fun _ v => s v) l = map s l.
Proof. induction l as [|x l IH]; intros n; simpl; [reflexivity|now rewrite IH]. Qed.

Lemma getAllOperands_substValue old new k :
  getAllOperands (substValue old new k)
  = map (fun v => if SILValue_eqb v old then new else v) (getAllOperands k).
Proof.
  unfold substValue. rewrite getAllOperands_mapOperands. apply mapValuesFrom_const.
Qed.

Lemma In_substValue x old new k :
  In x (getAllOperands (substValue old new k)) ->
  x = new \/ (In x (getAllOperands k) /\ x <> old).
Proof.
  rewrite getAllOperands_substValue, in_map_iff. intros (v & E & Hv).
  destruct (SILValue_eqb v old) eqn:Ev; [left; congruence|].
  right. subst x. split; [assumption|]. now apply SILValue_eqb_neq.
Qed.

Lemma allInsts_replaceAllUsesWith old new f i :
  In i (allInsts (replaceAllUsesWith old new f)) ->
  exists j, In j (allInsts f) /\ i = mkInst (instId j) (substValue old new (instKind j)).
Proof.
  unfold replaceAllUsesWith. rewrite allInsts_expand, in_flat_map.
  intros (j & Hj & [<-|[]]). eauto.
Qed.

Lemma allInsts_insertBefore pos new f i :
  In i (allInsts (insertBefore pos new f)) -> i = new \/ In i (allInsts f).
Proof.
  unfold insertBefore. rewrite allInsts_expand, in_flat_map.
  intros (j & Hj & H). destruct (instId j =? pos).
  - destruct H as [<-|[<-|[]]]; auto.
  - destruct H as [<-|[]]; auto.
Qed.

(** After [replaceAllUsesWith old new] nothing uses [old]. *)
Lemma getUses_replaced old new f :
  new <> old -> getUses (replaceAllUsesWith old new f) old = [].
Proof.
  intros Hne. apply getUses_nil. intros i Hi Hop.
  apply allInsts_replaceAllUsesWith in Hi. destruct Hi as (j & _ & ->). simpl in Hop.
  apply In_substValue in Hop. destruct Hop as [E|[_ E]]; congruence.
Qed.

Lemma noUse_replaceAllUsesWith v old new f :
  getUses f v = [] -> new <> v -> getUses (replaceAllUsesWith old new f) v = [].
Proof.
  rewrite !getUses_nil. intros H Hne i Hi Hop.
  apply allInsts_replaceAllUsesWith in Hi. destruct Hi as (j & Hj & ->). simpl in Hop.
  apply In_substValue in Hop. destruct Hop as [E|[Hop _]]; [congruence|].
  exact (H j Hj Hop).
Qed.

Lemma noUse_insertBefore v pos new f :
  getUses f v = [] -> ~ In v (getAllOperands (instKind new)) ->
  getUses (insertBefore pos new f) v = [].
Proof.
  rewrite !getUses_nil. intros H Hnew i Hi.
  apply allInsts_insertBefore in Hi. destruct Hi as [->|Hi]; auto.
Qed.

Lemma findInst_insertBefore_other pos new f id :
  instId new <> id -> findInst (insertBefore pos new f) id = findInst f id.
Proof.
  intros Hne. apply Nat.eqb_neq in Hne.
  unfold findInst, insertBefore, expandInsts. simpl. generalize 0.
  induction (blocks f) as [|blk bs IH]; intros n; [reflexivity|]. simpl.
  assert (E : findInBlock id
                (flat_map (fun i => if instId i =? pos then [new; i] else [i]) blk)
              = findInBlock id blk).
  { induction blk as [|i blk IHb]; [reflexivity|]. simpl.
    destruct (instId i =? pos); simpl; rewrite ?Hne;
      destruct (instId i =? id); auto. }
  now rewrite E, IH.
Qed.

Lemma findInst_replaceAllUsesWith old new f id :
  findInst (replaceAllUsesWith old new f) id
  = option_map (fun p => (fst p, mkInst (instId (snd p))
                                        (substValue old new (instKind (snd p)))))
               (findInst f id).
Proof.
  unfold replaceAllUsesWith.
  apply (findInst_expand_in _
           (fun i => mkInst (instId i) (substValue old new (instKind i))) id).
  - intros i _ E. eauto.
  - intros i j _ E [<-|[]]. exact E.
Qed.

Section LoadOfTemporary.

Variable si : InstId.
Variable src : SILValue.
Variable li : InstId.
Variable q : LoadOwnershipQualifier.
Hypothesis notStored : src <> InstResult li.

Lemma isLoadAt_present g : isLoadAt g li q -> freshId g <> li.
Proof.
  intros (b & op & Hf) E. apply findInst_In in Hf. apply freshId_neq in Hf.
  simpl in Hf. congruence.
Qed.

Lemma isLoadAt_insertBefore g pos k :
  isLoadAt g li q -> isLoadAt (insertBefore pos (mkInst (freshId g) k) g) li q.
Proof.
  intros H. pose proof (isLoadAt_present g H) as Hne.
  destruct H as (b & op & Hf). exists b, op.
  now rewrite findInst_insertBefore_other.
Qed.

Lemma isLoadAt_replaceAllUsesWith g old new :
  isLoadAt g li q -> isLoadAt (replaceAllUsesWith old new g) li q.
Proof.
  intros (b & op & Hf).
  unfold isLoadAt. rewrite findInst_replaceAllUsesWith, Hf. simpl. eauto.
Qed.

(** The load stays a load while the uses are rewritten. *)
Lemma rewriteStoreUse_isLoadAt g td use g' td' :
  rewriteStoreUse si src (g, td) use = Some (g', td') ->
  isLoadAt g li q -> isLoadAt g' li q.
Proof.
  unfold rewriteStoreUse, emitDestroyValueOperation, emitStoreValueOperation,
    emitCopyValueOperation.
  destruct (instId (opUser use) =? si); [intros [= <- <-]; auto|].
  destruct (findInst g (instId (opUser use))) as [[b user]|]; [|discriminate].
  destruct (instKind user); try discriminate;
    repeat match goal with
           | |- context [if ?c then _ else _] => destruct c
           end;
    intros [= <- <-] H;
    repeat first [ apply isLoadAt_replaceAllUsesWith
                 | apply isLoadAt_insertBefore ]; assumption.
Qed.

(** Once nothing uses the load's result, nothing will. *)
Lemma rewriteStoreUse_noUse g td use g' td' :
  rewriteStoreUse si src (g, td) use = Some (g', td') ->
  isLoadAt g li q -> getUses g (InstResult li) = [] ->
  getUses g' (InstResult li) = [].
Proof.
  unfold rewriteStoreUse, emitDestroyValueOperation, emitStoreValueOperation,
    emitCopyValueOperation.
  destruct (instId (opUser use) =? si); [intros [= <- <-]; auto|].
  destruct (findInst g (instId (opUser use))) as [[b user]|] eqn:Hf; [|discriminate].
  intros Hstep Hl Hno.
  pose proof (isLoadAt_present g Hl) as Hfresh.
  assert (Hres : InstResult (freshId g) <> InstResult li) by congruence.
  assert (Huser : ~ In (InstResult li) (getAllOperands (instKind user))).
  { apply (proj1 (getUses_nil g _) Hno). eapply findInst_In; eassumption. }
  assert (Hsrc : ~ In (InstResult li) [src]).
  { intros [E|[]]. congruence. }
  destruct (instKind user) eqn:Hk; try discriminate; simpl in Huser.
  - (* dealloc_stack *) injection Hstep as <- <-. assumption.
  - (* destroy_addr *) injection Hstep as <- <-.
    apply noUse_insertBefore; assumption.
  - (* copy_addr *)
    destruct (negb isTakeOfSrc); injection Hstep as <- <-.
    + apply noUse_insertBefore.
      * apply noUse_insertBefore; assumption.
      * simpl. intros [E|[E|[]]]; [congruence|]. apply Huser. auto.
    + apply noUse_insertBefore; [assumption|].
      simpl. intros [E|[E|[]]]; [congruence|]. apply Huser. auto.
  - (* load *)
    destruct (LoadQualifier_eqb qualifier LoadCopy); injection Hstep as <- <-.
    + apply noUse_replaceAllUsesWith; [|assumption].
      apply noUse_insertBefore; assumption.
    + apply noUse_replaceAllUsesWith; [assumption|congruence].
  - (* mark_dependence *) injection Hstep as <- <-.
    apply noUse_replaceAllUsesWith; [|assumption].
    apply noUse_insertBefore; [assumption|].
    simpl. intros [E|[E|[]]]; [|congruence]. apply Huser. auto.
  - (* fix_lifetime *) injection Hstep as <- <-.
    apply noUse_insertBefore; assumption.
Qed.

(** The step on the load itself: its uses are redirected. *)
Lemma rewriteStoreUse_load g td use :
  instId (opUser use) = li -> li <> si -> isLoadAt g li q ->
  rewriteStoreUse si src (g, td) use = Some (loadReplaced src li q g, td ++ [li]) /\
  getUses (loadReplaced src li q g) (InstResult li) = [].
Proof.
  intros Hid Hne Hl. pose proof (isLoadAt_present g Hl) as Hfresh.
  destruct Hl as (b & op & Hf).
  unfold rewriteStoreUse, loadReplaced, emitCopyValueOperation.
  rewrite Hid. apply Nat.eqb_neq in Hne. rewrite Hne, Hf. simpl.
  destruct (LoadQualifier_eqb q LoadCopy); split; try reflexivity;
    apply getUses_replaced; congruence.
Qed.

Lemma rewriteStoreUses_noUse uses : forall g td g' td',
  rewriteStoreUses si src uses (g, td) = Some (g', td') ->
  isLoadAt g li q -> getUses g (InstResult li) = [] ->
  getUses g' (InstResult li) = [].
Proof.
  induction uses as [|a uses IH]; intros g td g' td' H Hl Hno.
  - simpl in H. now injection H as <- <-.
  - cbn [rewriteStoreUses] in H.
    destruct (rewriteStoreUse si src (g, td) a) as [[g1 td1]|] eqn:E; [|discriminate].
    eapply IH; [eassumption| |].
    + eapply rewriteStoreUse_isLoadAt; eassumption.
    + eapply rewriteStoreUse_noUse; eassumption.
Qed.

(** After all uses are rewritten, nothing uses the result of a load of the
    temporary. *)
Lemma rewriteStoreUses_load uses : forall g td g' td' u,
  rewriteStoreUses si src uses (g, td) = Some (g', td') ->
  In u uses -> instId (opUser u) = li -> li <> si -> isLoadAt g li q ->
  getUses g' (InstResult li) = [].
Proof.
  induction uses as [|a uses IH]; intros g td g' td' u H Hin Hid Hne Hl; [destruct Hin|].
  cbn [rewriteStoreUses] in H.
  destruct (rewriteStoreUse si src (g, td) a) as [[g1 td1]|] eqn:E; [|discriminate].
  pose proof (rewriteStoreUse_isLoadAt _ _ _ _ _ E Hl) as Hl1.
  destruct Hin as [->|Hin].
  - destruct (rewriteStoreUse_load g td u Hid Hne Hl) as [E' Hno].
    rewrite E' in E. injection E as <- <-.
    eapply rewriteStoreUses_noUse; eassumption.
  - eapply IH; eassumption.
Qed.

End LoadOfTemporary.

(* ----------------------------------------------------------------- *)
(** ** The rewrites, end to end *)

Lemma findInBlocks_None bs : forall b id,
  findInBlocks b id bs = None -> forall i, In i (concat bs) -> instId i <> id.
Proof.
  induction bs as [|blk bs IH]; intros b id H i Hi; [destruct Hi|].
  simpl in *. destruct (findInBlock id blk) eqn:E; [discriminate|].
  apply in_app_or in Hi. destruct Hi as [Hi|Hi]; [|eapply IH; eassumption].
  clear -E Hi. induction blk as [|a blk IHb]; [destruct Hi|].
  simpl in E. destruct (instId a =? id) eqn:Ea; [discriminate|].
  destruct Hi as [<-|Hi]; [now apply Nat.eqb_neq|auto].
Qed.

(** With unique identities, an instruction is found under its identity. *)
Lemma findInst_of_In f i :
  uniqueIds f -> In i (allInsts f) -> exists b, findInst f (instId i) = Some (b, i).
Proof.
  intros Hu Hi. destruct (findInst f (instId i)) as [[b j]|] eqn:E.
  - exists b. f_equal. f_equal. symmetry.
    eapply findInst_unique; eauto.
  - exfalso. eapply findInBlocks_None; eauto.
Qed.




(* ================================================================= *)
(** * Further properties of the pass *)

(* ----------------------------------------------------------------- *)
(** ** The modification checker is conservative *)

Lemma lastUseLoop_sound aa copySrc useInsts insts : forall n last,
  n < size useInsts ->
  lastUseLoop aa copySrc useInsts n insts = Some last ->
  exists pre post,
    insts = pre ++ last :: post /\
    contains useInsts last = true /\
    (forall i, In i pre -> mayWriteToMemory aa i copySrc = false) /\
    (isFullApplySite last || isYield last) && mayWriteToMemory aa last copySrc = false /\
    n + recordedIn useInsts (pre ++ [last]) = size useInsts.
Proof.
  induction insts as [|a insts IH]; intros n last Hn; [discriminate|]. simpl.
  destruct (contains useInsts a) eqn:Ea.
  - destruct (S n =? size useInsts) eqn:E.
    + destruct ((isFullApplySite a || isYield a) && mayWriteToMemory aa a copySrc) eqn:Ew;
        [discriminate|].
      intros [= <-]. exists [], insts. apply Nat.eqb_eq in E.
      repeat split; auto; [intros i []|].
      simpl. rewrite recordedIn_cons, Ea. unfold recordedIn. simpl. lia.
    + destruct (mayWriteToMemory aa a copySrc) eqn:Ew; [discriminate|].
      intros H. apply Nat.eqb_neq in E. apply IH in H; [|lia].
      destruct H as (pre & post & -> & Hc & Hpre & Hw & Hcount).
      exists (a :: pre), post. repeat split; auto.
      * intros i [<-|Hi]; auto.
      * simpl. rewrite recordedIn_cons, Ea. lia.
  - destruct (n =? size useInsts) eqn:E; [apply Nat.eqb_eq in E; lia|].
    destruct (mayWriteToMemory aa a copySrc) eqn:Ew; [discriminate|].
    intros H. apply IH in H; [|assumption].
    destruct H as (pre & post & -> & Hc & Hpre & Hw & Hcount).
    exists (a :: pre), post. repeat split; auto.
    + intros i [<-|Hi]; auto.
    + simpl. rewrite recordedIn_cons, Ea. lia.
Qed.

(** X1. A boundary returned by the modification checker is the copy itself
    (no read was recorded) or a recorded read after the copy such that no
    instruction between the copy and the boundary may write to the source,
    every recorded read has been passed at the boundary, and the boundary, if
    it is a call or a yield, may not write to the source either. *)
Theorem getLastUse_sound (f : SILFunction) (copyInst : CopyAddr)
  (useInsts : InstructionSet) (aa : AliasAnalysis) (last : SILInstruction) :
  getLastUseWhileSourceIsNotModified f copyInst useInsts aa = Some last ->
  (useInsts = [] /\ last = caInst copyInst) \/
  (exists pre post,
     instsAfter f (instId (caInst copyInst)) = pre ++ last :: post /\
     contains useInsts last = true /\
     (forall i, In i pre -> mayWriteToMemory aa i (caSrc copyInst) = false) /\
     ((isFullApplySite last || isYield last) = true ->
      mayWriteToMemory aa last (caSrc copyInst) = false) /\
     recordedIn useInsts (pre ++ [last]) = size useInsts).
Proof.
  unfold getLastUseWhileSourceIsNotModified. destruct useInsts as [|x l] eqn:Eu.
  - simpl. intros [= <-]. now left.
  - cbn [empty]. intros H. right. apply lastUseLoop_sound in H; [|simpl; lia].
    destruct H as (pre & post & Hi & Hc & Hpre & Hw & Hcount).
    exists pre, post. repeat split; auto.
    intros Hk. rewrite Hk in Hw. exact Hw.
Qed.

(* ----------------------------------------------------------------- *)
(** ** What the scan of the uses records *)

Lemma insert_In i s x : In x (insert i s) <-> x = instId i \/ In x s.
Proof.
  unfold insert, contains. destruct (existsb (Nat.eqb (instId i)) s) eqn:E.
  - split; [auto|]. intros [->|H]; [|assumption].
    apply existsb_exists in E. destruct E as (y & Hy & E).
    apply Nat.eqb_eq in E. now subst y.
  - simpl. intuition.
Qed.

Lemma contains_In i s : contains s i = true <-> In (instId i) s.
Proof.
  unfold contains. rewrite existsb_exists. split.
  - intros (y & Hy & E). apply Nat.eqb_eq in E. now subst y.
  - intros H. exists (instId i). split; [assumption|apply Nat.eqb_refl].
Qed.

Section Recorded.

Variable f : SILFunction.
Variable block : nat.

Lemma growsInBlock_forEachUse visit uses :
  (forall o l, In o uses -> growsInBlock f block l (visit o l)) ->
  forall l, growsInBlock f block l (forEachUse visit uses l).
Proof.
  induction uses as [|a uses IH]; intros Hv l l' H x Hx.
  - simpl in H. injection H as <-. now left.
  - simpl in H. destruct (visit a l) as [[[|] l1]|] eqn:E; try discriminate.
    destruct (IH (fun o l0 Ho => Hv o l0 (or_intror Ho)) l1 l' H x Hx) as [Hin|Hin];
      [|now right].
    exact (Hv a l (or_introl eq_refl) l1 E x Hin).
Qed.

Lemma growsInBlock_recordInBlock o l :
  In (opUser o) (getBlock f (opBlock o)) -> growsInBlock f block l (recordInBlock block o l).
Proof.
  intros Hwf l' H x Hx. unfold recordInBlock in H.
  destruct (opBlock o =? block) eqn:E; simpl in H; [|discriminate].
  injection H as <-. apply insert_In in Hx. destruct Hx as [->|Hx]; [|now left].
  right. apply Nat.eqb_eq in E. subst block. exists (opUser o). auto.
Qed.

Lemma growsInBlock_insert o l :
  In (opUser o) (getBlock f (opBlock o)) -> opBlock o = block ->
  growsInBlock f block l (Some (true, insert (opUser o) l)).
Proof.
  intros Hwf Hb l' [= <-] x Hx. apply insert_In in Hx.
  destruct Hx as [->|Hx]; [|now left]. right. subst block. exists (opUser o). auto.
Qed.

Lemma growsInBlock_trans l l1 r :
  (forall x, In x l1 -> In x l \/ inBlock f block x) ->
  growsInBlock f block l1 r -> growsInBlock f block l r.
Proof.
  intros H1 H2 l' E x Hx. destruct (H2 l' E x Hx) as [H|H]; auto.
Qed.

Lemma getUses_wf v o : In o (getUses f v) -> In (opUser o) (getBlock f (opBlock o)).
Proof. intros H. now apply getUses_In in H. Qed.

Lemma filter_uses_wf (p : Operand -> bool) v o :
  In o (filter p (getUses f v)) -> In (opUser o) (getBlock f (opBlock o)).
Proof. intros H. apply filter_In in H. destruct H as [H _]. eapply getUses_wf; eauto. Qed.

End Recorded.

Lemma collectLoads_growsInBlock f c fuel : forall o l,
  In (opUser o) (getBlock f (opBlock o)) ->
  growsInBlock f (caParent c) l (collectLoads fuel f c o l).
Proof.
  induction fuel as [|fuel IH]; intros o l Hwf; [intros l' H; discriminate|].
  cbn [collectLoads].
  destruct (opBlock o =? caParent c) eqn:Eb; simpl;
    [|intros l' H; discriminate].
  apply Nat.eqb_eq in Eb.
  assert (Hrec : forall uses l0,
             (forall u, In u uses -> In (opUser u) (getBlock f (opBlock u))) ->
             growsInBlock f (caParent c) l0
               (forEachUse (recordInBlock (caParent c)) uses l0)).
  { intros uses l0 Hu. apply growsInBlock_forEachUse.
    intros u l1 Hin. apply growsInBlock_recordInBlock. auto. }
  assert (Hproj : forall p l0,
             growsInBlock f (caParent c) l0
               (collectLoadsFromProjectionWith (collectLoads fuel f c) f p l0)).
  { intros p l0. unfold collectLoadsFromProjectionWith.
    apply growsInBlock_forEachUse. intros u l1 Hin. apply IH.
    eapply filter_uses_wf; eassumption. }
  assert (Hfalse : forall l0, growsInBlock f (caParent c) l (Some (false, l0))).
  { intros l0 l' H. discriminate. }
  assert (Hins : growsInBlock f (caParent c) l (Some (true, insert (opUser o) l))).
  { now apply growsInBlock_insert. }
  assert (Hself : forall x, In x (insert (opUser o) l) ->
                   In x l \/ inBlock f (caParent c) x).
  { intros x Hx. apply insert_In in Hx. destruct Hx as [->|Hx]; [|now left].
    right. exists (opUser o). split; [rewrite <- Eb; exact Hwf|reflexivity]. }
  assert (Happly : forall args b,
             growsInBlock f (caParent c) l (collectApply f (caParent c) o args b l)).
  { intros args b. unfold collectApply.
    destruct (negb (argumentConvention args o)); [apply Hfalse|].
    destruct b; [|exact Hins].
    eapply growsInBlock_trans; [exact Hself|].
    apply Hrec. intros u Hu. eapply getUses_wf; eassumption. }
  assert (Hsame : growsInBlock f (caParent c) l (Some (true, l))).
  { intros l' [= <-] x Hx. now left. }
  assert (Hdep : growsInBlock f (caParent c) l
                   (forEachUse (collectLoads fuel f c)
                      (getUses f (InstResult (instId (opUser o)))) l)).
  { apply growsInBlock_forEachUse. intros u l1 Hin. apply IH.
    eapply getUses_wf; eassumption. }
  assert (Hborrow : growsInBlock f (caParent c) l
                      (forEachUse (visitEndScope (caParent c))
                         (localScopeEndingUses f (opUser o)) (insert (opUser o) l))).
  { eapply growsInBlock_trans; [exact Hself|].
    apply growsInBlock_forEachUse. intros u l1 Hin. unfold visitEndScope.
    destruct (isEndBorrow (opUser u)); [|intros l' H; discriminate].
    apply growsInBlock_recordInBlock. eapply filter_uses_wf; eassumption. }
  assert (Haccess : growsInBlock f (caParent c) l
                      (forEachUse (recordInBlock (caParent c))
                         (getEndAccesses f (opUser o)) l)).
  { apply Hrec. intros u Hu. eapply filter_uses_wf; eassumption. }
  destruct (instKind (opUser o));
    repeat match goal with
           | |- growsInBlock _ _ _ (if ?b then _ else _) => destruct b
           end;
    first [ apply Hfalse | exact Hins | exact Hsame | exact Hdep | exact Hborrow
          | exact Haccess | apply Hproj | apply Happly ].
Qed.

(** What a successful scan has recorded, from any starting sets. *)
Lemma scanTempUses_grows fuel f copyInst isOSSA needFinalDeinit :
  forall uses l us l' us',
  (forall u, In u uses -> In (opUser u) (getBlock f (opBlock u))) ->
  scanTempUses fuel f copyInst isOSSA needFinalDeinit uses l us
    = Some (Some (l', us')) ->
  (forall x, In x l' -> In x l \/ inBlock f (caParent copyInst) x) /\
  (forall x, In x us -> In x us') /\
  (forall u, In u uses -> In (instId (opUser u)) us').
Proof.
  induction uses as [|a uses IH]; intros l us l' us' Hwf H.
  - simpl in H. injection H as <- <-. repeat split; auto. intros u [].
  - cbn [scanTempUses] in H.
    assert (Hwf' : forall u, In u uses -> In (opUser u) (getBlock f (opBlock u)))
      by (intros u Hu; apply Hwf; now right).
    assert (Hcont : forall l1,
               (forall x, In x l1 -> In x l \/ inBlock f (caParent copyInst) x) ->
               scanTempUses fuel f copyInst isOSSA needFinalDeinit uses l1
                            (insert (opUser a) us) = Some (Some (l', us')) ->
               (forall x, In x l' -> In x l \/ inBlock f (caParent copyInst) x) /\
               (forall x, In x us -> In x us') /\
               (forall u, In u (a :: uses) -> In (instId (opUser u)) us')).
    { intros l1 Hl1 H1. destruct (IH _ _ _ _ Hwf' H1) as (A & B & C).
      repeat split.
      - intros x Hx. destruct (A x Hx) as [Hx1|Hx1]; auto.
      - intros x Hx. apply B. apply insert_In. now right.
      - intros u [<-|Hu]; [|auto]. apply B. apply insert_In. now left. }
    destruct (instId (opUser a) =? instId (caInst copyInst)); [eapply Hcont; eauto|].
    destruct (isDeallocStack (opUser a)); [eapply Hcont; eauto|].
    destruct (isDestroyAddr (opUser a)).
    + destruct (negb isOSSA && needFinalDeinit); [|eapply Hcont; eauto].
      destruct (opBlock a =? caParent copyInst) eqn:Eb; simpl in H; [|discriminate].
      eapply Hcont; [|eassumption].
      intros x Hx. apply insert_In in Hx. destruct Hx as [->|Hx]; [|now left].
      right. apply Nat.eqb_eq in Eb. exists (opUser a). split; [|reflexivity].
      rewrite <- Eb. apply Hwf. now left.
    + destruct (collectLoads fuel f copyInst a l) as [[[|] l1]|] eqn:E;
        try discriminate.
      eapply Hcont; [|eassumption].
      exact (collectLoads_growsInBlock f copyInst fuel a l
               (Hwf a (or_introl eq_refl)) l1 E).
Qed.

(** X2. After a successful scan of the temporary's uses, every recorded
    terminal read is an instruction of the initializing copy's block, and
    every user of the temporary is in the user set. *)
Theorem scanTempUses_records_in_block (fuel : nat) (f : SILFunction)
  (copyInst : CopyAddr) (isOSSA needFinalDeinit : bool) (v : SILValue)
  (loadInsts userSet : InstructionSet) :
  scanTempUses fuel f copyInst isOSSA needFinalDeinit (getUses f v) [] []
    = Some (Some (loadInsts, userSet)) ->
  (forall x, In x loadInsts -> inBlock f (caParent copyInst) x) /\
  (forall u, In u (getUses f v) -> In (instId (opUser u)) userSet).
Proof.
  intros H.
  destruct (scanTempUses_grows _ _ _ _ _ _ _ _ _ _ (fun u Hu => getUses_wf f v u Hu) H)
    as (A & _ & C).
  split; [|exact C].
  intros x Hx. destruct (A x Hx) as [[]|Hb]. exact Hb.
Qed.

(* ----------------------------------------------------------------- *)
(** ** The ordering check *)

Lemma beforeIn_In id blk i : In i (beforeIn id blk) -> In i blk.
Proof.
  induction blk as [|a blk IH]; [intros []|]. simpl.
  destruct (instId a =? id); [intros []|]. intros [<-|H]; auto.
Qed.

Lemma instsBefore_In f id i : In i (instsBefore f id) -> In i (allInsts f).
Proof.
  unfold instsBefore. destruct (findInst f id) as [[b j]|]; [|intros []].
  intros H. apply beforeIn_In in H. eapply getBlock_allInsts; eassumption.
Qed.

(** X3. When the copy rewriter commits, no instruction that precedes the
    initializing copy in its block has the temporary among its operands. *)
Theorem commits_no_use_before_copy (accessBase : AccessBaseOracle)
  (computeFrontier : FrontierOracle) (aa : AliasAnalysis) (f : SILFunction)
  (copyId : InstId) (c : CopyAddr) (tempObj lastLoadInst : SILInstruction)
  (f1 : SILFunction) :
  Commits accessBase computeFrontier aa f copyId c tempObj lastLoadInst f1 ->
  forall i, In i (instsBefore f copyId) -> ~ usesValue (caDest c) i.
Proof.
  intros [Hc _ (lex & dyn & Ht & _) (l & us & Hs & Ho & _) _ _ _] i Hi Huse.
  apply asAllocStack_Some in Ht. destruct Ht as (Hd & _ & _).
  apply asCopyAddr_Some in Hc. destruct Hc as (Hf & _). apply findInst_id in Hf.
  apply scanTempUses_grows in Hs; [|intros u Hu; eapply getUses_wf; eassumption].
  destruct Hs as (_ & _ & Hs).
  unfold usesValue in Huse. rewrite Hd in Huse.
  apply In_nth_error in Huse. destruct Huse as [m Hm].
  destruct (getUses_complete f _ i m (instsBefore_In _ _ _ Hi) Hm) as (u & Hu & Eu & _).
  apply Hs in Hu. rewrite Eu in Hu. apply contains_In in Hu.
  unfold userPrecedesCopy in Ho. rewrite Hf in Ho.
  assert (E : existsb (contains us) (instsBefore f copyId) = true).
  { apply existsb_exists. exists i. auto. }
  congruence.
Qed.

(* ----------------------------------------------------------------- *)
(** ** What a relocated end_access is moved over *)

Lemma extendLoop_selected f aa copySrc lastUseInst insts : forall ea s r,
  extendLoop f aa copySrc lastUseInst insts (Some (ea, s)) = Some r ->
  r = Some (ea, s) /\
  forall i, In i insts ->
    isEndAccess i = false /\ isBeginAccess i = false /\
    isBeginUnpairedAccess i = false /\ mayWriteToMemory aa i s = false.
Proof.
  induction insts as [|a insts IH]; intros ea s r.
  - simpl. intros [= <-]. split; [reflexivity|intros i []].
  - simpl. destruct (isEndAccess a) eqn:Ea; [discriminate|].
    destruct (isBeginAccess a || isBeginUnpairedAccess a) eqn:Eb; [discriminate|].
    destruct (mayWriteToMemory aa a s) eqn:Ew; [discriminate|].
    intros H. apply IH in H. destruct H as [-> H]. split; [reflexivity|].
    apply orb_false_iff in Eb. destruct Eb as [Eb1 Eb2].
    intros i [<-|Hi]; auto.
Qed.

Lemma extendLoop_relocation f aa copySrc lastUseInst insts : forall ea s,
  extendLoop f aa copySrc lastUseInst insts None = Some (Some (ea, s)) ->
  exists pre post,
    insts = pre ++ ea :: post /\
    isEndAccess ea = true /\
    getBeginAccess f ea = Some (s, AccessRead) /\
    isNoAlias aa copySrc s = false /\
    isTermInst lastUseInst = false /\
    forall i, In i post ->
      isEndAccess i = false /\ isBeginAccess i = false /\
      isBeginUnpairedAccess i = false /\ mayWriteToMemory aa i s = false.
Proof.
  induction insts as [|a insts IH]; intros ea s; [discriminate|].
  simpl. destruct (isEndAccess a) eqn:Ea.
  - destruct (getBeginAccess f a) as [[src kind]|] eqn:Eg.
    + destruct (negb (isNoAlias aa copySrc src) && SILAccessKind_eqb kind AccessRead)
        eqn:Ec.
      * destruct (isTermInst lastUseInst) eqn:Et; [discriminate|].
        intros H. apply extendLoop_selected in H. destruct H as [[= <- <-] H].
        apply andb_true_iff in Ec. destruct Ec as [En Ek].
        apply negb_true_iff in En.
        destruct kind; try discriminate.
        exists [], insts. repeat split; auto; now apply H.
      * intros H. apply IH in H. destruct H as (pre & post & -> & H).
        exists (a :: pre), post. split; [reflexivity|exact H].
    + intros H. apply IH in H. destruct H as (pre & post & -> & H).
      exists (a :: pre), post. split; [reflexivity|exact H].
  - intros H. apply IH in H. destruct H as (pre & post & -> & H).
    exists (a :: pre), post. split; [reflexivity|exact H].
Qed.

(** X4. A successful scope extension that changes the function moved one
    end_access of a read access whose source may alias the copy's source,
    the boundary is no terminator, and every instruction of the range the
    end_access is moved over is no end_access, no begin_access and no
    begin_unpaired_access and may not write to the source of the moved
    scope. *)
Theorem extendAccessScopes_moves_over_reads (copyInst : CopyAddr)
  (lastUseInst : SILInstruction) (aa : AliasAnalysis) (f f' : SILFunction) :
  extendAccessScopes copyInst lastUseInst aa f = (true, f') ->
  f' <> f ->
  exists pre ea s post,
    scopeRange f copyInst lastUseInst = pre ++ ea :: post /\
    f' = moveAfter ea (instId lastUseInst) f /\
    isEndAccess ea = true /\
    getBeginAccess f ea = Some (s, AccessRead) /\
    isNoAlias aa (caSrc copyInst) s = false /\
    isTermInst lastUseInst = false /\
    forall i, In i post ->
      isEndAccess i = false /\ isBeginAccess i = false /\
      isBeginUnpairedAccess i = false /\ mayWriteToMemory aa i s = false.
Proof.
  unfold extendAccessScopes.
  destruct (extendLoop _ _ _ _ _ _) as [[[ea s]|]|] eqn:E; [| |discriminate];
    intros [= <-] Hne; [|congruence].
  apply extendLoop_relocation in E.
  destruct E as (pre & post & Hr & Hea & Hb & Hn & Ht & Hp).
  exists pre, ea, s, post. repeat split; auto; now apply Hp.
Qed.

(* ----------------------------------------------------------------- *)
(** ** The copy rewriter is all or nothing *)

Lemma replaceUsesLoop_no_use fuel c needFinalDeinit lastLoadInst copySrc temp :
  forall f f',
  replaceUsesLoop fuel c needFinalDeinit lastLoadInst copySrc temp f = Some f' ->
  getUses f' temp = [].
Proof.
  induction fuel as [|fuel IH]; intros f f'; simpl;
    destruct (getUses f temp) eqn:E; try discriminate.
  - intros [= <-]. exact E.
  - intros [= <-]. exact E.
  - apply IH.
Qed.

Lemma commitCopy_gone c tempObj needFinalDeinit lastLoadInst f r f' :
  commitCopy c tempObj needFinalDeinit lastLoadInst f = Some (r, f') ->
  r = Continue tt /\
  getUses f' (InstResult (instId tempObj)) = [] /\
  findInst f' (instId tempObj) = None.
Proof.
  unfold commitCopy, bind, getFunction, modify, ret, noResult.
  destruct (needToInsertDestroy _ _ _ _); simpl;
    match goal with
    | |- context [replaceUsesLoop ?n ?a ?b ?d ?e ?t ?g] =>
        destruct (replaceUsesLoop n a b d e t g) as [f3|] eqn:El
    end; try discriminate; intros [= <- <-];
    (split; [reflexivity|split;
       [apply getUses_eraseFromParent; eapply replaceUsesLoop_no_use; eassumption
       |apply findInst_eraseFromParent]]).
Qed.

(** X5. The copy rewriter is all or nothing: whenever it ends, it either
    returned with the function untouched, or it ran to the end of the
    commit, and then the destination of the copy was an alloc_stack that is
    erased and that no instruction uses any more. *)
Theorem tryOptimizeCopyIntoTemp_all_or_nothing (accessBase : AccessBaseOracle)
  (computeFrontier : FrontierOracle) (aa : AliasAnalysis) (copyId : InstId)
  (f f' : SILFunction) (r : Flow unit) :
  tryOptimizeCopyIntoTemp accessBase computeFrontier aa copyId f = Some (r, f') ->
  (r = Returned /\ f' = f) \/
  (r = Continue tt /\
   exists c tempObj lex dyn,
     asCopyAddr f copyId = Some c /\
     asAllocStack f (caDest c) = Some (tempObj, lex, dyn) /\
     getUses f' (caDest c) = [] /\
     findInst f' (instId tempObj) = None).
Proof.
  destruct (tryOptimizeCopyIntoTemp_outcomes accessBase computeFrontier aa copyId f)
    as [E|[E|(c & tempObj & last & f1 & Hc)]].
  - rewrite E. intros [= <- <-]. now left.
  - rewrite E. discriminate.
  - rewrite (commits_runs_commit _ _ _ _ _ _ _ _ _ Hc). intros H.
    apply commitCopy_gone in H. destruct H as (-> & Hno & Hgone).
    right. split; [reflexivity|].
    destruct Hc as [Hc _ (lex & dyn & Ht & _) _ _ _ _].
    exists c, tempObj, lex, dyn. repeat split; auto.
    apply asAllocStack_Some in Ht. destruct Ht as (-> & _). exact Hno.
Qed.

(* ----------------------------------------------------------------- *)
(** ** The source is not written while the temporary is read *)

(** X6. When the copy rewriter commits and the boundary is not the copy
    itself, no instruction between the copy and the boundary may write to
    the copy's source; the boundary itself may not write to it if it is a
    call or a yield, nor, when the copy took its source, if it is anything
    but a destroy_addr. *)
Theorem commits_source_not_modified (accessBase : AccessBaseOracle)
  (computeFrontier : FrontierOracle) (aa : AliasAnalysis) (f : SILFunction)
  (copyId : InstId) (c : CopyAddr) (tempObj lastLoadInst : SILInstruction)
  (f1 : SILFunction) :
  Commits accessBase computeFrontier aa f copyId c tempObj lastLoadInst f1 ->
  instId lastLoadInst <> copyId ->
  exists pre post,
    instsAfter f copyId = pre ++ lastLoadInst :: post /\
    (forall i, In i pre -> mayWriteToMemory aa i (caSrc c) = false) /\
    ((isFullApplySite lastLoadInst || isYield lastLoadInst = true \/
      (caIsTakeOfSrc c = true /\ isDestroyAddr lastLoadInst = false)) ->
     mayWriteToMemory aa lastLoadInst (caSrc c) = false).
Proof.
  intros [Hc _ _ (l & us & _ & _ & Hb) Hr _ _] Hne.
  apply asCopyAddr_Some in Hc. destruct Hc as (Hf & _). apply findInst_id in Hf.
  unfold getLastUseWhileSourceIsNotModified in Hb. rewrite Hf in Hb.
  destruct l as [|x l]; cbn [empty] in Hb.
  - injection Hb as <-. congruence.
  - apply lastUseLoop_sound in Hb; [|simpl; lia].
    destruct Hb as (pre & post & Hi & _ & Hpre & Hw & _).
    exists pre, post. repeat split; auto.
    intros [Hk|[Ht Hd]]; [now rewrite Hk in Hw|].
    unfold reinitGuardFails in Hr. rewrite Ht, Hd, Hf in Hr.
    apply Nat.eqb_neq in Hne. rewrite Hne in Hr. exact Hr.
Qed.

(* ----------------------------------------------------------------- *)
(** ** The commit, instruction by instruction *)

(** X7. A committing rewrite is an edit of the function instruction by
    instruction, in place: the alloc_stack of the temporary and the
    destroy_addr and dealloc_stack of it disappear; the end_access the scope
    extension selected, if any, sits after the boundary; a destroy_addr of
    the source follows the boundary when [needToInsertDestroy] holds; every
    other instruction stays where it is with the temporary replaced by the
    source among its operands, a copy_addr or load that takes from the
    temporary being made non-consuming unless it is the boundary of a copy
    that took its source. *)
Theorem commit_is_instructionwise_edit (accessBase : AccessBaseOracle)
  (computeFrontier : FrontierOracle) (aa : AliasAnalysis) (f : SILFunction)
  (copyId : InstId) (c : CopyAddr) (tempObj lastLoadInst : SILInstruction)
  (f1 : SILFunction) :
  uniqueIds f ->
  Commits accessBase computeFrontier aa f copyId c tempObj lastLoadInst f1 ->
  caSrc c <> InstResult (instId tempObj) ->
  exists moved,
    (moved = None \/
     exists ea, moved = Some ea /\ In ea (scopeRange f c lastLoadInst) /\
                isEndAccess ea = true /\ instId ea <> instId lastLoadInst) /\
    f1 = expandInsts (moveImage moved (instId lastLoadInst)) f /\
    tryOptimizeCopyIntoTemp accessBase computeFrontier aa copyId f
    = Some (Continue tt,
            expandInsts
              (rewriteImage copyId (instId tempObj) (caSrc c) (caIsTakeOfSrc c)
                 (instId lastLoadInst) moved
                 (needToInsertDestroy (caIsTakeOfSrc c) c (InstResult (instId tempObj))
                                      lastLoadInst)
                 (mkInst (freshId f1) (DestroyAddrInst (caSrc c))))
              f).
Proof.
  intros Hu Hc Hne.
  assert (Hm : exists moved,
             (moved = None \/
              exists ea, moved = Some ea /\ In ea (scopeRange f c lastLoadInst) /\
                         isEndAccess ea = true /\ instId ea <> instId lastLoadInst) /\
             f1 = expandInsts (moveImage moved (instId lastLoadInst)) f).
  { destruct (committing_extended _ _ _ _ _ _ _ _ _ Hu Hc Hne)
      as [Ef|(ea & Hin & Hea & _ & _ & Ef)].
    - exists None. split; [now left|]. rewrite Ef. symmetry. apply expandInsts_id.
    - unfold moveAfter in Ef. destruct (instId ea =? instId lastLoadInst) eqn:E.
      + exists None. split; [now left|]. rewrite Ef. symmetry. apply expandInsts_id.
      + exists (Some ea). split.
        * right. exists ea. apply Nat.eqb_neq in E. auto.
        * rewrite Ef. unfold insertAfter, eraseFromParent. rewrite expandInsts_compose.
          apply expandInsts_ext_in. intros i _. unfold moveImage.
          destruct (instId i =? instId ea); [reflexivity|]. simpl.
          rewrite app_nil_r. reflexivity. }
  destruct Hm as (moved & Hm & Hf1). exists moved. split; [exact Hm|].
  split; [exact Hf1|].
  destruct (committing_result _ _ _ _ _ _ _ _ _ Hu Hc Hne) as (f' & Hr & Hf' & _).
  rewrite Hr, Hf'. do 2 f_equal.
  unfold withSynthesizedDestroy.
  set (need := needToInsertDestroy _ _ _ _).
  set (destroy := mkInst _ _).
  assert (E : (if need then insertAfter (instId lastLoadInst) destroy f1 else f1)
              = expandInsts (destroyImage need (instId lastLoadInst) destroy) f1).
  { unfold destroyImage. destruct need; simpl.
    - reflexivity.
    - symmetry. apply expandInsts_id. }
  rewrite E. unfold rewriteImage.
  set (D := destroyImage need (instId lastLoadInst) destroy).
  set (I := commitImage _ _ _ _ _).
  clearbody D I need destroy. rewrite Hf1 at 1. rewrite !expandInsts_compose.
  apply expandInsts_ext_in. intros i _. symmetry. apply flat_map_concat_map_assoc.
Qed.

(* ----------------------------------------------------------------- *)
(** ** The store rewriter runs through *)

Lemma handledStoreUser_clause temp k :
  handledStoreUser temp k = true -> hasRewriteClause k = true.
Proof. destruct k; simpl; congruence. Qed.

Lemma storeUserHandled_spec si temp u :
  storeUserHandled si temp u
  = (instId (opUser u) =? si) || handledStoreUser temp (instKind (opUser u)).
Proof.
  unfold storeUserHandled. destruct (instId (opUser u) =? si); [reflexivity|].
  destruct (instKind (opUser u)); reflexivity.
Qed.

Lemma hasRewriteClause_substValue old new k :
  hasRewriteClause (substValue old new k) = hasRewriteClause k.
Proof. destruct k; reflexivity. Qed.

Lemma handledStoreUser_substValue temp old new k :
  new <> temp -> handledStoreUser temp k = true ->
  handledStoreUser temp (substValue old new k) = true.
Proof.
  intros Hne. apply SILValue_eqb_neq in Hne.
  destruct k; simpl; try congruence;
    match goal with
    | |- context [SILValue_eqb ?d old] => destruct (SILValue_eqb d old)
    end; simpl; rewrite ?Hne; auto.
Qed.

Lemma keep_insertBefore g pos k id b i :
  findInst g id = Some (b, i) ->
  findInst (insertBefore pos (mkInst (freshId g) k) g) id = Some (b, i).
Proof.
  intros H. rewrite findInst_insertBefore_other; [assumption|].
  simpl. pose proof (findInst_In _ _ _ _ H) as Hin. apply freshId_neq in Hin.
  apply findInst_id in H. congruence.
Qed.

Lemma keep_replaceAllUsesWith g old new id b i :
  findInst g id = Some (b, i) ->
  findInst (replaceAllUsesWith old new g) id
  = Some (b, mkInst (instId i) (substValue old new (instKind i))).
Proof. intros H. rewrite findInst_replaceAllUsesWith, H. reflexivity. Qed.

Lemma allInsts_erased id f i :
  In i (allInsts (eraseFromParent id f)) -> In i (allInsts f) /\ instId i <> id.
Proof.
  unfold eraseFromParent. rewrite allInsts_expand, in_flat_map.
  intros (j & Hj & H). destruct (instId j =? id) eqn:E; [destruct H|].
  destruct H as [<-|[]]. split; [assumption|now apply Nat.eqb_neq].
Qed.

Lemma allInsts_eraseAll toDelete f i :
  In i (allInsts (eraseAll toDelete f)) ->
  In i (allInsts f) /\ ~ In (instId i) toDelete.
Proof.
  unfold eraseAll. intros H.
  assert (G : forall l g, In i (allInsts (fold_left (fun f x => eraseFromParent x f) l g)) ->
                          In i (allInsts g) /\ ~ In (instId i) l).
  { induction l as [|x l IH]; intros g Hg; [auto|].
    simpl in Hg. apply IH in Hg. destruct Hg as [Hg Hl].
    apply allInsts_erased in Hg. destruct Hg as [Hg Hx].
    split; [assumption|]. intros [E|E]; [congruence|contradiction]. }
  apply G in H. destruct H as [H1 H2]. split; [assumption|].
  intros E. apply H2. now apply in_rev in E.
Qed.

Section StoreLoop.

Variable si : InstId.
Variable src : SILValue.
Variable tempId : InstId.

Local Abbreviation temp := (InstResult tempId).

(** What one step of the second loop does to an instruction that is there
    already: nothing, or the replacement of the user's result among its
    operands by the stored value or by a fresh result. *)
Lemma rewriteStoreUse_effect g td u g' td' :
  rewriteStoreUse si src (g, td) u = Some (g', td') ->
  forall id b i, findInst g id = Some (b, i) ->
    findInst g' id = Some (b, i) \/
    exists new, (new = src \/ new = InstResult (freshId g)) /\
      findInst g' id
      = Some (b, mkInst (instId i)
                        (substValue (InstResult (instId (opUser u))) new (instKind i))).
Proof.
  unfold rewriteStoreUse, emitDestroyValueOperation, emitStoreValueOperation,
    emitCopyValueOperation.
  destruct (instId (opUser u) =? si); [intros [= <- <-]; auto|].
  destruct (findInst g (instId (opUser u))) as [[bu user]|]; [|discriminate].
  destruct (instKind user) eqn:Hk; try discriminate.
  - (* dealloc_stack *) intros [= <- <-]; auto.
  - (* destroy_addr *) intros [= <- <-] id b i H. left. now apply keep_insertBefore.
  - (* copy_addr *)
    destruct (negb isTakeOfSrc); intros [= <- <-] id b i H; left.
    + now apply keep_insertBefore, keep_insertBefore.
    + now apply keep_insertBefore.
  - (* load *)
    destruct (LoadQualifier_eqb qualifier LoadCopy); intros [= <- <-] id b i H; right.
    + exists (InstResult (freshId g)). split; [now right|].
      now apply keep_replaceAllUsesWith, keep_insertBefore.
    + exists src. split; [now left|]. now apply keep_replaceAllUsesWith.
  - (* mark_dependence *)
    intros [= <- <-] id b i H. right.
    exists (InstResult (freshId g)). split; [now right|].
    now apply keep_replaceAllUsesWith, keep_insertBefore.
  - (* fix_lifetime *) intros [= <- <-] id b i H. left. now apply keep_insertBefore.
Qed.

Lemma rewriteStoreUse_defined g td u :
  (instId (opUser u) <> si ->
   exists b i, findInst g (instId (opUser u)) = Some (b, i) /\
               hasRewriteClause (instKind i) = true) ->
  exists g' td', rewriteStoreUse si src (g, td) u = Some (g', td').
Proof.
  intros H. unfold rewriteStoreUse.
  destruct (instId (opUser u) =? si) eqn:E; [eauto|].
  apply Nat.eqb_neq in E. destruct (H E) as (b & i & -> & Hk).
  destruct (instKind i); try discriminate; eauto.
  - destruct (if negb isTakeOfSrc then _ else _). eauto.
  - destruct (if LoadQualifier_eqb qualifier LoadCopy then _ else _). eauto.
Qed.

Lemma rewriteStoreUses_defined uses : forall g td,
  (forall u, In u uses -> instId (opUser u) <> si ->
     exists b i, findInst g (instId (opUser u)) = Some (b, i) /\
                 hasRewriteClause (instKind i) = true) ->
  exists g' td', rewriteStoreUses si src uses (g, td) = Some (g', td').
Proof.
  induction uses as [|a uses IH]; intros g td H; [simpl; eauto|].
  cbn [rewriteStoreUses].
  destruct (rewriteStoreUse_defined g td a (H a (or_introl eq_refl)))
    as (g1 & td1 & E).
  rewrite E. apply IH. intros u Hu Hne.
  destruct (H u (or_intror Hu) Hne) as (b & i & Hf & Hk).
  destruct (rewriteStoreUse_effect _ _ _ _ _ E _ _ _ Hf) as [Hf'|(new & _ & Hf')];
    rewrite Hf'; eexists; eexists; split; try reflexivity; auto.
  simpl. now rewrite hasRewriteClause_substValue.
Qed.

End StoreLoop.

(** X8. Over a function whose instructions are distinct, the store rewriter
    always returns: every user the first switch lets pass has a case in the
    second switch, so the unreachable default clause is never reached. *)
Theorem tryOptimizeStoreIntoTemp_returns (si : InstId) (f : SILFunction) :
  uniqueIds f -> exists it f', tryOptimizeStoreIntoTemp si f = Some (it, f').
Proof.
  intros Hu. unfold tryOptimizeStoreIntoTemp.
  destruct (asStore f si) as [[[src dest] q]|]; [|eauto].
  destruct (StoreQualifier_eqb q StoreAssign); [eauto|].
  destruct (asAllocStack f dest) as [[[tempObj lex] dyn]|]; [|eauto].
  destruct lex; [eauto|]. destruct dyn; [eauto|].
  destruct (forallb _ _) eqn:Hall; simpl; [|eauto].
  destruct (rewriteStoreUses_defined si src
              (getUses f (InstResult (instId tempObj))) f []) as (g' & td' & E).
  - intros u Hin Hne. rewrite forallb_forall in Hall. specialize (Hall u Hin).
    rewrite storeUserHandled_spec in Hall. apply Nat.eqb_neq in Hne.
    rewrite Hne in Hall. simpl in Hall. apply handledStoreUser_clause in Hall.
    pose proof (getUses_In _ _ _ Hin) as (Hb & _).
    destruct (findInst_of_In f (opUser u) Hu (getBlock_allInsts _ _ _ Hb)) as [b Hf].
    eauto.
  - rewrite E. eauto.
Qed.

(* ----------------------------------------------------------------- *)
(** ** What the store rewriter leaves of the temporary *)

Section StoreResult.

Variable si : InstId.
Variable src : SILValue.
Variable tempId : InstId.

Local Abbreviation temp := (InstResult tempId).

Hypothesis notTemp : src <> temp.

(** The state the second loop keeps: the alloc_stack is there, and so is
    every pending user, of a kind the first switch lets pass. *)
Local Abbreviation present g := (exists b t, findInst g tempId = Some (b, t)).
Local Abbreviation pending g uses :=
  (forall u, In u uses -> instId (opUser u) <> si ->
     exists b i, findInst g (instId (opUser u)) = Some (b, i) /\
                 handledStoreUser temp (instKind i) = true).

Lemma fresh_not_temp g : present g -> InstResult (freshId g) <> temp.
Proof.
  intros (b & t & H) E. injection E as E.
  pose proof (findInst_In _ _ _ _ H) as Hin. apply freshId_neq in Hin.
  apply findInst_id in H. congruence.
Qed.

Lemma rewriteStoreUse_keeps g td u g' td' uses :
  rewriteStoreUse si src (g, td) u = Some (g', td') ->
  present g -> pending g uses -> present g' /\ pending g' uses.
Proof.
  intros E Hp Hq. split.
  - destruct Hp as (b & t & Hf).
    destruct (rewriteStoreUse_effect _ _ _ _ _ _ _ E _ _ _ Hf) as [Hf'|(new & _ & Hf')];
      rewrite Hf'; eauto.
  - intros x Hx Hne. destruct (Hq x Hx Hne) as (b & i & Hf & Hk).
    destruct (rewriteStoreUse_effect _ _ _ _ _ _ _ E _ _ _ Hf)
      as [Hf'|(new & Hnew & Hf')]; rewrite Hf'; eexists; eexists;
      (split; [reflexivity|]); auto.
    simpl. apply handledStoreUser_substValue; [|assumption].
    destruct Hnew as [-> | ->]; [assumption|now apply fresh_not_temp].
Qed.

(** A step creates no user of the temporary. *)
Lemma rewriteStoreUse_users g td u g' td' :
  rewriteStoreUse si src (g, td) u = Some (g', td') ->
  present g -> pending g [u] ->
  forall i, In i (allInsts g') -> usesValue temp i ->
    exists j, In j (allInsts g) /\ usesValue temp j /\ instId j = instId i.
Proof.
  intros E Hp Hq.
  pose proof (fresh_not_temp g Hp) as Hfresh.
  assert (Hsame : forall i, In i (allInsts g) -> usesValue temp i ->
                    exists j, In j (allInsts g) /\ usesValue temp j /\ instId j = instId i)
    by eauto.
  assert (Hins : forall g0 pos k i,
             (forall i, In i (allInsts g0) -> usesValue temp i ->
                exists j, In j (allInsts g) /\ usesValue temp j /\ instId j = instId i) ->
             ~ In temp (getAllOperands k) ->
             In i (allInsts (insertBefore pos (mkInst (freshId g0) k) g0)) ->
             usesValue temp i ->
             exists j, In j (allInsts g) /\ usesValue temp j /\ instId j = instId i).
  { intros g0 pos k i H0 Hk Hi Hu. apply allInsts_insertBefore in Hi.
    destruct Hi as [->|Hi]; [contradiction|auto]. }
  assert (Hrauw : forall g0 old new i,
             (forall i, In i (allInsts g0) -> usesValue temp i ->
                exists j, In j (allInsts g) /\ usesValue temp j /\ instId j = instId i) ->
             new <> temp ->
             In i (allInsts (replaceAllUsesWith old new g0)) ->
             usesValue temp i ->
             exists j, In j (allInsts g) /\ usesValue temp j /\ instId j = instId i).
  { intros g0 old new i H0 Hn Hi Hu. apply allInsts_replaceAllUsesWith in Hi.
    destruct Hi as (j & Hj & ->). unfold usesValue in Hu. simpl in Hu.
    apply In_substValue in Hu. destruct Hu as [Hu|[Hu _]]; [congruence|].
    destruct (H0 j Hj Hu) as (j' & A & B & C). exists j'. auto. }
  assert (Hone : forall v, v <> temp -> ~ In temp [v]).
  { intros v Hv [H|[]]. congruence. }
  revert E. unfold rewriteStoreUse, emitDestroyValueOperation, emitStoreValueOperation,
    emitCopyValueOperation.
  destruct (instId (opUser u) =? si) eqn:Esi; [intros [= <- <-]; auto|].
  apply Nat.eqb_neq in Esi.
  destruct (Hq u (or_introl eq_refl) Esi) as (bu & user & -> & Hh).
  destruct (instKind user) eqn:Hk; try discriminate.
  - (* dealloc_stack *) intros [= <- <-]; auto.
  - (* destroy_addr *)
    intros [= <- <-] i. apply Hins; [exact Hsame|]. simpl. now apply Hone.
  - (* copy_addr *)
    simpl in Hh. apply negb_true_iff, SILValue_eqb_neq in Hh.
    destruct (negb isTakeOfSrc); intros [= <- <-] i.
    + apply Hins.
      * intros i0. apply Hins; [exact Hsame|]. simpl. now apply Hone.
      * simpl. intros [H|[H|[]]]; [|congruence].
        injection H as H.
        destruct Hp as (b & t & Hf). pose proof (findInst_In _ _ _ _ Hf) as Hin.
        apply freshId_neq in Hin. apply findInst_id in Hf. congruence.
    + apply Hins; [exact Hsame|]. simpl. intros [H|[H|[]]]; congruence.
  - (* load *)
    destruct (LoadQualifier_eqb qualifier LoadCopy); intros [= <- <-] i.
    + apply Hrauw; [|assumption].
      intros i0. apply Hins; [exact Hsame|]. simpl. now apply Hone.
    + apply Hrauw; [exact Hsame|assumption].
  - (* mark_dependence *)
    simpl in Hh. apply negb_true_iff, SILValue_eqb_neq in Hh.
    intros [= <- <-] i. apply Hrauw; [|assumption].
    intros i0. apply Hins; [exact Hsame|]. simpl. intros [H|[H|[]]]; congruence.
  - (* fix_lifetime *)
    intros [= <- <-] i. apply Hins; [exact Hsame|]. simpl. now apply Hone.
Qed.

Lemma rewriteStoreUses_users uses : forall g td g' td',
  rewriteStoreUses si src uses (g, td) = Some (g', td') ->
  present g -> pending g uses ->
  forall i, In i (allInsts g') -> usesValue temp i ->
    exists j, In j (allInsts g) /\ usesValue temp j /\ instId j = instId i.
Proof.
  induction uses as [|a uses IH]; intros g td g' td' H Hp Hq i Hi Hu.
  - simpl in H. injection H as <- <-. eauto.
  - cbn [rewriteStoreUses] in H.
    destruct (rewriteStoreUse si src (g, td) a) as [[g1 td1]|] eqn:E; [|discriminate].
    destruct (rewriteStoreUse_keeps _ _ _ _ _ (a :: uses) E Hp Hq) as [Hp1 Hq1].
    destruct (IH _ _ _ _ H Hp1 (fun u Hin => Hq1 u (or_intror Hin)) i Hi Hu)
      as (j & Hj & Huj & Eid).
    destruct (rewriteStoreUse_users _ _ _ _ _ E Hp
                (fun x Hx => match Hx with
                             | or_introl e => Hq x (or_introl e)
                             | or_intror e => match e with end
                             end) j Hj Huj)
      as (j' & A & B & C).
    exists j'. repeat split; auto. congruence.
Qed.

End StoreResult.

(** X9. When the store rewriter rewrites (the store does not assign, its
    destination is an alloc_stack that is neither lexical nor of dynamic
    lifetime, and the first switch lets every user pass), then afterwards
    the store, the alloc_stack and every user of the temporary are erased,
    and no instruction uses the temporary. *)
Theorem store_rewrite_erases_temporary (si : InstId) (f : SILFunction)
  (src dest : SILValue) (sq : StoreOwnershipQualifier) (tempObj : SILInstruction) :
  uniqueIds f ->
  asStore f si = Some (src, dest, sq) ->
  StoreQualifier_eqb sq StoreAssign = false ->
  asAllocStack f dest = Some (tempObj, false, false) ->
  forallb (storeUserHandled si dest) (getUses f dest) = true ->
  src <> dest ->
  exists it f',
    tryOptimizeStoreIntoTemp si f = Some (it, f') /\
    findInst f' si = None /\
    findInst f' (instId tempObj) = None /\
    (forall u, In u (getUses f dest) -> findInst f' (instId (opUser u)) = None) /\
    getUses f' dest = [].
Proof.
  intros Hu Hs Hq Ht Hall Hne.
  pose proof (asAllocStack_Some _ _ _ _ _ Ht) as (Hd & (bt & Hft) & _).
  subst dest.
  assert (Hpend : forall u, In u (getUses f (InstResult (instId tempObj))) ->
            instId (opUser u) <> si ->
            exists b i, findInst f (instId (opUser u)) = Some (b, i) /\
                        handledStoreUser (InstResult (instId tempObj)) (instKind i) = true).
  { intros u Hin Hsi. rewrite forallb_forall in Hall. specialize (Hall u Hin).
    rewrite storeUserHandled_spec in Hall. apply Nat.eqb_neq in Hsi.
    rewrite Hsi in Hall. simpl in Hall.
    pose proof (getUses_In _ _ _ Hin) as (Hb & _).
    destruct (findInst_of_In f (opUser u) Hu (getBlock_allInsts _ _ _ Hb)) as [b Hf].
    eauto. }
  destruct (rewriteStoreUses_defined si src
              (getUses f (InstResult (instId tempObj))) f []) as (f3 & td & E).
  { intros u Hin Hsi. destruct (Hpend u Hin Hsi) as (b & i & Hf & Hk).
    apply handledStoreUser_clause in Hk. eauto. }
  unfold tryOptimizeStoreIntoTemp. rewrite Hs, Hq, Ht, Hall, E. simpl.
  eexists. eexists. split; [reflexivity|].
  assert (Hdel : forall u, In u (getUses f (InstResult (instId tempObj))) ->
            findInst (eraseFromParent (instId tempObj)
                        (eraseFromParent si (eraseAll td f3))) (instId (opUser u)) = None).
  { intros u Hin. apply findInst_None_eraseFromParent.
    destruct (Nat.eq_dec (instId (opUser u)) si) as [->|Hsi].
    - apply findInst_eraseFromParent.
    - apply findInst_None_eraseFromParent. apply findInst_eraseAll.
      eapply rewriteStoreUses_toDelete; eassumption. }
  repeat split.
  - apply findInst_None_eraseFromParent, findInst_eraseFromParent.
  - apply findInst_eraseFromParent.
  - exact Hdel.
  - apply getUses_nil. intros i Hi Huse.
    apply allInsts_erased in Hi. destruct Hi as [Hi _].
    apply allInsts_erased in Hi. destruct Hi as [Hi Hsi].
    apply allInsts_eraseAll in Hi. destruct Hi as [Hi Htd].
    destruct (rewriteStoreUses_users si src (instId tempObj) Hne _ _ _ _ _ E
                (ex_intro _ bt (ex_intro _ tempObj Hft)) Hpend i Hi Huse)
      as (j & Hj & Huj & Eid).
    unfold usesValue in Huj. apply In_nth_error in Huj. destruct Huj as [m Hm].
    destruct (getUses_complete f _ j m Hj Hm) as (u & Hin & Eu & _).
    apply Htd. rewrite <- Eid, <- Eu.
    eapply rewriteStoreUses_toDelete; [eassumption|assumption|].
    rewrite Eu, Eid. exact Hsi.
Qed.

(* ----------------------------------------------------------------- *)
(** ** The driver *)

Lemma Iterator_eqb_refl it : Iterator_eqb it it = true.
Proof. destruct it; simpl; [apply Nat.eqb_refl|reflexivity]. Qed.

(** X10. Whenever the store rewriter bails (the store assigns, its
    destination is no alloc_stack, the alloc_stack is lexical or of dynamic
    lifetime, or some user is not handled), the driver goes on after the
    store with the function untouched, and it queues the stored value for
    lifetime completion exactly when the value is or has an enum. *)
Theorem visitStore_queues_on_bail (c : Collaborators) (si : InstId)
  (st : ScanState) (src dest : SILValue) (q : StoreOwnershipQualifier) :
  asStore (scanFn st) si = Some (src, dest, q) ->
  (q = StoreAssign \/
   asAllocStack (scanFn st) dest = None \/
   exists tempObj lex dyn,
     asAllocStack (scanFn st) dest = Some (tempObj, lex, dyn) /\
     (lex = true \/ dyn = true \/
      forallb (storeUserHandled si dest) (getUses (scanFn st) dest) = false)) ->
  visitStore c si src st
  = Some (nextIterator (scanFn st) si,
          mkScan (scanFn st) (deadCopies st)
                 (if isOrHasEnum c src then valuesToComplete st ++ [src]
                  else valuesToComplete st)).
Proof.
  intros Hs Hb.
  assert (E : tryOptimizeStoreIntoTemp si (scanFn st)
              = Some (nextIterator (scanFn st) si, scanFn st)).
  { unfold tryOptimizeStoreIntoTemp. rewrite Hs.
    destruct Hb as [->|[Hd|(t & lex & dyn & Hd & Hb)]]; [reflexivity| |].
    - destruct (StoreQualifier_eqb q StoreAssign); [reflexivity|]. now rewrite Hd.
    - destruct (StoreQualifier_eqb q StoreAssign); [reflexivity|]. rewrite Hd.
      destruct lex; [reflexivity|]. destruct dyn; [reflexivity|].
      destruct Hb as [Hb|[Hb|Hb]]; try discriminate.
      apply asAllocStack_Some in Hd. destruct Hd as (-> & _).
      now rewrite Hb. }
  unfold visitStore. rewrite E, Iterator_eqb_refl. reflexivity.
Qed.

Lemma afterIn_app pre i rest :
  NoDup (map instId (pre ++ i :: rest)) ->
  afterIn (instId i) (pre ++ i :: rest) = rest.
Proof.
  induction pre as [|a pre IH]; simpl; intros H.
  - now rewrite Nat.eqb_refl.
  - apply NoDup_cons_iff in H. destruct H as [Ha H].
    destruct (instId a =? instId i) eqn:E; [|auto].
    exfalso. apply Ha. apply Nat.eqb_eq in E. rewrite E.
    rewrite map_app, in_app_iff. right. now left.
Qed.

Lemma nextIterator_in_block f b pre i rest :
  uniqueIds f -> getBlock f b = pre ++ i :: rest ->
  findInst f (instId i) = Some (b, i) /\
  nextIterator f (instId i) = option_map instId (hd_error rest).
Proof.
  intros Hu Hb.
  assert (Hin : In i (getBlock f b)).
  { rewrite Hb. apply in_or_app. right. now left. }
  destruct (findInst_of_In f i Hu (getBlock_allInsts _ _ _ Hin)) as [b' Hf].
  assert (b' = b).
  { apply findInst_block in Hf. apply findInBlock_In in Hf.
    eapply uniqueIds_same_block; eauto. }
  subst b'. split; [assumption|].
  unfold nextIterator, nextInst, instsAfter. rewrite Hf, Hb.
  rewrite afterIn_app; [reflexivity|]. rewrite <- Hb. now apply uniqueIds_block.
Qed.

Lemma scanBlock_skips c b : forall rest pre fuel st,
  uniqueIds (scanFn st) ->
  getBlock (scanFn st) b = pre ++ rest ->
  (forall i, In i rest -> isCopyOrStore i = false) ->
  length rest <= fuel ->
  scanBlock fuel c (option_map instId (hd_error rest)) st = Some st.
Proof.
  induction rest as [|i rest IH]; intros pre fuel st Hu Hb Hno Hfuel.
  - destruct fuel; reflexivity.
  - destruct fuel as [|fuel]; [simpl in Hfuel; lia|].
    destruct (nextIterator_in_block _ _ _ _ _ Hu Hb) as [Hf Hn].
    cbn [hd_error option_map scanBlock]. rewrite Hf, Hn.
    assert (Hi : isCopyOrStore i = false) by (apply Hno; now left).
    assert (Hrest : scanBlock fuel c (option_map instId (hd_error rest)) st = Some st).
    { apply (IH (pre ++ [i])); auto.
      - now rewrite <- app_assoc.
      - intros j Hj. apply Hno. now right.
      - simpl in Hfuel. lia. }
    unfold isCopyOrStore in Hi. destruct (instKind i); try discriminate; exact Hrest.
Qed.

(** X11. A function that holds no copy_addr and no store is returned
    unchanged by the pass: the scan visits every instruction without
    rewriting, nothing is queued, and neither the simplifier nor the
    lifetime completion is called. *)
Theorem run_without_candidates (fuel : nat) (c : Collaborators) (f : SILFunction) :
  uniqueIds f ->
  (forall i, In i (allInsts f) -> isCopyOrStore i = false) ->
  (forall blk, In blk (blocks f) -> length blk <= fuel) ->
  run fuel c f = Some f.
Proof.
  intros Hu Hno Hfuel.
  assert (G : forall bs, scanBlocks fuel c bs (mkScan f [] []) = Some (mkScan f [] [])).
  { induction bs as [|b bs IH]; [reflexivity|].
    cbn [scanBlocks]. rewrite (scanBlock_skips c b (getBlock f b) [] fuel); auto.
    - intros i Hi. apply Hno. eapply getBlock_allInsts; eassumption.
    - cbn [scanFn]. unfold getBlock.
      destruct (Nat.lt_ge_cases b (length (blocks f))) as [Hlt|Hge].
      + apply Hfuel. now apply nth_In.
      + rewrite nth_overflow by assumption. simpl. lia. }
  unfold run. rewrite G. reflexivity.
Qed.

(* ----------------------------------------------------------------- *)
(** ** The rewriters keep the instructions distinct *)

Lemma replaceUsesLoop_uniqueIds fuel c needFinalDeinit lastLoadInst copySrc temp :
  forall f f',
  replaceUsesLoop fuel c needFinalDeinit lastLoadInst copySrc temp f = Some f' ->
  uniqueIds f -> uniqueIds f'.
Proof.
  induction fuel as [|fuel IH]; intros f f'; simpl;
    destruct (getUses f temp) as [|use rest]; try discriminate.
  - intros [= <-]. auto.
  - intros [= <-]. auto.
  - intros H Hu. eapply IH; [eassumption|]. now apply replaceUse_uniqueIds.
Qed.

Lemma commitCopy_uniqueIds c tempObj needFinalDeinit lastLoadInst f r f' :
  commitCopy c tempObj needFinalDeinit lastLoadInst f = Some (r, f') ->
  uniqueIds f -> uniqueIds f'.
Proof.
  unfold commitCopy, bind, getFunction, modify, ret, noResult. intros H Hu.
  assert (Hu2 : uniqueIds (insertAfter (instId lastLoadInst)
                             (mkInst (freshId f) (DestroyAddrInst (caSrc c))) f)).
  { apply uniqueIds_insertAfter; [assumption|apply freshId_fresh]. }
  destruct (needToInsertDestroy _ _ _ _); simpl in H;
    match type of H with
    | context [replaceUsesLoop ?n ?a ?b ?d ?e ?t ?g] =>
        destruct (replaceUsesLoop n a b d e t g) as [f3|] eqn:El
    end; try discriminate; injection H as _ <-;
    apply uniqueIds_eraseFromParent;
    eapply replaceUsesLoop_uniqueIds; eassumption.
Qed.

Lemma NoDup_insert_before pos new l :
  NoDup (map instId l) -> ~ In (instId new) (map instId l) ->
  NoDup (map instId (flat_map (fun i => if instId i =? pos then [new; i] else [i]) l)).
Proof.
  induction l as [|i l IH]; intros Hnd Hnew; [constructor|].
  simpl in *. apply NoDup_cons_iff in Hnd. destruct Hnd as [Hi Hnd].
  assert (Hsub : forall x,
             In x (map instId (flat_map (fun i => if instId i =? pos then [new; i] else [i]) l)) ->
             x = instId new \/ In x (map instId l)).
  { clear. induction l as [|i l IH]; [intros x []|].
    intros x. simpl. rewrite map_app, in_app_iff. intros [H|H].
    - destruct (instId i =? pos); simpl in H; intuition.
    - destruct (IH x H); auto. }
  destruct (instId i =? pos) eqn:E; simpl.
  - destruct (Nat.eq_dec (instId i) pos) as [Ep|Ep]; [|apply Nat.eqb_neq in Ep; congruence].
    assert (Habs : flat_map (fun i => if instId i =? pos then [new; i] else [i]) l = l).
    { clear -Hi Ep. induction l as [|j l IH]; [reflexivity|].
      simpl in *. assert (Ej : instId j <> pos) by (intros Ej; apply Hi; left; congruence).
      apply Nat.eqb_neq in Ej. rewrite Ej. simpl. f_equal. apply IH. tauto. }
    rewrite Habs. constructor; [|constructor; assumption].
    simpl. intros [H|H]; [apply Hnew; now left|apply Hnew; now right].
  - constructor.
    + intros H. apply Hsub in H. destruct H as [H|H]; [|contradiction].
      apply Hnew. now left.
    + apply IH; [assumption|]. intros H. apply Hnew. now right.
Qed.

Lemma uniqueIds_insertBefore pos k f :
  uniqueIds f -> uniqueIds (insertBefore pos (mkInst (freshId f) k) f).
Proof.
  intros Hu. unfold uniqueIds, insertBefore. rewrite allInsts_expand.
  apply NoDup_insert_before; [assumption|apply freshId_fresh].
Qed.

Lemma uniqueIds_replaceAllUsesWith old new f :
  uniqueIds f -> uniqueIds (replaceAllUsesWith old new f).
Proof.
  unfold uniqueIds, replaceAllUsesWith. rewrite allInsts_expand.
  assert (E : map instId (flat_map (fun i => [mkInst (instId i)
                                                (substValue old new (instKind i))])
                                   (allInsts f))
              = map instId (allInsts f)).
  { induction (allInsts f) as [|i l IH]; [reflexivity|]. simpl. now rewrite IH. }
  now rewrite E.
Qed.

Lemma rewriteStoreUse_uniqueIds si src g td u g' td' :
  rewriteStoreUse si src (g, td) u = Some (g', td') -> uniqueIds g -> uniqueIds g'.
Proof.
  unfold rewriteStoreUse, emitDestroyValueOperation, emitStoreValueOperation,
    emitCopyValueOperation.
  destruct (instId (opUser u) =? si); [intros [= <- <-]; auto|].
  destruct (findInst g (instId (opUser u))) as [[bu user]|]; [|discriminate].
  destruct (instKind user); try discriminate;
    repeat match goal with
           | |- context [if ?b then _ else _] => destruct b
           end;
    intros [= <- <-] Hu;
    auto using uniqueIds_insertBefore, uniqueIds_replaceAllUsesWith.
Qed.

Lemma rewriteStoreUses_uniqueIds si src uses : forall g td g' td',
  rewriteStoreUses si src uses (g, td) = Some (g', td') -> uniqueIds g -> uniqueIds g'.
Proof.
  induction uses as [|a uses IH]; intros g td g' td' H Hu.
  - simpl in H. now injection H as <- <-.
  - cbn [rewriteStoreUses] in H.
    destruct (rewriteStoreUse si src (g, td) a) as [[g1 td1]|] eqn:E; [|discriminate].
    eapply IH; [eassumption|]. eapply rewriteStoreUse_uniqueIds; eassumption.
Qed.

Lemma uniqueIds_eraseAll toDelete f : uniqueIds f -> uniqueIds (eraseAll toDelete f).
Proof.
  unfold eraseAll. generalize (rev toDelete) as l. intros l. revert f.
  induction l as [|x l IH]; intros f Hu; [assumption|].
  simpl. apply IH. now apply uniqueIds_eraseFromParent.
Qed.

(** X12. Both rewriters keep the instructions of the function distinct:
    what they insert is new, and what they update keeps its identity.  So
    whatever holds of a function with distinct instructions holds again
    after each rewrite of the scan. *)
Theorem rewriters_keep_instructions_distinct (f : SILFunction) :
  uniqueIds f ->
  (forall accessBase computeFrontier aa copyId r f',
     tryOptimizeCopyIntoTemp accessBase computeFrontier aa copyId f = Some (r, f') ->
     uniqueIds f') /\
  (forall si it f',
     tryOptimizeStoreIntoTemp si f = Some (it, f') -> uniqueIds f').
Proof.
  intros Hu. split.
  - intros accessBase computeFrontier aa copyId r f'.
    destruct (tryOptimizeCopyIntoTemp_outcomes accessBase computeFrontier aa copyId f)
      as [E|[E|(c & tempObj & last & f1 & Hc)]].
    + rewrite E. now intros [= <- <-].
    + rewrite E. discriminate.
    + rewrite (commits_runs_commit _ _ _ _ _ _ _ _ _ Hc). intros H.
      eapply commitCopy_uniqueIds; [eassumption|].
      destruct Hc as [_ _ _ _ _ _ He].
      eapply extendAccessScopes_uniqueIds; eassumption.
  - intros si it f'. unfold tryOptimizeStoreIntoTemp.
    destruct (asStore f si) as [[[src dest] q]|]; [|now intros [= <- <-]].
    destruct (StoreQualifier_eqb q StoreAssign); [now intros [= <- <-]|].
    destruct (asAllocStack f dest) as [[[tempObj lex] dyn]|]; [|now intros [= <- <-]].
    destruct lex; [now intros [= <- <-]|]. destruct dyn; [now intros [= <- <-]|].
    destruct (negb (forallb _ _)); [now intros [= <- <-]|].
    destruct (rewriteStoreUses _ _ _ _) as [[f3 td]|] eqn:E; [|discriminate].
    intros [= <- <-]. do 2 apply uniqueIds_eraseFromParent. apply uniqueIds_eraseAll.
    eapply rewriteStoreUses_uniqueIds; eassumption.
Qed.

(* ----------------------------------------------------------------- *)
(** ** What an end_access is never moved over *)

Lemma extendLoop_selected_blocked f aa copySrc lastUseInst mid : forall x post m s,
  isEndAccess x || isBeginAccess x || isBeginUnpairedAccess x
  || mayWriteToMemory aa x s = true ->
  extendLoop f aa copySrc lastUseInst (mid ++ x :: post) (Some (m, s)) = None.
Proof.
  induction mid as [|a mid IH]; intros x post m s Hx; simpl.
  - destruct (isEndAccess x); [reflexivity|].
    destruct (isBeginAccess x || isBeginUnpairedAccess x) eqn:Eb; [reflexivity|].
    rewrite orb_false_l, Eb, orb_false_l in Hx. now rewrite Hx.
  - destruct (isEndAccess a); [reflexivity|].
    destruct (isBeginAccess a || isBeginUnpairedAccess a); [reflexivity|].
    destruct (mayWriteToMemory aa a s); [reflexivity|]. now apply IH.
Qed.

Lemma extendLoop_blocked f aa copySrc lastUseInst ea mid x post s kind pre : forall st,
  isRelocationCandidate f aa copySrc ea = true ->
  getBeginAccess f ea = Some (s, kind) ->
  isEndAccess x || isBeginAccess x || isBeginUnpairedAccess x
  || mayWriteToMemory aa x s = true ->
  extendLoop f aa copySrc lastUseInst (pre ++ ea :: mid ++ x :: post) st = None.
Proof.
  intros st Hc Hb Hx. revert st.
  pose proof (candidate_isEndAccess _ _ _ _ Hc) as Hea.
  induction pre as [|a pre IH]; intros st.
  - cbn [app extendLoop]. rewrite Hea. destruct st as [tm|]; [reflexivity|].
    rewrite Hb. unfold isRelocationCandidate in Hc. rewrite Hea, Hb in Hc.
    simpl in Hc. rewrite Hc.
    destruct (isTermInst lastUseInst); [reflexivity|].
    now apply extendLoop_selected_blocked.
  - cbn [app extendLoop]. destruct (isEndAccess a).
    + destruct st as [tm|]; [reflexivity|].
      destruct (getBeginAccess f a) as [[sa ka]|]; [|apply IH].
      destruct (negb (isNoAlias aa copySrc sa) && SILAccessKind_eqb ka AccessRead);
        [|apply IH].
      destruct (isTermInst lastUseInst); [reflexivity|apply IH].
    + destruct st as [[m sm]|]; [|apply IH].
      destruct (isBeginAccess a || isBeginUnpairedAccess a); [reflexivity|].
      destruct (mayWriteToMemory aa a sm); [reflexivity|apply IH].
Qed.

(** X13. The scope extension never moves an end_access over another
    end_access, a begin_access, a begin_unpaired_access or an instruction
    that may write to the source of its access: when such an instruction
    follows a relocation candidate in the range from the copy to the
    boundary, the extension fails and the function is untouched. *)
Theorem extendAccessScopes_blocked (copyInst : CopyAddr) (lastUseInst : SILInstruction)
  (aa : AliasAnalysis) (f : SILFunction) (pre mid post : list SILInstruction)
  (ea x : SILInstruction) (s : SILValue) (kind : SILAccessKind) :
  scopeRange f copyInst lastUseInst = pre ++ ea :: mid ++ x :: post ->
  isRelocationCandidate f aa (caSrc copyInst) ea = true ->
  getBeginAccess f ea = Some (s, kind) ->
  isEndAccess x || isBeginAccess x || isBeginUnpairedAccess x
  || mayWriteToMemory aa x s = true ->
  extendAccessScopes copyInst lastUseInst aa f = (false, f).
Proof.
  intros Hr Hc Hb Hx. unfold extendAccessScopes. rewrite Hr.
  now rewrite (extendLoop_blocked f aa (caSrc copyInst) lastUseInst ea mid x post s kind
                 pre None Hc Hb Hx).
Qed.

(* ----------------------------------------------------------------- *)
(** ** Takes through a projection *)

Lemma forEachUse_not_accepted visit uses u :
  In u uses -> (forall l l', visit u l <> Some (true, l')) ->
  forall l l', forEachUse visit uses l <> Some (true, l').
Proof.
  induction uses as [|a uses IH]; intros Hin Hu l l'; [destruct Hin|].
  simpl. destruct (visit a l) as [[[|] l1]|] eqn:E; try discriminate.
  destruct Hin as [->|Hin]; [|now apply IH].
  exfalso. exact (Hu l l1 E).
Qed.

Lemma collectLoads_take_not_whole fuel f c u l l' :
  opValue u <> caDest c ->
  (exists operand, instKind (opUser u) = LoadInst operand LoadTake) \/
  (exists s d init, instKind (opUser u) = CopyAddrInst s d true init) ->
  collectLoads fuel f c u l <> Some (true, l').
Proof.
  intros Hne Hk. destruct fuel as [|fuel]; [discriminate|].
  cbn [collectLoads]. destruct (negb (opBlock u =? caParent c)); [discriminate|].
  apply SILValue_eqb_neq in Hne.
  destruct Hk as [(operand & ->)|(s & d & init & ->)]; simpl; rewrite Hne; simpl.
  - discriminate.
  - destruct (SILValue_eqb d (opValue u)); discriminate.
Qed.

(** X14. A load [take] or a copy_addr [take] from a projection of the
    temporary is never accepted: whatever the depth, the collector over the
    projection's uses does not succeed, and neither does the collector on a
    use of the temporary by a struct_element_addr, tuple_element_addr or
    unchecked_addr_cast that has such a use. *)
Theorem take_from_projection_refused (fuel : nat) (f : SILFunction)
  (projection : SILInstruction) (originalCopy : CopyAddr) (u : Operand) :
  In u (getUses f (InstResult (instId projection))) ->
  isTypeDependentOperand u = false ->
  InstResult (instId projection) <> caDest originalCopy ->
  (exists operand, instKind (opUser u) = LoadInst operand LoadTake) \/
  (exists s d init, instKind (opUser u) = CopyAddrInst s d true init) ->
  (forall l l',
     collectLoadsFromProjection fuel f projection originalCopy l <> Some (true, l')) /\
  (forall addressUse l l',
     opUser addressUse = projection ->
     (exists v, instKind projection = StructElementAddrInst v) \/
     (exists v, instKind projection = TupleElementAddrInst v) \/
     (exists v, instKind projection = UncheckedAddrCastInst v) ->
     collectLoads fuel f originalCopy addressUse l <> Some (true, l')).
Proof.
  intros Hin Htd Hne Hk.
  assert (G : forall n l l',
             collectLoadsFromProjection n f projection originalCopy l <> Some (true, l')).
  { intros n l l'. unfold collectLoadsFromProjection, collectLoadsFromProjectionWith.
    apply forEachUse_not_accepted with (u := u).
    - apply filter_In. split; [assumption|]. now rewrite Htd.
    - intros l0 l1. apply collectLoads_take_not_whole; [|assumption].
      apply getUses_In in Hin. destruct Hin as (_ & -> & _). assumption. }
  split; [apply G|].
  intros addressUse l l' Hp Hproj. destruct fuel as [|fuel]; [discriminate|].
  cbn [collectLoads]. destruct (negb (opBlock addressUse =? caParent originalCopy));
    [discriminate|].
  rewrite Hp.
  destruct Hproj as [(v & ->)|[(v & ->)|(v & ->)]]; apply (G fuel).
Qed.

(* ================================================================= *)
(** * The scan, the scope extension and the rewrites, end to end *)

(* ----------------------------------------------------------------- *)
(** ** Uses the scan passes over *)

Section ScanOfUses.

Variable fuel : nat.
Variable f : SILFunction.
Variable copyInst : CopyAddr.
Variable isOSSA needFinalDeinit : bool.

Local Abbreviation scan := (scanTempUses fuel f copyInst isOSSA needFinalDeinit).
Local Abbreviation skipped := (skippedUse copyInst isOSSA needFinalDeinit).

Lemma withUserSet_twice us1 us2 r : withUserSet us1 (withUserSet us2 r) = withUserSet us1 r.
Proof. destruct r as [[[l us]|]|]; reflexivity. Qed.

(** The user set plays no role in the scan but to be handed back. *)
Lemma scan_userSet uses : forall l us us0,
  scan uses l us = withUserSet (usersOf uses us) (scan uses l us0).
Proof.
  induction uses as [|a uses IH]; intros l us us0; [reflexivity|].
  cbn [scanTempUses usersOf fold_left].
  fold (usersOf uses (insert (opUser a) us)).
  destruct (instId (opUser a) =? instId (caInst copyInst)); [apply IH|].
  destruct (isDeallocStack (opUser a)); [apply IH|].
  destruct (isDestroyAddr (opUser a)).
  - destruct (negb isOSSA && needFinalDeinit); [|apply IH].
    destruct (negb (opBlock a =? caParent copyInst)); [reflexivity|apply IH].
  - destruct (collectLoads fuel f copyInst a l) as [[[|] l1]|]; try reflexivity.
    apply IH.
Qed.

Lemma scan_skipped a uses l us :
  skipped a = true -> scan (a :: uses) l us = scan uses l (insert (opUser a) us).
Proof.
  unfold skippedUse. cbn [scanTempUses].
  destruct (instId (opUser a) =? instId (caInst copyInst)); [reflexivity|].
  destruct (isDeallocStack (opUser a)); [reflexivity|]. simpl.
  destruct (isDestroyAddr (opUser a)); [|discriminate]. simpl.
  destruct (negb isOSSA && needFinalDeinit); [discriminate|reflexivity].
Qed.

Lemma scan_filter uses : forall l us,
  scan uses l us
  = withUserSet (usersOf uses us) (scan (filter (fun u => negb (skipped u)) uses) l us).
Proof.
  induction uses as [|a uses IH]; intros l us; [reflexivity|].
  cbn [filter]. destruct (skipped a) eqn:Ea; cbn [negb].
  - rewrite (scan_skipped _ _ _ _ Ea), IH. cbn [usersOf fold_left].
    fold (usersOf uses (insert (opUser a) us)).
    rewrite (scan_userSet _ l (insert (opUser a) us) us), withUserSet_twice.
    reflexivity.
  - cbn [scanTempUses usersOf fold_left].
    fold (usersOf uses (insert (opUser a) us)).
    unfold skippedUse in Ea.
    destruct (instId (opUser a) =? instId (caInst copyInst)); [discriminate|].
    destruct (isDeallocStack (opUser a)); [discriminate|].
    destruct (isDestroyAddr (opUser a)).
    + destruct (negb isOSSA && needFinalDeinit); [|discriminate].
      destruct (negb (opBlock a =? caParent copyInst)); [reflexivity|].
      rewrite IH.
      rewrite (scan_userSet (filter _ uses) _ (insert (opUser a) us)
                            (insert (opUser a) us)) at 2.
      now rewrite withUserSet_twice.
    + destruct (collectLoads fuel f copyInst a l) as [[[|] l1]|]; try reflexivity.
      rewrite IH.
      rewrite (scan_userSet (filter _ uses) _ (insert (opUser a) us)
                            (insert (opUser a) us)) at 2.
      now rewrite withUserSet_twice.
Qed.

Lemma scan_all_skipped uses : forall l us,
  forallb skipped uses = true -> scan uses l us = Some (Some (l, usersOf uses us)).
Proof.
  induction uses as [|a uses IH]; intros l us H; [reflexivity|].
  simpl in H. apply andb_true_iff in H. destruct H as [Ha H].
  rewrite (scan_skipped _ _ _ _ Ha). now apply IH.
Qed.

Lemma scan_app pre rest : forall l us,
  scan (pre ++ rest) l us
  = match scan pre l us with
    | Some (Some (l1, us1)) => scan rest l1 us1
    | r => r
    end.
Proof.
  induction pre as [|a pre IH]; intros l us; [reflexivity|].
  cbn [app scanTempUses].
  destruct (instId (opUser a) =? instId (caInst copyInst)); [apply IH|].
  destruct (isDeallocStack (opUser a)); [apply IH|].
  destruct (isDestroyAddr (opUser a)).
  - destruct (negb isOSSA && needFinalDeinit); [|apply IH].
    destruct (negb (opBlock a =? caParent copyInst)); [reflexivity|apply IH].
  - destruct (collectLoads fuel f copyInst a l) as [[[|] l1]|]; try reflexivity.
    apply IH.
Qed.

End ScanOfUses.

(** The collector never forgets a recorded read. *)
Section KeepsRecorded.

Variable f : SILFunction.
Variable c : CopyAddr.

Local Abbreviation keeps l r :=
  (forall l' : InstructionSet, r = Some (true, l') -> incl l l').

Lemma insert_incl i l : incl l (insert i l).
Proof. intros x Hx. apply insert_In. now right. Qed.

Lemma keeps_forEachUse visit uses :
  (forall o l, keeps l (visit o l)) -> forall l, keeps l (forEachUse visit uses l).
Proof.
  intros Hv. induction uses as [|a uses IH]; intros l l' H.
  - simpl in H. injection H as <-. apply incl_refl.
  - simpl in H. destruct (visit a l) as [[[|] l1]|] eqn:E; try discriminate.
    eapply incl_tran; [exact (Hv a l l1 E)|exact (IH l1 l' H)].
Qed.

Lemma keeps_recordInBlock block o l : keeps l (recordInBlock block o l).
Proof.
  intros l'. unfold recordInBlock. destruct (negb (opBlock o =? block)); [discriminate|].
  intros [= <-]. apply insert_incl.
Qed.

Lemma keeps_after_insert i l r : keeps (insert i l) r -> keeps l r.
Proof. intros H l' E. eapply incl_tran; [apply insert_incl|exact (H l' E)]. Qed.

Lemma collectLoads_keeps fuel : forall o l, keeps l (collectLoads fuel f c o l).
Proof.
  induction fuel as [|fuel IH]; intros o l; [intros l' H; discriminate|].
  cbn [collectLoads].
  destruct (negb (opBlock o =? caParent c)); [intros l' H; discriminate|].
  assert (Hfalse : forall l0, keeps l (Some (false, l0))) by (intros l0 l' H; discriminate).
  assert (Hins : keeps l (Some (true, insert (opUser o) l)))
    by (intros l' [= <-]; apply insert_incl).
  assert (Hsame : keeps l (Some (true, l))) by (intros l' [= <-]; apply incl_refl).
  assert (Hrec : forall uses l0, keeps l0 (forEachUse (recordInBlock (caParent c)) uses l0)).
  { intros uses l0. apply keeps_forEachUse. intros u l1. apply keeps_recordInBlock. }
  assert (Hproj : forall p,
             keeps l (collectLoadsFromProjectionWith (collectLoads fuel f c) f p l)).
  { intros p. unfold collectLoadsFromProjectionWith. now apply keeps_forEachUse. }
  assert (Hdep : forall uses, keeps l (forEachUse (collectLoads fuel f c) uses l)).
  { intros uses. now apply keeps_forEachUse. }
  assert (Happly : forall args b, keeps l (collectApply f (caParent c) o args b l)).
  { intros args b. unfold collectApply.
    destruct (negb (argumentConvention args o)); [apply Hfalse|].
    destruct b; [|exact Hins]. apply (keeps_after_insert (opUser o)), Hrec. }
  assert (Hborrow : keeps l (forEachUse (visitEndScope (caParent c))
                               (localScopeEndingUses f (opUser o))
                               (insert (opUser o) l))).
  { apply (keeps_after_insert (opUser o)), keeps_forEachUse. intros u l1. unfold visitEndScope.
    destruct (isEndBorrow (opUser u)); [apply keeps_recordInBlock|].
    intros l' H; discriminate. }
  destruct (instKind (opUser o));
    repeat match goal with
           | |- forall l', (if ?b then _ else _) = _ -> _ => destruct b
           end;
    first [ apply Hfalse | exact Hins | exact Hsame | apply Hdep | exact Hborrow
          | apply Hrec | apply Hproj | apply Happly ].
Qed.

Lemma scanTempUses_keeps fuel isOSSA needFinalDeinit uses : forall l us l' us',
  scanTempUses fuel f c isOSSA needFinalDeinit uses l us = Some (Some (l', us')) ->
  incl l l'.
Proof.
  induction uses as [|a uses IH]; intros l us l' us' H.
  - simpl in H. injection H as <- <-. apply incl_refl.
  - cbn [scanTempUses] in H.
    destruct (instId (opUser a) =? instId (caInst c)); [eapply IH; eassumption|].
    destruct (isDeallocStack (opUser a)); [eapply IH; eassumption|].
    destruct (isDestroyAddr (opUser a)).
    + destruct (negb isOSSA && needFinalDeinit); [|eapply IH; eassumption].
      destruct (negb (opBlock a =? caParent c)); [discriminate|].
      eapply incl_tran; [apply insert_incl|eapply IH; eassumption].
    + destruct (collectLoads fuel f c a l) as [[[|] l1]|] eqn:E; try discriminate.
      eapply incl_tran; [exact (collectLoads_keeps fuel a l l1 E)|eapply IH; eassumption].
Qed.

End KeepsRecorded.

(** C10. In the scan of the temporary's uses, the uses by a dealloc_stack
    and, in ownership mode or for a copy that does not take its source, by a
    destroy_addr are passed over whatever block they are in: the scan gives
    what it gives without them (only the user set holds them), and a scan of
    nothing but such uses succeeds with the recorded reads unchanged.  Only
    outside ownership mode with a taking copy is a destroy_addr looked at:
    after uses that passed the scan, one in another block ends the attempt,
    and one in the initializer's block is recorded as a terminal read, which
    a successful scan then hands back. *)
Theorem scanTempUses_destroy_and_dealloc (fuel : nat) (f : SILFunction)
  (copyInst : CopyAddr) (isOSSA needFinalDeinit : bool) :
  (forall u,
     instId (opUser u) <> instId (caInst copyInst) ->
     (isDeallocStack (opUser u) = true ->
      skippedUse copyInst isOSSA needFinalDeinit u = true) /\
     (isDestroyAddr (opUser u) = true ->
      (skippedUse copyInst isOSSA needFinalDeinit u = true <->
       isOSSA = true \/ needFinalDeinit = false))) /\
  (forall uses loadInsts userSet,
     scanTempUses fuel f copyInst isOSSA needFinalDeinit uses loadInsts userSet
     = withUserSet (usersOf uses userSet)
         (scanTempUses fuel f copyInst isOSSA needFinalDeinit
            (filter (fun u => negb (skippedUse copyInst isOSSA needFinalDeinit u)) uses)
            loadInsts userSet)) /\
  (forall uses loadInsts userSet,
     forallb (skippedUse copyInst isOSSA needFinalDeinit) uses = true ->
     scanTempUses fuel f copyInst isOSSA needFinalDeinit uses loadInsts userSet
     = Some (Some (loadInsts, usersOf uses userSet))) /\
  (isOSSA = false -> needFinalDeinit = true ->
   forall pre u rest loadInsts userSet loadInsts1 userSet1,
     scanTempUses fuel f copyInst isOSSA needFinalDeinit pre loadInsts userSet
     = Some (Some (loadInsts1, userSet1)) ->
     isDestroyAddr (opUser u) = true ->
     instId (opUser u) <> instId (caInst copyInst) ->
     (opBlock u <> caParent copyInst ->
      scanTempUses fuel f copyInst isOSSA needFinalDeinit (pre ++ u :: rest)
                   loadInsts userSet = Some None) /\
     (opBlock u = caParent copyInst ->
      scanTempUses fuel f copyInst isOSSA needFinalDeinit (pre ++ u :: rest)
                   loadInsts userSet
      = scanTempUses fuel f copyInst isOSSA needFinalDeinit rest
                     (insert (opUser u) loadInsts1) (insert (opUser u) userSet1) /\
      forall loadInsts' userSet',
        scanTempUses fuel f copyInst isOSSA needFinalDeinit (pre ++ u :: rest)
                     loadInsts userSet = Some (Some (loadInsts', userSet')) ->
        In (instId (opUser u)) loadInsts')).
Proof.
  assert (Hk : forall u, isDestroyAddr (opUser u) = true ->
                         isDeallocStack (opUser u) = false).
  { intros u. unfold isDeallocStack, isDestroyAddr.
    destruct (instKind (opUser u)); congruence. }
  split; [|split; [|split; [|]]].
  - intros u Hne. apply Nat.eqb_neq in Hne. unfold skippedUse. rewrite Hne. split.
    + intros ->. reflexivity.
    + intros Hd. rewrite Hd, (Hk u Hd). simpl.
      destruct isOSSA, needFinalDeinit; simpl; intuition discriminate.
  - apply scan_filter.
  - apply scan_all_skipped.
  - intros -> -> pre u rest l us l1 us1 Hpre Hd Hne.
    apply Nat.eqb_neq in Hne.
    assert (Hstep : scanTempUses fuel f copyInst false true (pre ++ u :: rest) l us
                    = if negb (opBlock u =? caParent copyInst) then Some None
                      else scanTempUses fuel f copyInst false true rest
                             (insert (opUser u) l1) (insert (opUser u) us1)).
    { rewrite scan_app, Hpre. cbn [scanTempUses]. rewrite Hne, Hd, (Hk u Hd).
      reflexivity. }
    split.
    + intros Hb. apply Nat.eqb_neq in Hb. now rewrite Hstep, Hb.
    + intros Hb. apply Nat.eqb_eq in Hb. rewrite Hstep, Hb. simpl.
      split; [reflexivity|].
      intros l' us' H. apply scanTempUses_keeps in H. apply H.
      apply insert_In. now left.
Qed.

(* ----------------------------------------------------------------- *)
(** ** When the scope extension succeeds *)

Section ExtensionResult.

Variable f : SILFunction.
Variable aa : AliasAnalysis.
Variable copySrc : SILValue.
Variable lastUseInst : SILInstruction.

Local Abbreviation candidate := (isRelocationCandidate f aa copySrc).
Local Abbreviation loop := (extendLoop f aa copySrc lastUseInst).

Lemma extendLoop_skip pre rest :
  (forall i, In i pre -> candidate i = false) ->
  loop (pre ++ rest) None = loop rest None.
Proof.
  induction pre as [|a pre IH]; intros H; [reflexivity|].
  assert (Ha : candidate a = false) by (apply H; now left).
  assert (Hpre : forall i, In i pre -> candidate i = false)
    by (intros i Hi; apply H; now right).
  cbn [app]. destruct (isEndAccess a) eqn:Ea.
  - rewrite loop_visit_end_access by assumption. rewrite Ha. auto.
  - rewrite loop_visit_other by assumption. auto.
Qed.

Lemma extendLoop_no_candidate insts :
  (forall i, In i insts -> candidate i = false) -> loop insts None = Some None.
Proof.
  intros H. rewrite <- (app_nil_r insts). now rewrite extendLoop_skip.
Qed.

Lemma extendLoop_selected_exact post : forall ea s,
  loop post (Some (ea, s))
  = if existsb (blocksRelocation aa s) post then None else Some (Some (ea, s)).
Proof.
  induction post as [|a post IH]; intros ea s; [reflexivity|].
  cbn [extendLoop existsb]. unfold blocksRelocation at 1.
  destruct (isEndAccess a); [reflexivity|].
  destruct (isBeginAccess a || isBeginUnpairedAccess a) eqn:Eb.
  - rewrite orb_false_l, Eb. reflexivity.
  - rewrite orb_false_l, Eb, orb_false_l.
    destruct (mayWriteToMemory aa a s); [reflexivity|]. apply IH.
Qed.

Lemma extendLoop_first_candidate pre ea post s kind :
  (forall i, In i pre -> candidate i = false) ->
  candidate ea = true ->
  getBeginAccess f ea = Some (s, kind) ->
  loop (pre ++ ea :: post) None
  = if isTermInst lastUseInst || existsb (blocksRelocation aa s) post then None
    else Some (Some (ea, s)).
Proof.
  intros Hpre Hc Hb. rewrite extendLoop_skip by assumption.
  rewrite loop_visit_end_access by (eapply candidate_isEndAccess; eassumption).
  rewrite Hc, Hb. destruct (isTermInst lastUseInst); [reflexivity|].
  apply extendLoop_selected_exact.
Qed.

End ExtensionResult.

(** C5. Over the range from just after the initializing copy to the
    lifetime boundary: without a relocation candidate the extension succeeds
    and changes nothing; with one, the first candidate decides: the
    extension fails, the function untouched, when the boundary is a
    terminator or when an end_access (so any second candidate), a
    begin_access, a begin_unpaired_access or a possible write to the source
    of the access follows the candidate in the range, and otherwise it
    succeeds and its result is the function with that one end_access moved
    after the boundary; the moved end_access then sits immediately after the
    boundary instruction. *)
Theorem extendAccessScopes_relocates_one (copyInst : CopyAddr)
  (lastUseInst : SILInstruction) (aa : AliasAnalysis) (f : SILFunction) :
  (forall pre ea1 mid ea2 post,
     scopeRange f copyInst lastUseInst = pre ++ ea1 :: mid ++ ea2 :: post ->
     isRelocationCandidate f aa (caSrc copyInst) ea1 = true ->
     isRelocationCandidate f aa (caSrc copyInst) ea2 = true ->
     extendAccessScopes copyInst lastUseInst aa f = (false, f)) /\
  (forall ea,
     In ea (scopeRange f copyInst lastUseInst) ->
     isRelocationCandidate f aa (caSrc copyInst) ea = true ->
     isTermInst lastUseInst = true ->
     extendAccessScopes copyInst lastUseInst aa f = (false, f)) /\
  ((forall i, In i (scopeRange f copyInst lastUseInst) ->
              isRelocationCandidate f aa (caSrc copyInst) i = false) ->
   extendAccessScopes copyInst lastUseInst aa f = (true, f)) /\
  (forall pre ea post s kind,
     scopeRange f copyInst lastUseInst = pre ++ ea :: post ->
     (forall i, In i pre -> isRelocationCandidate f aa (caSrc copyInst) i = false) ->
     isRelocationCandidate f aa (caSrc copyInst) ea = true ->
     getBeginAccess f ea = Some (s, kind) ->
     extendAccessScopes copyInst lastUseInst aa f
     = if isTermInst lastUseInst || existsb (blocksRelocation aa s) post
       then (false, f)
       else (true, moveAfter ea (instId lastUseInst) f)) /\
  (forall f',
     extendAccessScopes copyInst lastUseInst aa f = (true, f') ->
     (f' = f /\
      forall i, In i (scopeRange f copyInst lastUseInst) ->
                isRelocationCandidate f aa (caSrc copyInst) i = false) \/
     (exists pre ea post,
        scopeRange f copyInst lastUseInst = pre ++ ea :: post /\
        isRelocationCandidate f aa (caSrc copyInst) ea = true /\
        (forall i, In i (pre ++ post) ->
                   isRelocationCandidate f aa (caSrc copyInst) i = false) /\
        f' = moveAfter ea (instId lastUseInst) f /\
        (instId ea <> instId lastUseInst ->
         findInst f (instId lastUseInst) <> None ->
         nextInst f' (instId lastUseInst) = Some ea))).
Proof.
  unfold extendAccessScopes. split; [|split; [|split; [|split]]].
  - intros pre ea1 mid ea2 post -> H1 H2.
    rewrite loop_two_candidates with (ea2 := ea2); auto.
    + apply in_or_app. right. now left.
    + now apply candidate_isEndAccess in H2.
  - intros ea Hin Hc Ht.
    now rewrite loop_candidate_terminator with (ea := ea).
  - intros H. now rewrite extendLoop_no_candidate.
  - intros pre ea post s kind -> Hpre Hc Hb.
    rewrite (extendLoop_first_candidate f aa (caSrc copyInst) lastUseInst
               pre ea post s kind Hpre Hc Hb).
    now destruct (isTermInst lastUseInst || existsb (blocksRelocation aa s) post).
  - intros f'.
    destruct (extendLoop _ _ _ _ _ _) as [[[ea s]|]|] eqn:E; [| |discriminate].
    + intros [= <-]. right. apply loop_success in E.
      destruct E as [[E _]|(pre & ea' & s' & post & Hr & [= <- <-] & Hc & Ht & Hpre & Hpost)];
        [discriminate|].
      exists pre, ea, post. repeat split; auto.
      * intros i [Hi|Hi]%in_app_or; auto.
        unfold isRelocationCandidate. now rewrite (Hpost i Hi).
      * intros Hne Hf. now apply nextInst_moveAfter.
    + intros [= <-]. left. apply loop_success in E.
      destruct E as [[_ E]|(pre & ea' & s' & post & _ & E & _)]; [|discriminate].
      split; [reflexivity|exact E].
Qed.

(* ----------------------------------------------------------------- *)
(** ** What the users of a load of the temporary use afterwards *)

Lemma findInBlock_insert_new pos new blk p :
  findInBlock pos blk = Some p -> findInBlock (instId new) blk = None ->
  findInBlock (instId new)
    (flat_map (fun i => if instId i =? pos then [new; i] else [i]) blk) = Some new.
Proof.
  induction blk as [|i blk IH]; [discriminate|]. simpl.
  destruct (instId i =? instId new) eqn:En; [discriminate|].
  destruct (instId i =? pos).
  - intros _ _. simpl. now rewrite Nat.eqb_refl.
  - intros Hp Hn. simpl. rewrite En. auto.
Qed.

Lemma flat_map_insert_absent pos new blk :
  findInBlock pos blk = None ->
  flat_map (fun i => if instId i =? pos then [new; i] else [i]) blk = blk.
Proof.
  induction blk as [|i blk IH]; [reflexivity|]. simpl.
  destruct (instId i =? pos); [discriminate|]. intros H. simpl. f_equal. auto.
Qed.

Lemma findInst_insertBefore_new pos new f b p :
  findInst f pos = Some (b, p) -> findInst f (instId new) = None ->
  findInst (insertBefore pos new f) (instId new) = Some (b, new).
Proof.
  unfold findInst, insertBefore, expandInsts. simpl. generalize 0.
  induction (blocks f) as [|blk bs IH]; intros n; [discriminate|]. simpl.
  destruct (findInBlock pos blk) as [p'|] eqn:Ep.
  - intros [= <- <-]. destruct (findInBlock (instId new) blk) eqn:En; [discriminate|].
    intros _. now rewrite (findInBlock_insert_new pos new blk p' Ep En).
  - destruct (findInBlock (instId new) blk) eqn:En; [discriminate|].
    intros Hp Hn. rewrite (flat_map_insert_absent pos new blk Ep), En. auto.
Qed.

Lemma findInst_fresh g : findInst g (freshId g) = None.
Proof.
  destruct (findInst g (freshId g)) as [[b i]|] eqn:E; [|reflexivity].
  pose proof (findInst_In _ _ _ _ E) as Hin. apply freshId_neq in Hin.
  apply findInst_id in E. congruence.
Qed.

Lemma nth_error_substValue old new k m v :
  nth_error (getAllOperands k) m = Some v ->
  nth_error (getAllOperands (substValue old new k)) m
  = Some (if SILValue_eqb v old then new else v).
Proof.
  intros H. rewrite getAllOperands_substValue, nth_error_map, H. reflexivity.
Qed.

Lemma LoadQualifier_eqb_eq a b : LoadQualifier_eqb a b = true <-> a = b.
Proof. destruct a, b; simpl; split; congruence. Qed.

Lemma findInst_eraseAll_other toDelete g id :
  ~ In id toDelete -> findInst (eraseAll toDelete g) id = findInst g id.
Proof.
  unfold eraseAll. intros H.
  assert (G : forall l g0, ~ In id l ->
                findInst (fold_left (fun f x => eraseFromParent x f) l g0) id
                = findInst g0 id).
  { induction l as [|x l IH]; intros g0 Hl; [reflexivity|].
    simpl. rewrite IH by (intros E; apply Hl; now right).
    apply findInst_eraseFromParent_other. intros E. apply Hl. now left. }
  apply G. intros E. apply H. now apply in_rev.
Qed.

Lemma rewriteStoreUses_toDelete_from si src uses : forall g td g' td',
  rewriteStoreUses si src uses (g, td) = Some (g', td') ->
  forall x, In x td' -> In x td \/ exists u, In u uses /\ x = instId (opUser u).
Proof.
  induction uses as [|a uses IH]; intros g td g' td' H x Hx.
  - simpl in H. injection H as <- <-. now left.
  - cbn [rewriteStoreUses] in H.
    destruct (rewriteStoreUse si src (g, td) a) as [[g1 td1]|] eqn:E; [|discriminate].
    pose proof (rewriteStoreUse_toDelete _ _ _ _ _ _ _ E) as Htd.
    destruct (IH _ _ _ _ H x Hx) as [H1|(u & Hu & ->)].
    + rewrite Htd in H1. apply in_app_or in H1. destruct H1 as [H1|H1]; [now left|].
      right. exists a. split; [now left|].
      destruct (instId (opUser a) =? si); [destruct H1|].
      destruct H1 as [<-|[]]. reflexivity.
    + right. exists u. split; [now right|reflexivity].
Qed.

Section ReplacedLoad.

Variable si : InstId.
Variable src : SILValue.
Variable f : SILFunction.
Variable li : InstId.
Variable q : LoadOwnershipQualifier.
Variable bl : nat.
Variable load : SILInstruction.
Variable tracked : InstId -> nat -> nat -> Prop.

Hypothesis loadInF : findInst f li = Some (bl, load).
Hypothesis notStored : src <> InstResult li.
Hypothesis notStore : li <> si.

(** The instruction found under [id] in block [b] has [v] as operand
    number [m]. *)
Local Abbreviation usesAt g id m b v :=
  (exists j, findInst g id = Some (b, j) /\
             nth_error (getAllOperands (instKind j)) m = Some v).

(** Every instruction of [f] is still there, in its block. *)
Local Abbreviation persist g :=
  (forall id b i, findInst f id = Some (b, i) -> exists i', findInst g id = Some (b, i')).

(** The value the load is replaced by: the stored value, or for a load
    [copy] the result of a new copy_value of it in the load's block. *)
Local Abbreviation replacement g v :=
  ((q = LoadCopy ->
    exists c, v = InstResult c /\ findInst f c = None /\
              findInst g c = Some (bl, mkInst c (CopyValueInst src))) /\
   (q <> LoadCopy -> v = src)).

Lemma rewriteStoreUse_persist g td u g' td' :
  rewriteStoreUse si src (g, td) u = Some (g', td') -> persist g -> persist g'.
Proof.
  intros E Hp id b i Hf. destruct (Hp id b i Hf) as [i' Hg].
  destruct (rewriteStoreUse_effect _ _ _ _ _ _ _ E _ _ _ Hg) as [H|(new & _ & H)];
    rewrite H; eauto.
Qed.

Lemma rewriteStoreUse_usesAt g td u g' td' id m b v :
  rewriteStoreUse si src (g, td) u = Some (g', td') ->
  v <> InstResult (instId (opUser u)) ->
  usesAt g id m b v -> usesAt g' id m b v.
Proof.
  intros E Hv (j & Hg & Hm).
  destruct (rewriteStoreUse_effect _ _ _ _ _ _ _ E _ _ _ Hg) as [H|(new & _ & H)];
    rewrite H; eexists; (split; [reflexivity|]); [assumption|].
  simpl. rewrite (nth_error_substValue _ _ _ _ _ Hm).
  apply SILValue_eqb_neq in Hv. now rewrite Hv.
Qed.

Lemma rewriteStoreUse_copy_kept g td u g' td' c :
  rewriteStoreUse si src (g, td) u = Some (g', td') ->
  src <> InstResult (instId (opUser u)) ->
  findInst g c = Some (bl, mkInst c (CopyValueInst src)) ->
  findInst g' c = Some (bl, mkInst c (CopyValueInst src)).
Proof.
  intros E Hv Hg.
  destruct (rewriteStoreUse_effect _ _ _ _ _ _ _ E _ _ _ Hg) as [H|(new & _ & H)];
    rewrite H; [reflexivity|].
  cbn [instId instKind substValue mapOperands].
  apply SILValue_eqb_neq in Hv. now rewrite Hv.
Qed.

(** The step on the load: every tracked operand that named its result now
    names the replacement. *)
Lemma rewriteStoreUse_replaces g td u g' td' :
  rewriteStoreUse si src (g, td) u = Some (g', td') ->
  instId (opUser u) = li -> persist g -> isLoadAt g li q ->
  (forall id m b, tracked id m b -> usesAt g id m b (InstResult li)) ->
  exists v, replacement g' v /\
            forall id m b, tracked id m b -> usesAt g' id m b v.
Proof.
  intros E Hid Hp Hl Ht.
  destruct (rewriteStoreUse_load si src li q notStored g td u Hid notStore Hl) as [E' _].
  rewrite E' in E. injection E as <- _.
  destruct (Hp _ _ _ loadInF) as [load' Hload].
  unfold loadReplaced. destruct (LoadQualifier_eqb q LoadCopy) eqn:Eq.
  - exists (InstResult (freshId g)). split.
    + split; [|intros Hq; apply LoadQualifier_eqb_eq in Eq; contradiction].
      intros _. exists (freshId g). split; [reflexivity|]. split.
      * destruct (findInst f (freshId g)) as [[b i]|] eqn:Ef; [|reflexivity].
        destruct (Hp _ _ _ Ef) as [i' Hg]. rewrite findInst_fresh in Hg. discriminate.
      * rewrite (keep_replaceAllUsesWith _ _ _ _ bl (mkInst (freshId g) (CopyValueInst src))).
        -- cbn [instId instKind substValue mapOperands].
           apply SILValue_eqb_neq in notStored. now rewrite notStored.
        -- apply (findInst_insertBefore_new li (mkInst (freshId g) (CopyValueInst src))
                    g bl load' Hload). apply findInst_fresh.
    + intros id m b Hid'. destruct (Ht id m b Hid') as (j & Hg & Hm).
      eexists. split.
      * apply keep_replaceAllUsesWith, keep_insertBefore. exact Hg.
      * simpl. rewrite (nth_error_substValue _ _ _ _ _ Hm).
        now rewrite SILValue_eqb_refl.
  - exists src. split.
    + split; [|reflexivity].
      intros Hq. apply LoadQualifier_eqb_eq in Hq. congruence.
    + intros id m b Hid'. destruct (Ht id m b Hid') as (j & Hg & Hm).
      eexists. split.
      * apply keep_replaceAllUsesWith. exact Hg.
      * simpl. rewrite (nth_error_substValue _ _ _ _ _ Hm).
        now rewrite SILValue_eqb_refl.
Qed.

Variable users : list InstId.

Hypothesis usersInF : forall x, In x users -> findInst f x <> None.
Hypothesis notResult : forall x, In x users -> src <> InstResult x.

Lemma replacement_not_user g v x : replacement g v -> In x users -> v <> InstResult x.
Proof.
  intros [Hc Hs] Hx. destruct (LoadQualifier_eqb q LoadCopy) eqn:Eq.
  - apply LoadQualifier_eqb_eq in Eq. destruct (Hc Eq) as (c & -> & Hf & _).
    intros [= ->]. now apply (usersInF x Hx).
  - assert (Hq : q <> LoadCopy) by (intros ->; discriminate).
    rewrite (Hs Hq). now apply notResult.
Qed.

(** Once replaced, the operands stay what they are. *)
Lemma rewriteStoreUses_replaced uses : forall g td g' td' v,
  rewriteStoreUses si src uses (g, td) = Some (g', td') ->
  (forall u, In u uses -> In (instId (opUser u)) users) ->
  replacement g v ->
  (forall id m b, tracked id m b -> usesAt g id m b v) ->
  replacement g' v /\ forall id m b, tracked id m b -> usesAt g' id m b v.
Proof.
  induction uses as [|a uses IH]; intros g td g' td' v H Hu Hr Ht.
  - simpl in H. injection H as <- <-. auto.
  - cbn [rewriteStoreUses] in H.
    destruct (rewriteStoreUse si src (g, td) a) as [[g1 td1]|] eqn:E; [|discriminate].
    assert (Ha : In (instId (opUser a)) users) by (apply Hu; now left).
    apply (IH _ _ _ _ v H).
    + intros u Hin. apply Hu. now right.
    + destruct Hr as [Hc Hs]. split; [|exact Hs].
      intros Hq. destruct (Hc Hq) as (c & Hv & Hf & Hg).
      exists c. repeat split; auto.
      eapply rewriteStoreUse_copy_kept; [eassumption| |assumption].
      now apply notResult.
    + intros id m b Hid. eapply rewriteStoreUse_usesAt; [eassumption| |auto].
      eapply replacement_not_user; eassumption.
Qed.

(** The loop over the uses replaces the result of the load in every tracked
    operand. *)
Lemma rewriteStoreUses_replaces uses : forall g td g' td' u,
  rewriteStoreUses si src uses (g, td) = Some (g', td') ->
  (forall u, In u uses -> In (instId (opUser u)) users) ->
  In u uses -> instId (opUser u) = li ->
  persist g -> isLoadAt g li q ->
  (forall id m b, tracked id m b -> usesAt g id m b (InstResult li)) ->
  exists v, replacement g' v /\
            forall id m b, tracked id m b -> usesAt g' id m b v.
Proof.
  induction uses as [|a uses IH]; intros g td g' td' u H Hu Hin Hid Hp Hl Ht;
    [destruct Hin|].
  cbn [rewriteStoreUses] in H.
  destruct (rewriteStoreUse si src (g, td) a) as [[g1 td1]|] eqn:E; [|discriminate].
  destruct (Nat.eq_dec (instId (opUser a)) li) as [Ea|Ea].
  - destruct (rewriteStoreUse_replaces _ _ _ _ _ E Ea Hp Hl Ht) as (v & Hr & Hv).
    exists v. eapply rewriteStoreUses_replaced; eauto.
    intros x Hx. apply Hu. now right.
  - destruct Hin as [->|Hin]; [contradiction|].
    apply (IH _ _ _ _ u H); auto.
    + intros x Hx. apply Hu. now right.
    + eapply rewriteStoreUse_persist; eassumption.
    + eapply rewriteStoreUse_isLoadAt; eassumption.
    + intros id m b Hid'. eapply rewriteStoreUse_usesAt; [eassumption| |auto].
      congruence.
Qed.

End ReplacedLoad.

(** C8. In the store-elimination rewrite every load of the temporary is
    replaced by the stored value.  The step on a load redirects the uses of
    the load to the stored value itself for a load [take] (nothing is
    inserted) and to a fresh copy_value of it, placed before the load, for a
    load [copy].  When the rewrite is through, the load is deleted and
    nothing uses its result: every operand of a remaining instruction that
    named the result of the load names the stored value instead, or, for a
    load [copy], the result of one new copy_value of the stored value that
    sits in the block of the load. *)
Theorem store_rewrite_replaces_loads (si : InstId) (f : SILFunction)
  (src dest : SILValue) (sq : StoreOwnershipQualifier) (tempObj : SILInstruction)
  (u : Operand) (operand : SILValue) (q : LoadOwnershipQualifier) :
  uniqueIds f ->
  asStore f si = Some (src, dest, sq) ->
  StoreQualifier_eqb sq StoreAssign = false ->
  asAllocStack f dest = Some (tempObj, false, false) ->
  forallb (storeUserHandled si (InstResult (instId tempObj)))
          (getUses f (InstResult (instId tempObj))) = true ->
  In u (getUses f (InstResult (instId tempObj))) ->
  instKind (opUser u) = LoadInst operand q ->
  (forall u', In u' (getUses f (InstResult (instId tempObj))) ->
              src <> InstResult (instId (opUser u'))) ->
  (forall g td,
     isLoadAt g (instId (opUser u)) q ->
     rewriteStoreUse si src (g, td) u
     = Some (loadReplaced src (instId (opUser u)) q g, td ++ [instId (opUser u)])) /\
  (q = LoadTake ->
   forall g, loadReplaced src (instId (opUser u)) q g
             = replaceAllUsesWith (InstResult (instId (opUser u))) src g) /\
  (q = LoadCopy ->
   forall g, loadReplaced src (instId (opUser u)) q g
             = replaceAllUsesWith (InstResult (instId (opUser u)))
                 (InstResult (freshId g))
                 (insertBefore (instId (opUser u))
                               (mkInst (freshId g) (CopyValueInst src)) g)) /\
  exists it f' v,
    tryOptimizeStoreIntoTemp si f = Some (it, f') /\
    findInst f' (instId (opUser u)) = None /\
    getUses f' (InstResult (instId (opUser u))) = [] /\
    (q <> LoadCopy -> v = src) /\
    (q = LoadCopy ->
     exists c bl load,
       v = InstResult c /\ findInst f c = None /\
       findInst f (instId (opUser u)) = Some (bl, load) /\
       findInst f' c = Some (bl, mkInst c (CopyValueInst src))) /\
    forall j m b,
      findInst f (instId j) = Some (b, j) ->
      nth_error (getAllOperands (instKind j)) m = Some (InstResult (instId (opUser u))) ->
      outlivesStoreRewrite f si (InstResult (instId tempObj)) (instId j) ->
      exists j', findInst f' (instId j) = Some (b, j') /\
                 nth_error (getAllOperands (instKind j')) m = Some v.
Proof.
  intros Hu Hst Hq Ht Hh Hin Hk Hres.
  pose proof (Hres u Hin) as Hne.
  assert (Hpresent : In (opUser u) (allInsts f)).
  { apply getUses_In in Hin. destruct Hin as (Hin & _).
    eapply getBlock_allInsts; eassumption. }
  assert (Hstore : exists bs st, findInst f si = Some (bs, st)).
  { unfold asStore in Hst. destruct (findInst f si) as [[b i]|]; [eauto|discriminate]. }
  assert (Hsi : instId (opUser u) <> si).
  { intros E. unfold asStore in Hst.
    destruct (findInst f si) as [[b i]|] eqn:Hf; [|discriminate].
    pose proof (findInst_unique f si b i (opUser u) Hu Hf Hpresent E) as Ei.
    rewrite <- Ei, Hk in Hst. discriminate. }
  destruct (findInst_of_In f (opUser u) Hu Hpresent) as [bl Hload].
  assert (Hl : isLoadAt f (instId (opUser u)) q).
  { exists bl, operand. rewrite Hload. destruct (opUser u) as [id k]. simpl in *.
    now subst k. }
  split; [|split; [|split]].
  - intros g td Hg.
    now destruct (rewriteStoreUse_load si src (instId (opUser u)) q Hne g td u
                    eq_refl Hsi Hg).
  - intros -> g. reflexivity.
  - intros -> g. reflexivity.
  - pose proof (asAllocStack_Some _ _ _ _ _ Ht) as (Hd & (bt & Hft) & _).
    assert (Hfound : forall u', In u' (getUses f (InstResult (instId tempObj))) ->
              exists b, findInst f (instId (opUser u')) = Some (b, opUser u')).
    { intros u' Hu'. apply getUses_In in Hu'. destruct Hu' as (Hb & _).
      apply (findInst_of_In f (opUser u') Hu (getBlock_allInsts _ _ _ Hb)). }
    destruct (rewriteStoreUses_defined si src
                (getUses f (InstResult (instId tempObj))) f []) as (f3 & td & E).
    { intros u' Hu' Hsi'. rewrite forallb_forall in Hh. specialize (Hh u' Hu').
      rewrite storeUserHandled_spec in Hh. apply Nat.eqb_neq in Hsi'.
      rewrite Hsi' in Hh. simpl in Hh. apply handledStoreUser_clause in Hh.
      destruct (Hfound u' Hu') as [b Hf]. eauto. }
    set (users := map (fun x => instId (opUser x))
                      (getUses f (InstResult (instId tempObj)))).
    assert (Husers : forall x, In x users -> findInst f x <> None).
    { intros x Hx. apply in_map_iff in Hx. destruct Hx as (u' & <- & Hu').
      destruct (Hfound u' Hu') as [b Hf]. congruence. }
    destruct (rewriteStoreUses_replaces si src f (instId (opUser u)) q bl (opUser u)
                (fun id m b =>
                   exists j, findInst f id = Some (b, j) /\
                     nth_error (getAllOperands (instKind j)) m
                     = Some (InstResult (instId (opUser u))) /\
                     outlivesStoreRewrite f si (InstResult (instId tempObj)) id)
                Hload Hne Hsi users Husers
                (fun x Hx => match proj1 (in_map_iff _ _ _) Hx with
                             | ex_intro _ u' (conj Ex Hu') =>
                                 eq_ind _ (fun y => src <> InstResult y)
                                        (Hres u' Hu') _ Ex
                             end)
                _ f [] f3 td u E
                (fun u' Hu' => in_map _ _ _ Hu') Hin eq_refl
                (fun id b i Hf => ex_intro _ i Hf) Hl
                (fun id m b H => match H with
                                 | ex_intro _ j (conj Hf (conj Hm _)) =>
                                     ex_intro _ j (conj Hf Hm)
                                 end))
      as (v & [Hcopy Hsrc] & Htracked).
    assert (Htd : forall x, In x td -> In x users).
    { intros x Hx.
      destruct (rewriteStoreUses_toDelete_from _ _ _ _ _ _ _ E x Hx)
        as [[]|(u' & Hu' & ->)].
      unfold users. apply in_map_iff. eauto. }
    assert (Hkeep : forall id,
              id <> si -> id <> instId tempObj -> ~ In id users ->
              findInst (eraseFromParent (instId tempObj)
                          (eraseFromParent si (eraseAll td f3))) id
              = findInst f3 id).
    { intros id H1 H2 H3.
      rewrite findInst_eraseFromParent_other by congruence.
      rewrite findInst_eraseFromParent_other by congruence.
      apply findInst_eraseAll_other. intros Hx. apply H3. now apply Htd. }
    unfold tryOptimizeStoreIntoTemp. rewrite Hst, Hq, Ht, Hh, E. simpl.
    eexists. eexists. exists v. split; [reflexivity|]. split; [|split; [|split; [|split]]].
    + apply findInst_None_eraseFromParent, findInst_None_eraseFromParent.
      apply findInst_eraseAll.
      eapply rewriteStoreUses_toDelete; eassumption.
    + apply getUses_eraseFromParent, getUses_eraseFromParent.
      unfold eraseAll.
      assert (G : forall l g, getUses g (InstResult (instId (opUser u))) = [] ->
                  getUses (fold_left (fun f x => eraseFromParent x f) l g)
                          (InstResult (instId (opUser u))) = []).
      { induction l as [|x l IH]; intros g Hg; [exact Hg|].
        simpl. apply IH. now apply getUses_eraseFromParent. }
      apply G.
      eapply rewriteStoreUses_load with (u := u); eauto.
    + exact Hsrc.
    + intros Hc. destruct (Hcopy Hc) as (c & Hv & Hf & Hg).
      exists c, bl, (opUser u). repeat split; auto.
      rewrite Hkeep; [exact Hg| | |].
      * destruct Hstore as (bs & st & Hs). congruence.
      * congruence.
      * intros Hx. now apply (Husers c Hx).
    + intros j m b Hf Hm Hout.
      destruct (Htracked (instId j) m b (ex_intro _ j (conj Hf (conj Hm Hout))))
        as (j' & Hg & Hm').
      exists j'. split; [|exact Hm'].
      destruct Hout as (H1 & H2 & H3).
      rewrite Hkeep; [exact Hg|assumption|congruence|].
      intros Hx. unfold users in Hx. apply in_map_iff in Hx.
      destruct Hx as (u' & Ex & Hu'). exact (H3 u' Hu' (eq_sym Ex)).
Qed.

(* ----------------------------------------------------------------- *)
(** ** The initializing copy, from the commit to the end of the pass *)







(* ----------------------------------------------------------------- *)
(** ** Where the source is consumed after the commit *)

Lemma rewriteImage_boundary copyId tempId copySrc needFinalDeinit last moved need destroy :
  (forall ea, moved = Some ea -> instId ea <> instId last) ->
  commitImage copyId tempId copySrc needFinalDeinit (instId last) destroy = [destroy] ->
  rewriteImage copyId tempId copySrc needFinalDeinit (instId last) moved need destroy last
  = commitImage copyId tempId copySrc needFinalDeinit (instId last) last
    ++ (if need then [destroy] else [])
    ++ match moved with
       | Some ea => commitImage copyId tempId copySrc needFinalDeinit (instId last) ea
       | None => []
       end.
Proof.
  intros Hm Hd. unfold rewriteImage, moveImage, destroyImage.
  destruct moved as [ea|].
  - assert (E : (instId last =? instId ea) = false).
    { apply Nat.eqb_neq. intros E. now apply (Hm ea eq_refl). }
    assert (E' : (instId ea =? instId last) = false)
      by (rewrite Nat.eqb_sym; exact E).
    rewrite E, Nat.eqb_refl. cbn [flat_map]. rewrite Nat.eqb_refl, E'.
    rewrite andb_true_r, andb_false_r. rewrite app_nil_r.
    destruct need; cbn [app flat_map]; rewrite ?Hd, ?app_nil_r; reflexivity.
  - cbn [flat_map]. rewrite Nat.eqb_refl, andb_true_r, app_nil_r.
    destruct need; cbn [app flat_map]; rewrite ?Hd, ?app_nil_r; reflexivity.
Qed.

Section PathsThroughCopy.

Variable accessBase : AccessBaseOracle.
Variable computeFrontier : FrontierOracle.
Variable aa : AliasAnalysis.
Variable f : SILFunction.
Variable copyId : InstId.
Variable c : CopyAddr.
Variable tempObj : SILInstruction.
Variable lastLoadInst : SILInstruction.
Variable f1 : SILFunction.
Variable moved : option SILInstruction.

Hypothesis unique : uniqueIds f.
Hypothesis commits :
  Commits accessBase computeFrontier aa f copyId c tempObj lastLoadInst f1.
Hypothesis distinct : caSrc c <> InstResult (instId tempObj).
Hypothesis movedOk :
  moved = None \/
  exists ea, moved = Some ea /\ In ea (allInsts f) /\ isEndAccess ea = true /\
             instId ea <> copyId /\ instId ea <> instId tempObj /\
             instId ea <> instId lastLoadInst /\
             instId lastLoadInst <> copyId.

Local Abbreviation whole :=
  (rewriteImage copyId (instId tempObj) (caSrc c) (caIsTakeOfSrc c)
     (instId lastLoadInst) moved
     (needToInsertDestroy (caIsTakeOfSrc c) c (InstResult (instId tempObj))
                          lastLoadInst)
     (mkInst (freshId f1) (DestroyAddrInst (caSrc c)))).

(** The rewrite changes the consumption of the source only at the boundary,
    the initializing copy included. *)
Lemma whole_count_all i :
  In i (allInsts f) ->
  destroyCount (caSrc c) (whole i)
  = destroyCount (caSrc c) [i]
    + (if caIsTakeOfSrc c && (instId i =? instId lastLoadInst) then 1 else 0).
Proof.
  intros Hi. destruct (Nat.eq_dec (instId i) copyId) as [E|E].
  - destruct (committing_copy _ _ _ _ _ _ _ _ _ commits) as (_ & Hid & Hk).
    assert (i = caInst c).
    { apply (uniqueIds_eq f); auto.
      - exact (committing_copy_in _ _ _ _ _ _ _ _ _ commits).
      - congruence. }
    subst i.
    rewrite (whole_copy _ _ _ _ _ _ _ _ _ unique commits distinct moved movedOk).
    rewrite !destroyCount_cons. unfold consumes at 1 2.
    unfold isDestroyAddrOf, isTakeCopyFrom, isTakeLoadFrom. rewrite Hk. cbn [instKind].
    rewrite SILValue_eqb_refl. rewrite Hid.
    change (destroyCount (caSrc c) []) with 0.
    destruct (copyId =? instId lastLoadInst) eqn:El.
    + apply Nat.eqb_eq in El.
      rewrite (committing_need_at_copy _ _ _ _ _ _ _ _ _ commits (eq_sym El)).
      destruct (caIsTakeOfSrc c); simpl; [|reflexivity].
      rewrite destroyCount_cons. unfold consumes, isDestroyAddrOf. cbn [instKind].
      rewrite SILValue_eqb_refl. reflexivity.
    + rewrite !andb_false_r. simpl.
      change (destroyCount (caSrc c) []) with 0. lia.
  - now apply (whole_count _ _ _ _ _ _ _ _ _ unique commits distinct moved movedOk).
Qed.

Lemma list_sum_zeros {A} (l : list A) : list_sum (map (fun _ => 0) l) = 0.
Proof. induction l as [|x l IH]; [reflexivity|exact IH]. Qed.

(** Block by block: one more consumption of the source in the block of the
    copy when the copy took its source, none elsewhere. *)
Lemma commit_block_count b :
  destroyCount (caSrc c) (getBlock (expandInsts whole f) b)
  = (if caIsTakeOfSrc c && (caParent c =? b) then 1 else 0)
    + destroyCount (caSrc c) (getBlock f b).
Proof.
  rewrite getBlock_expand, destroyCount_flat_map.
  rewrite (list_sum_map_ext_in _
             (fun i => destroyCount (caSrc c) [i]
                       + (if caIsTakeOfSrc c && (instId i =? instId lastLoadInst)
                          then 1 else 0))).
  2:{ intros i Hi. apply whole_count_all. eapply getBlock_allInsts; eassumption. }
  rewrite list_sum_map_add, destroyCount_singletons, Nat.add_comm. f_equal.
  destruct (caIsTakeOfSrc c); [|apply list_sum_zeros]. cbn [andb].
  pose proof (committing_block_of_last _ _ _ _ _ _ _ _ _ commits) as Hlast.
  destruct (caParent c =? b) eqn:Eb.
  - apply Nat.eqb_eq in Eb. subst b.
    apply count_identity; [now apply uniqueIds_block|assumption].
  - apply count_identity_absent. intros i Hi E.
    apply Nat.eqb_neq in Eb. apply Eb. symmetry.
    eapply uniqueIds_same_block; eauto.
Qed.

Lemma commit_blocks_count bs :
  destroyCount (caSrc c) (flat_map (getBlock (expandInsts whole f)) bs)
  = (if caIsTakeOfSrc c then length (filter (Nat.eqb (caParent c)) bs) else 0)
    + destroyCount (caSrc c) (flat_map (getBlock f) bs).
Proof.
  induction bs as [|b bs IH]; [now destruct (caIsTakeOfSrc c)|].
  cbn [flat_map filter]. rewrite !destroyCount_app, IH, commit_block_count.
  destruct (caIsTakeOfSrc c); [|simpl; lia].
  cbn [andb]. destruct (caParent c =? b); simpl; lia.
Qed.

End PathsThroughCopy.

(** C1 (as amended). When the copy-elimination rewrite commits, the
    temporary has no remaining uses and its alloc_stack is erased.  The
    result is the function edited instruction by instruction; the boundary
    instruction is replaced by what is left of itself, followed by a
    destroy_addr of the source exactly when the initializing copy took its
    source and the boundary is the copy itself or no take from the
    temporary, followed by the relocated end_access if there is one; and the
    only instruction of the function whose replacement consumes the source
    once more than the instruction did is the boundary when it is the final
    take.  So on every path from the initializing copy, through the rest of
    its block and then any blocks, nothing consumes the temporary any more;
    and when the initializing copy took its source the source is consumed
    once more than before for each time the path runs from the copy to the
    boundary (once, on a path that does not come back to the block of the
    copy), and exactly as often as before when it did not. *)
Theorem commit_consumes_source_once (accessBase : AccessBaseOracle)
  (computeFrontier : FrontierOracle) (aa : AliasAnalysis) (f : SILFunction)
  (copyId : InstId) (c : CopyAddr) (tempObj lastLoadInst : SILInstruction)
  (f1 : SILFunction) :
  uniqueIds f ->
  Commits accessBase computeFrontier aa f copyId c tempObj lastLoadInst f1 ->
  caSrc c <> InstResult (instId tempObj) ->
  exists moved f',
    tryOptimizeCopyIntoTemp accessBase computeFrontier aa copyId f
      = Some (Continue tt, f') /\
    getUses f' (InstResult (instId tempObj)) = [] /\
    findInst f' (instId tempObj) = None /\
    f' = expandInsts
           (rewriteImage copyId (instId tempObj) (caSrc c) (caIsTakeOfSrc c)
              (instId lastLoadInst) moved
              (needToInsertDestroy (caIsTakeOfSrc c) c (InstResult (instId tempObj))
                                   lastLoadInst)
              (mkInst (freshId f1) (DestroyAddrInst (caSrc c))))
           f /\
    rewriteImage copyId (instId tempObj) (caSrc c) (caIsTakeOfSrc c)
      (instId lastLoadInst) moved
      (needToInsertDestroy (caIsTakeOfSrc c) c (InstResult (instId tempObj))
                           lastLoadInst)
      (mkInst (freshId f1) (DestroyAddrInst (caSrc c))) lastLoadInst
    = commitImage copyId (instId tempObj) (caSrc c) (caIsTakeOfSrc c)
        (instId lastLoadInst) lastLoadInst
      ++ (if needToInsertDestroy (caIsTakeOfSrc c) c (InstResult (instId tempObj))
                                 lastLoadInst
          then [mkInst (freshId f1) (DestroyAddrInst (caSrc c))] else [])
      ++ match moved with
         | Some ea => commitImage copyId (instId tempObj) (caSrc c) (caIsTakeOfSrc c)
                        (instId lastLoadInst) ea
         | None => []
         end /\
    needToInsertDestroy (caIsTakeOfSrc c) c (InstResult (instId tempObj)) lastLoadInst
    = caIsTakeOfSrc c
      && ((instId lastLoadInst =? copyId)
          || negb (isTakeCopyFrom (InstResult (instId tempObj)) lastLoadInst
                   || isTakeLoadFrom (InstResult (instId tempObj)) lastLoadInst)) /\
    (forall i, In i (allInsts f) ->
       destroyCount (caSrc c)
         (commitImage copyId (instId tempObj) (caSrc c) (caIsTakeOfSrc c)
                      (instId lastLoadInst) i)
       = destroyCount (caSrc c) [i]
         + (if isFinalTake (caIsTakeOfSrc c) (InstResult (instId tempObj))
                           (instId lastLoadInst) i
            then 1 else 0)) /\
    forall bs,
      destroyCount (InstResult (instId tempObj)) (pathFromCopy f' copyId bs) = 0 /\
      destroyCount (caSrc c) (pathFromCopy f' copyId bs)
      = (if caIsTakeOfSrc c
         then 1 + length (filter (Nat.eqb (caParent c)) bs) else 0)
        + destroyCount (caSrc c) (pathFromCopy f copyId bs).
Proof.
  intros Hu Hc Hne.
  destruct (committing_whole _ _ _ _ _ _ _ _ _ Hu Hc Hne)
    as (moved & f' & Hr & Hf' & Hno & Hgone & _ & Hm).
  destruct (committing_paths _ _ _ _ _ _ _ _ _ Hu Hc Hne)
    as (f'' & Hr' & _ & _ & _ & Hpaths).
  assert (f'' = f') by congruence. subst f''.
  exists moved, f'.
  split; [exact Hr|]. split; [exact Hno|]. split; [exact Hgone|].
  split; [exact Hf'|]. split; [|split; [|split]].
  - apply rewriteImage_boundary.
    + intros ea E. destruct Hm as [Hm|(ea' & Hm & _ & _ & _ & _ & Hea & _)];
        [congruence|]. congruence.
    + exact (committing_destroy_image _ _ _ _ _ _ _ _ _ Hu Hc Hne).
  - rewrite needToInsertDestroy_spec.
    destruct (committing_copy _ _ _ _ _ _ _ _ _ Hc) as (_ & -> & _). reflexivity.
  - exact (committing_count _ _ _ _ _ _ _ _ _ Hu Hc Hne).
  - intros bs. split.
    + apply destroyCount_unused. intros i Hi.
      apply (proj1 (getUses_nil f' _) Hno).
      unfold pathFromCopy in Hi. apply in_app_or in Hi. destruct Hi as [Hi|Hi].
      * eapply instsAfter_In; eassumption.
      * apply in_flat_map in Hi. destruct Hi as (b & _ & Hi).
        eapply getBlock_allInsts; eassumption.
    + destruct (Hpaths [] (fun b H => match H with end)) as [Hafter _].
      unfold pathFromCopy in *. cbn [flat_map] in Hafter.
      rewrite !app_nil_r in Hafter. rewrite !destroyCount_app, Hafter.
      rewrite Hf' at 1.
      rewrite (commit_blocks_count accessBase computeFrontier aa f copyId c tempObj
                 lastLoadInst f1 moved Hu Hc Hne Hm bs).
      destruct (caIsTakeOfSrc c); lia.
Qed.

(* ----------------------------------------------------------------- *)
(** ** The theorems at work on the example programs *)

Module Witnesses.

Import Examples.
Import FurtherExamples.

Ltac unique_ids :=
  unfold uniqueIds; vm_compute;
  repeat (constructor; [simpl; intuition discriminate|]); constructor.

Lemma copyProgram_unique take ossa : uniqueIds (copyProgram take ossa).
Proof. unique_ids. Defined.

Lemma storeProgram_unique q : uniqueIds (storeProgram q).
Proof. unique_ids. Defined.

(** The one-block example commits, in ownership mode. *)
Lemma copyProgram_commits take :
  Commits noBase noFrontier quietAA (copyProgram take true) 2 (copyView take)
          allocInst (loadInst LoadCopy) (copyProgram take true).
Proof.
  constructor.
  - reflexivity.
  - reflexivity.
  - exists false, false. split; reflexivity.
  - exists [3], [5; 4; 3; 2]. destruct take; repeat split; reflexivity.
  - destruct take; reflexivity.
  - left. reflexivity.
  - reflexivity.
Defined.

(** C2 at work: the load is the last recorded read of the example. *)
Lemma getLastUse_boundary_witness :
  getLastUseWhileSourceIsNotModified (copyProgram false true) (copyView false)
                                     [3] quietAA
  = Some (loadInst LoadCopy).
Proof.
  exact (proj1 (proj2 (getLastUse_boundary (copyProgram false true) (copyView false)
                                          [3] quietAA))
               [] (loadInst LoadCopy) [destroyInst; deallocInst]
               eq_refl eq_refl eq_refl eq_refl).
Defined.

(** C3 at work: a load in the second block disqualifies. *)
Lemma collectLoads_same_block_witness :
  collectLoads 1 (splitProgram false true)
               (mkCopyAddr (copyInst false) 0 source temp false true)
               (mkOperand 1 (loadInst LoadCopy) 0 temp) []
  = Some (false, []).
Proof.
  apply (proj1 (collectLoads_same_block 0 (splitProgram false true)
                  (mkCopyAddr (copyInst false) 0 source temp false true)
                  (mkOperand 1 (loadInst LoadCopy) 0 temp) [])).
  simpl. discriminate.
Defined.

(** C4 at work: a load [take] of the whole temporary is recorded. *)
Lemma collectLoads_take_whole_temporary_witness :
  collectLoads 1 (copyProgram true true) (copyView true)
               (mkOperand 0 (loadInst LoadTake) 0 temp) []
  = Some (true, [3]).
Proof.
  exact (proj2 (proj1 (collectLoads_take_whole_temporary 0 (copyProgram true true)
                         (copyView true) (mkOperand 0 (loadInst LoadTake) 0 temp) []
                         eq_refl)
                      temp eq_refl)
               eq_refl).
Defined.

(** C5 at work: the end_access of the read scope is moved to immediately
    after the load. *)
Lemma extendAccessScopes_relocates_one_witness :
  extendAccessScopes accessCopyView (loadInst LoadCopy) aliasingAA extendProgram
  = (true,
     mkFunction true
       [[beginInst; allocInst; accessCopyInst; loadInst LoadCopy; endInst;
         destroyInst; deallocInst]]).
Proof.
  exact (proj1 (proj2 (proj2 (proj2
           (extendAccessScopes_relocates_one accessCopyView (loadInst LoadCopy)
              aliasingAA extendProgram))))
           [] endInst [loadInst LoadCopy] source AccessRead
           eq_refl (fun i H => match H with end) eq_refl eq_refl).
Defined.


(** C7 at work: a copy that does not initialize is left alone. *)
Lemma disqualified_leaves_function_unmodified_witness :
  tryOptimizeCopyIntoTemp noBase noFrontier quietAA 2 assignProgram
    = Some (Returned, assignProgram) /\
  execPass (tryOptimizeCopyIntoTemp noBase noFrontier quietAA 2) assignProgram
    = Some assignProgram.
Proof.
  apply disqualified_leaves_function_unmodified.
  apply (NonInitializingCopy noBase noFrontier quietAA assignProgram 2
           (mkCopyAddr (mkInst 2 (CopyAddrInst source temp false false)) 0
                       source temp false false));
    reflexivity.
Defined.

(** C10 at work: in ownership mode the destroy_addr and the dealloc_stack
    of the second block are passed over and the scan succeeds; outside
    ownership mode with a taking copy the destroy_addr of the second block
    ends the attempt, and the one in the copy's block is recorded. *)
Lemma scanTempUses_destroy_and_dealloc_witness :
  scanTempUses 6 (splitProgram false true) (copyView false) true false
               (getUses (splitProgram false true) temp) [] []
  = Some (Some ([3], [5; 4; 3; 2])) /\
  scanTempUses 6 (splitProgram true false) (copyView true) false true
               (getUses (splitProgram true false) temp) [] []
  = Some None /\
  (scanTempUses 6 (copyProgram true false) (copyView true) false true
                (getUses (copyProgram true false) temp) [] []
   = Some (Some ([4; 3], [5; 4; 3; 2])) /\
   In 4 [4; 3]).
Proof.
  split; [|split].
  - exact (proj1 (proj2 (scanTempUses_destroy_and_dealloc 6 (splitProgram false true)
                           (copyView false) true false))
                 (getUses (splitProgram false true) temp) [] []).
  - refine (proj1 (proj2 (proj2 (proj2
              (scanTempUses_destroy_and_dealloc 6 (splitProgram true false)
                 (copyView true) false true)))
              eq_refl eq_refl
              [mkOperand 0 (copyInst true) 1 temp; mkOperand 0 (loadInst LoadCopy) 0 temp]
              (mkOperand 1 destroyInst 0 temp) [mkOperand 1 deallocInst 0 temp]
              [] [] [3] [3; 2] eq_refl eq_refl _) _); simpl; discriminate.
  - assert (H : instId (opUser (mkOperand 0 destroyInst 0 temp))
                 <> instId (caInst (copyView true))) by (simpl; discriminate).
    destruct (proj2 (proj2 (proj2 (proj2
                (scanTempUses_destroy_and_dealloc 6 (copyProgram true false)
                   (copyView true) false true)))
                eq_refl eq_refl
                [mkOperand 0 (copyInst true) 1 temp;
                 mkOperand 0 (loadInst LoadCopy) 0 temp]
                (mkOperand 0 destroyInst 0 temp) [mkOperand 0 deallocInst 0 temp]
                [] [] [3] [3; 2] eq_refl eq_refl H) eq_refl) as [H1 H2].
    split; [exact H1|exact (H2 [4; 3] [5; 4; 3; 2] eq_refl)].
Defined.

(** C1 at work on the taking copy: the load is no take, so a destroy_addr
    of the source follows it. *)
Lemma commit_consumes_source_once_witness :
  exists f',
    tryOptimizeCopyIntoTemp noBase noFrontier quietAA 2 (copyProgram true true)
      = Some (Continue tt, f') /\
    f' = mkFunction true
           [[mkInst 2 (CopyAddrInst source source true true);
             mkInst 3 (LoadInst source LoadCopy);
             mkInst 6 (DestroyAddrInst source)]] /\
    getUses f' temp = [] /\
    findInst f' 1 = None /\
    forall bs,
      destroyCount temp (pathFromCopy f' 2 bs) = 0 /\
      destroyCount source (pathFromCopy f' 2 bs)
      = 1 + length (filter (Nat.eqb 0) bs)
        + destroyCount source (pathFromCopy (copyProgram true true) 2 bs).
Proof.
  assert (Hne : caSrc (copyView true) <> InstResult (instId allocInst))
    by (simpl; discriminate).
  destruct (commit_consumes_source_once noBase noFrontier quietAA (copyProgram true true)
              2 (copyView true) allocInst (loadInst LoadCopy) (copyProgram true true)
              (copyProgram_unique true true) (copyProgram_commits true) Hne)
    as (moved & f' & Hr & Hno & Hgone & _ & _ & _ & _ & Hpaths).
  exists f'. split; [exact Hr|]. split.
  - vm_compute in Hr. now injection Hr as <-.
  - split; [exact Hno|]. split; [exact Hgone|exact Hpaths].
Defined.

(** C1 as stated fails on the copy that does not take its source: the
    rewrite commits, the path that destroyed the temporary once now
    consumes the source not once but never. *)
Lemma commit_without_take_counterexample :
  execPass (tryOptimizeCopyIntoTemp noBase noFrontier quietAA 2) (copyProgram false true)
    = Some (mkFunction true
              [[mkInst 2 (CopyAddrInst source source false true);
                mkInst 3 (LoadInst source LoadCopy)]]) /\
  destroyCount temp (pathFromCopy (copyProgram false true) 2 []) = 1 /\
  destroyCount source
    (pathFromCopy (mkFunction true
                     [[mkInst 2 (CopyAddrInst source source false true);
                       mkInst 3 (LoadInst source LoadCopy)]]) 2 []) <> 1.
Proof.
  split; [reflexivity|]. split; [reflexivity|]. vm_compute. discriminate.
Qed.


Lemma storeUseProgram_unique q : uniqueIds (storeUseProgram q).
Proof. unique_ids. Defined.

(** C8 at work on a load whose result has a user: after a load [take]
    the user names the stored value and nothing is inserted; after a load
    [copy] it names a new copy_value of the stored value. *)
Lemma store_rewrite_replaces_loads_witness :
  (exists it f',
     tryOptimizeStoreIntoTemp 2 (storeUseProgram LoadTake) = Some (it, f') /\
     f' = mkFunction true [[mkInst 7 (DestroyValueInst stored)]] /\
     findInst f' 3 = None /\ getUses f' (InstResult 3) = [] /\
     exists j',
       findInst f' 7 = Some (0, j') /\
       nth_error (getAllOperands (instKind j')) 0 = Some stored) /\
  (exists it f',
     tryOptimizeStoreIntoTemp 2 (storeUseProgram LoadCopy) = Some (it, f') /\
     f' = mkFunction true
            [[mkInst 8 (CopyValueInst stored);
              mkInst 7 (DestroyValueInst (InstResult 8))]] /\
     findInst f' 3 = None /\ getUses f' (InstResult 3) = [] /\
     exists c j',
       findInst (storeUseProgram LoadCopy) c = None /\
       findInst f' c = Some (0, mkInst c (CopyValueInst stored)) /\
       findInst f' 7 = Some (0, j') /\
       nth_error (getAllOperands (instKind j')) 0 = Some (InstResult c)).
Proof.
  assert (Hin : forall q,
             In (mkOperand 0 (loadInst q) 0 temp)
                (getUses (storeUseProgram q) (InstResult (instId allocInst))))
    by (intros q; vm_compute; auto).
  assert (Hres : forall q u',
             In u' (getUses (storeUseProgram q) (InstResult (instId allocInst))) ->
             stored <> InstResult (instId (opUser u')))
    by (intros q u' _; discriminate).
  assert (Hout : forall q,
             outlivesStoreRewrite (storeUseProgram q) 2
               (InstResult (instId allocInst)) (instId loadUserInst)).
  { intros q. split; [simpl; discriminate|]. split; [simpl; discriminate|].
    intros u' Hu'. vm_compute in Hu'.
    destruct Hu' as [<-|[<-|[<-|[]]]]; simpl; discriminate. }
  split.
  - destruct (proj2 (proj2 (proj2
                (store_rewrite_replaces_loads 2 (storeUseProgram LoadTake) stored temp
                   StoreInit allocInst (mkOperand 0 (loadInst LoadTake) 0 temp) temp
                   LoadTake (storeUseProgram_unique LoadTake) eq_refl eq_refl eq_refl
                   eq_refl (Hin LoadTake) eq_refl (Hres LoadTake)))))
      as (it & f' & v & Hr & Hgone & Hno & Hsrc & _ & Husers).
    destruct (Husers loadUserInst 0 0 eq_refl eq_refl (Hout LoadTake)) as (j' & Hj & Hm).
    exists it, f'. split; [exact Hr|]. split.
    + vm_compute in Hr. now injection Hr as _ <-.
    + split; [exact Hgone|]. split; [exact Hno|].
      exists j'. split; [exact Hj|]. rewrite <- Hsrc; [exact Hm|discriminate].
  - destruct (proj2 (proj2 (proj2
                (store_rewrite_replaces_loads 2 (storeUseProgram LoadCopy) stored temp
                   StoreInit allocInst (mkOperand 0 (loadInst LoadCopy) 0 temp) temp
                   LoadCopy (storeUseProgram_unique LoadCopy) eq_refl eq_refl eq_refl
                   eq_refl (Hin LoadCopy) eq_refl (Hres LoadCopy)))))
      as (it & f' & v & Hr & Hgone & Hno & _ & Hcopy & Husers).
    destruct (Hcopy eq_refl) as (c & bl & load & Hv & Hfresh & Hload & Hc).
    destruct (Husers loadUserInst 0 0 eq_refl eq_refl (Hout LoadCopy)) as (j' & Hj & Hm).
    exists it, f'. split; [exact Hr|]. split.
    + vm_compute in Hr. now injection Hr as _ <-.
    + split; [exact Hgone|]. split; [exact Hno|].
      exists c, j'. split; [exact Hfresh|]. split.
      * vm_compute in Hload. injection Hload as <- _. exact Hc.
      * split; [exact Hj|]. rewrite <- Hv. exact Hm.
Defined.

End Witnesses.

(* ================================================================= *)
(** * The further properties at work *)

Module FurtherWitnesses.

Import Examples.
Import FurtherExamples.

Lemma loadProgram_unique : uniqueIds loadProgram.
Proof. Witnesses.unique_ids. Defined.

(** X1 at work: the load of the example is a boundary. *)
Lemma getLastUse_sound_witness :
  ([3] = [] /\ loadInst LoadCopy = caInst (copyView false)) \/
  (exists pre post,
     instsAfter (copyProgram false true) (instId (caInst (copyView false)))
     = pre ++ loadInst LoadCopy :: post /\
     contains [3] (loadInst LoadCopy) = true /\
     (forall i, In i pre -> mayWriteToMemory quietAA i (caSrc (copyView false)) = false) /\
     ((isFullApplySite (loadInst LoadCopy) || isYield (loadInst LoadCopy)) = true ->
      mayWriteToMemory quietAA (loadInst LoadCopy) (caSrc (copyView false)) = false) /\
     recordedIn [3] (pre ++ [loadInst LoadCopy]) = size [3]).
Proof.
  exact (getLastUse_sound (copyProgram false true) (copyView false) [3] quietAA
                          (loadInst LoadCopy) eq_refl).
Defined.

(** X2 at work: the scan of the example records the load. *)
Lemma scanTempUses_records_in_block_witness :
  (forall x, In x [3] -> inBlock (copyProgram false true) 0 x) /\
  (forall u, In u (getUses (copyProgram false true) temp) ->
             In (instId (opUser u)) [5; 4; 3; 2]).
Proof.
  exact (scanTempUses_records_in_block 6 (copyProgram false true) (copyView false)
                                       true false temp [3] [5; 4; 3; 2] eq_refl).
Defined.

(** X3 at work: the alloc_stack before the copy does not use the
    temporary. *)
Lemma commits_no_use_before_copy_witness : ~ usesValue temp allocInst.
Proof.
  exact (commits_no_use_before_copy noBase noFrontier quietAA (copyProgram true true)
           2 (copyView true) allocInst (loadInst LoadCopy) (copyProgram true true)
           (Witnesses.copyProgram_commits true) allocInst (or_introl eq_refl)).
Defined.

(** X4 at work: the end_access is moved over the load. *)
Lemma extendAccessScopes_moves_over_reads_witness :
  exists pre ea s post,
    scopeRange extendProgram accessCopyView (loadInst LoadCopy) = pre ++ ea :: post /\
    mkFunction true
      [[beginInst; allocInst; accessCopyInst; loadInst LoadCopy; endInst;
        destroyInst; deallocInst]]
    = moveAfter ea (instId (loadInst LoadCopy)) extendProgram /\
    isEndAccess ea = true /\
    getBeginAccess extendProgram ea = Some (s, AccessRead) /\
    isNoAlias aliasingAA (caSrc accessCopyView) s = false /\
    isTermInst (loadInst LoadCopy) = false /\
    forall i, In i post ->
      isEndAccess i = false /\ isBeginAccess i = false /\
      isBeginUnpairedAccess i = false /\ mayWriteToMemory aliasingAA i s = false.
Proof.
  refine (extendAccessScopes_moves_over_reads accessCopyView (loadInst LoadCopy)
            aliasingAA extendProgram _ eq_refl _).
  vm_compute. discriminate.
Defined.

(** X5 at work: the example is rewritten to the end. *)
Lemma tryOptimizeCopyIntoTemp_all_or_nothing_witness :
  (Continue tt = Returned /\ copyProgramRewritten = copyProgram false true) \/
  (Continue tt = Continue tt /\
   exists c tempObj lex dyn,
     asCopyAddr (copyProgram false true) 2 = Some c /\
     asAllocStack (copyProgram false true) (caDest c) = Some (tempObj, lex, dyn) /\
     getUses copyProgramRewritten (caDest c) = [] /\
     findInst copyProgramRewritten (instId tempObj) = None).
Proof.
  exact (tryOptimizeCopyIntoTemp_all_or_nothing noBase noFrontier quietAA 2
           (copyProgram false true) copyProgramRewritten (Continue tt) eq_refl).
Defined.

(** X6 at work: nothing between the copy and the load writes. *)
Lemma commits_source_not_modified_witness :
  exists pre post,
    instsAfter (copyProgram true true) 2 = pre ++ loadInst LoadCopy :: post /\
    (forall i, In i pre -> mayWriteToMemory quietAA i (caSrc (copyView true)) = false) /\
    ((isFullApplySite (loadInst LoadCopy) || isYield (loadInst LoadCopy) = true \/
      (caIsTakeOfSrc (copyView true) = true /\ isDestroyAddr (loadInst LoadCopy) = false)) ->
     mayWriteToMemory quietAA (loadInst LoadCopy) (caSrc (copyView true)) = false).
Proof.
  refine (commits_source_not_modified noBase noFrontier quietAA (copyProgram true true)
            2 (copyView true) allocInst (loadInst LoadCopy) (copyProgram true true)
            (Witnesses.copyProgram_commits true) _).
  simpl. discriminate.
Defined.

(** X7 at work on the taking copy. *)
Lemma commit_is_instructionwise_edit_witness :
  exists moved,
    (moved = None \/
     exists ea, moved = Some ea /\
                In ea (scopeRange (copyProgram true true) (copyView true)
                                  (loadInst LoadCopy)) /\
                isEndAccess ea = true /\ instId ea <> instId (loadInst LoadCopy)) /\
    copyProgram true true
    = expandInsts (moveImage moved (instId (loadInst LoadCopy))) (copyProgram true true) /\
    tryOptimizeCopyIntoTemp noBase noFrontier quietAA 2 (copyProgram true true)
    = Some (Continue tt,
            expandInsts
              (rewriteImage 2 (instId allocInst) (caSrc (copyView true))
                 (caIsTakeOfSrc (copyView true)) (instId (loadInst LoadCopy)) moved
                 (needToInsertDestroy (caIsTakeOfSrc (copyView true)) (copyView true)
                                      (InstResult (instId allocInst)) (loadInst LoadCopy))
                 (mkInst (freshId (copyProgram true true))
                         (DestroyAddrInst (caSrc (copyView true)))))
              (copyProgram true true)).
Proof.
  refine (commit_is_instructionwise_edit noBase noFrontier quietAA (copyProgram true true)
            2 (copyView true) allocInst (loadInst LoadCopy) (copyProgram true true)
            (Witnesses.copyProgram_unique true true)
            (Witnesses.copyProgram_commits true) _).
  simpl. discriminate.
Defined.

(** X8 at work: the store rewriter returns on the example. *)
Lemma tryOptimizeStoreIntoTemp_returns_witness :
  exists it f', tryOptimizeStoreIntoTemp 2 (storeProgram LoadCopy) = Some (it, f').
Proof.
  exact (tryOptimizeStoreIntoTemp_returns 2 (storeProgram LoadCopy)
           (Witnesses.storeProgram_unique LoadCopy)).
Defined.

(** X9 at work: nothing is left of the temporary of the example. *)
Lemma store_rewrite_erases_temporary_witness :
  exists it f',
    tryOptimizeStoreIntoTemp 2 (storeProgram LoadTake) = Some (it, f') /\
    findInst f' 2 = None /\
    findInst f' (instId allocInst) = None /\
    (forall u, In u (getUses (storeProgram LoadTake) temp) ->
               findInst f' (instId (opUser u)) = None) /\
    getUses f' temp = [].
Proof.
  refine (store_rewrite_erases_temporary 2 (storeProgram LoadTake) stored temp
            StoreInit allocInst (Witnesses.storeProgram_unique LoadTake)
            eq_refl eq_refl eq_refl eq_refl _).
  simpl. discriminate.
Defined.

(** X10 at work: the value stored into an argument's memory is queued. *)
Lemma visitStore_queues_on_bail_witness :
  visitStore enumCollaborators 2 stored (mkScan argStoreProgram [] [])
  = Some (nextIterator argStoreProgram 2, mkScan argStoreProgram [] [stored]).
Proof.
  exact (visitStore_queues_on_bail enumCollaborators 2 (mkScan argStoreProgram [] [])
           stored (FunctionArgument 2 Guaranteed) StoreInit eq_refl
           (or_intror (or_introl eq_refl))).
Defined.

(** X11 at work: a function of an alloc_stack, a load and a dealloc_stack
    is returned as it is. *)
Lemma run_without_candidates_witness : run 3 collaborators loadProgram = Some loadProgram.
Proof.
  refine (run_without_candidates 3 collaborators loadProgram loadProgram_unique _ _).
  - intros i Hi. simpl in Hi.
    destruct Hi as [<-|[<-|[<-|[]]]]; reflexivity.
  - intros blk Hb. simpl in Hb. destruct Hb as [<-|[]]. simpl. lia.
Defined.

(** X12 at work: the rewritten examples have distinct instructions. *)
Lemma rewriters_keep_instructions_distinct_witness :
  uniqueIds copyProgramRewritten.
Proof.
  exact (proj1 (rewriters_keep_instructions_distinct (copyProgram false true)
                  (Witnesses.copyProgram_unique false true))
               noBase noFrontier quietAA 2 (Continue tt) copyProgramRewritten eq_refl).
Defined.

(** X13 at work: the end_access is not moved over a potential write. *)
Lemma extendAccessScopes_blocked_witness :
  extendAccessScopes accessCopyView (loadInst LoadCopy) writingAA extendProgram
  = (false, extendProgram).
Proof.
  exact (extendAccessScopes_blocked accessCopyView (loadInst LoadCopy) writingAA
           extendProgram [] [] [] endInst (loadInst LoadCopy) source AccessRead
           eq_refl eq_refl eq_refl eq_refl).
Defined.

(** X14 at work: the load [take] from the field disqualifies. *)
Lemma take_from_projection_refused_witness :
  collectLoadsFromProjection 6 projectionProgram projectionInst (copyView false) []
  <> Some (true, [3]).
Proof.
  exact (proj1 (take_from_projection_refused 6 projectionProgram projectionInst
                  (copyView false) (mkOperand 0 projectedLoadInst 0 (InstResult 6))
                  (or_introl eq_refl) eq_refl
                  (fun E => eq_ind (InstResult 6)
                              (fun v => match v with
                                        | InstResult 6 => True
                                        | _ => False
                                        end) I _ E)
                  (or_introl (ex_intro _ (InstResult 6) eq_refl)))
               [] [3]).
Defined.

End FurtherWitnesses.
